(** * goget: bounded-parallel downloader with temp-file publishing

    A shallow embedding of [goget.go]: the name allocator [prepUrl], the
    fetcher [getUrl], and [main] with its dispatcher loop and its deferred
    publisher, followed by the properties of the design document that can be
    stated over them.

    Conventions.
    - Go strings are byte strings: [string].  Go [int] is a 64-bit signed
      integer: [Z] with the wrap-around of [++] written out ([int_incr]).
    - The global [filemap] is a [gmap string filename]; reading a missing key
      yields the zero [filename], as a Go map does.
    - The operating system and the HTTP transport are not part of the
      repository.  Their answers are inputs of the model (record [env]): the
      files there are when the program starts, what [os.CreateTemp] returns,
      whether the runtime grants the capacity of the channel, what
      [http.Get] returns, which writes fail.  The file system itself is a
      finite map from paths to contents. *)

From Stdlib Require Import ZArith Ascii String List Lia Bool.
From stdpp Require Import base option list gmap strings.

Local Open Scope string_scope.
Local Open Scope list_scope.

(* ===================================================================== *)
(** * Part I. Definitions                                                 *)
(* ===================================================================== *)

(** ** Go values *)

(** The error values the program distinguishes ([io.EOF],
    [io.ErrUnexpectedEOF], [fs.ErrNotExist], [io.ErrShortWrite]) and all the
    others, which it only prints. *)
Inductive error : Type :=
  | EOF
  | ErrUnexpectedEOF
  | ErrNotExist
  | ErrShortWrite
  | ErrOther (msg : string).

#[global] Instance error_eq_dec : EqDecision error.
Proof. solve_decision. Defined.

(** [errors.Is(err, fs.ErrNotExist)] *)
Definition is_not_exist (e : error) : bool :=
  match e with ErrNotExist => true | _ => false end.

(** 64-bit [int]. *)
Definition int_min : Z := - 2 ^ 63.
Definition int_max : Z := 2 ^ 63 - 1.
Definition int_wrap (z : Z) : Z := (z + 2 ^ 63) mod 2 ^ 64 - 2 ^ 63.
Definition int_incr (z : Z) : Z := int_wrap (z + 1).
Definition int_decr (z : Z) : Z := int_wrap (z - 1).

(** ** The [strings] package, as far as [prepUrl] uses it *)

Module strings.

(** [s[n:]] and [s[:n]] *)
Fixpoint drop (n : nat) (s : string) : string :=
  match n, s with
  | O, _ => s
  | S _, EmptyString => EmptyString
  | S k, String _ s' => drop k s'
  end.

Fixpoint take (n : nat) (s : string) : string :=
  match n, s with
  | O, _ => EmptyString
  | S _, EmptyString => EmptyString
  | S k, String c s' => String c (take k s')
  end.

Definition HasPrefix (s pre : string) : bool := String.prefix pre s.

(** [strings.Index]: offset of the first occurrence of [sep] in [s];
    [None] stands for Go's -1. *)
Fixpoint Index (s sep : string) : option nat :=
  if String.prefix sep s then Some O
  else match s with
       | EmptyString => None
       | String _ s' => option_map S (Index s' sep)
       end.

(** [strings.Cut] *)
Definition Cut (s sep : string) : string * string * bool :=
  match Index s sep with
  | Some i => (take i s, drop (i + String.length sep) s, true)
  | None => (s, EmptyString, false)
  end.

(** The loop of [strings.genSplit] for a non-empty separator.  Go bounds
    the loop by [Count(s, sep)]; the loop also stops at the first failing
    [Index], so any bound that is at least the count gives the same
    slice.  [Split] uses [len(s)]. *)
Fixpoint genSplit (bound : nat) (s sep : string) : list string :=
  match bound with
  | O => [s]
  | S k =>
      match Index s sep with
      | None => [s]
      | Some m => take m s :: genSplit k (drop (m + String.length sep) s) sep
      end
  end.

Definition Split (s sep : string) : list string :=
  genSplit (String.length s) s sep.

End strings.

(** ** The registry *)

Record filename : Type := mkFilename {
  n : Z;                   (* how many times the url has been accessed *)
  name : string;           (* end-file name *)
  tmpfiles : list string;  (* temporary file names *)
}.

(** The zero value of the struct. *)
Definition filename_zero : filename :=
  {| n := 0; name := ""; tmpfiles := [] |}.

(** [filemap[url]] as an rvalue: the zero value when the key is absent. *)
Definition filemap_read (filemap : gmap string filename) (url : string) : filename :=
  default filename_zero (filemap !! url).

(** ** [prepUrl] *)

(** Lines 94-96. *)
Definition normalize (url : string) : string :=
  if strings.HasPrefix url "http://" || strings.HasPrefix url "https://"
  then url
  else "http://" +:+ url.

(** Lines 101-109: the name of the end file. *)
Definition derive_fname (url : string) : string :=
  let '(_, fname, _) := strings.Cut url "://" in
  let '(_, fname, _) := strings.Cut fname "/" in
  let parts := strings.Split fname "/" in
  let fname := List.last parts "" in
  if String.eqb fname "" then "index.html" else fname.

(** The words of the design document for the end-file name, to compare
    [derive_fname] with.  [no_slash s]: the byte '/' does not occur in
    [s]. *)
Fixpoint no_slash (s : string) : bool :=
  match s with
  | EmptyString => true
  | String c s' => negb (Ascii.eqb c "/") && no_slash s'
  end.

(** [path] is what is left of [rest] (a URL without its scheme) when the
    host, which runs up to the first '/', and that '/' are removed. *)
Definition path_after_host (rest path : string) : Prop :=
  (no_slash rest = true /\ path = "") \/
  (exists host, no_slash host = true /\ rest = host +:+ "/" +:+ path).

(** [seg] is the final '/'-delimited segment of [p]. *)
Definition final_segment_of (p seg : string) : Prop :=
  no_slash seg = true /\ (p = seg \/ exists pre, p = pre +:+ "/" +:+ seg).

(** [os.CreateTemp(d, fname+"*")]: the random string replaces the final
    star, and the name is joined to the directory (the directory
    [os.MkdirTemp] returned, which does not end in a separator).  [rnd] is
    the random string the call drew. *)
Definition temp_path (d fname rnd : string) : string :=
  d +:+ "/" +:+ fname +:+ rnd.

(** What the main goroutine acts on. *)
Record world : Type := mkWorld {
  filemap : gmap string filename;
  fs : gmap string (list Byte.byte);   (* regular files: path to contents *)
  stdout : list string;                (* lines printed to os.Stdout *)
  stderr : list error;                 (* lines printed to os.Stderr *)
  renamed : list (string * string);    (* the os.Rename(old, new) calls made *)
}.

Definition w_set_filemap (m : gmap string filename) (w : world) : world :=
  {| filemap := m; fs := fs w; stdout := stdout w; stderr := stderr w;
     renamed := renamed w |}.

Definition w_set_fs (fs' : gmap string (list Byte.byte)) (w : world) : world :=
  {| filemap := filemap w; fs := fs'; stdout := stdout w; stderr := stderr w;
     renamed := renamed w |}.

(** [fmt.Fprintln(os.Stderr, e)] *)
Definition w_eprintln (e : error) (w : world) : world :=
  {| filemap := filemap w; fs := fs w; stdout := stdout w;
     stderr := stderr w ++ [e]; renamed := renamed w |}.

Definition w_log_rename (oldpath newpath : string) (w : world) : world :=
  {| filemap := filemap w; fs := fs w; stdout := stdout w; stderr := stderr w;
     renamed := renamed w ++ [(oldpath, newpath)] |}.

(** [prepUrl(url, d)].  [ct] is the outcome of the [os.CreateTemp] call:
    an error, or the random string of the fresh file.  The deferred
    [filemap[url] = fmentry] runs on both return paths. *)
Definition prepUrl (ct : error + string) (url d : string) (w : world)
  : (string * option error) * world :=
  let url := normalize url in
  let fmentry := filemap_read (filemap w) url in
  let fname := derive_fname url in
  match ct with
  | inl err =>
      (("", Some err), w_set_filemap (<[url := fmentry]> (filemap w)) w)
  | inr rnd =>
      let tmp := temp_path d fname rnd in
      let fmentry :=
        {| n := n fmentry; name := fname; tmpfiles := tmpfiles fmentry ++ [tmp] |} in
      ((url, None),
       w_set_filemap (<[url := fmentry]> (filemap w))
         (w_set_fs (<[tmp := []]> (fs w)) w))
  end.

(** ** The [io] and [bufio] packages, as far as [getUrl] uses them *)

(** A response body: the bytes the transport still has to deliver, and the
    error with which the stream ends once they are delivered ([EOF] for a
    body that ends normally).  Reading at the end returns that error again
    and again. *)
Record body : Type := mkBody {
  b_data : list Byte.byte;
  b_end : error;
}.

(** [io.ReadFull(reader, buf)] with [len(buf) = len]: the bytes read, the
    error, and the rest of the stream.  As [io.ReadAtLeast]: a full buffer
    drops the error; an [EOF] after some bytes becomes [ErrUnexpectedEOF]. *)
Definition ReadFull (r : body) (len : nat) : (list Byte.byte * option error) * body :=
  if (len <=? length (b_data r))%nat
  then ((List.firstn len (b_data r), None),
        {| b_data := List.skipn len (b_data r); b_end := b_end r |})
  else
    let nread := length (b_data r) in
    let err :=
      if (0 <? nread)%nat && bool_decide (b_end r = EOF) then ErrUnexpectedEOF
      else b_end r in
    ((b_data r, Some err), {| b_data := []; b_end := b_end r |}).

(** What one goroutine [getUrl(url, f, ch)] meets: the outcome of
    [os.Create], the outcome of [http.Get], and, for the successive
    [write] calls on the file, whether each fails. *)
Record fetch_env : Type := mkFetchEnv {
  fe_create : option error;
  fe_get : error + body;
  fe_write : nat -> option error;
}.

(** The state a goroutine acts on.  [g_live] tells whether the path [f]
    still names the file opened as [fp]: after [os.Remove(f)] the open file
    has no name and writes to it are not visible in [g_fs]. *)
Record gstate : Type := mkGstate {
  g_fs : gmap string (list Byte.byte);
  g_stdout : list string;
  g_stderr : list error;
  g_sent : nat;            (* values sent on ch *)
  g_nwrites : nat;         (* write calls issued on fp *)
  g_live : bool;
  g_open : bool;           (* fp is open *)
}.

Definition g_println (line : string) (g : gstate) : gstate :=
  {| g_fs := g_fs g; g_stdout := g_stdout g ++ [line]; g_stderr := g_stderr g;
     g_sent := g_sent g; g_nwrites := g_nwrites g; g_live := g_live g;
     g_open := g_open g |}.

Definition g_eprintln (e : error) (g : gstate) : gstate :=
  {| g_fs := g_fs g; g_stdout := g_stdout g; g_stderr := g_stderr g ++ [e];
     g_sent := g_sent g; g_nwrites := g_nwrites g; g_live := g_live g;
     g_open := g_open g |}.

(** [ch <- 0] *)
Definition g_send (g : gstate) : gstate :=
  {| g_fs := g_fs g; g_stdout := g_stdout g; g_stderr := g_stderr g;
     g_sent := S (g_sent g); g_nwrites := g_nwrites g; g_live := g_live g;
     g_open := g_open g |}.

(** [fp.Close()] *)
Definition g_close (g : gstate) : gstate :=
  {| g_fs := g_fs g; g_stdout := g_stdout g; g_stderr := g_stderr g;
     g_sent := g_sent g; g_nwrites := g_nwrites g; g_live := g_live g;
     g_open := false |}.

(** The closure [rm]: [os.Remove(f)], its error dropped. *)
Definition rm (f : string) (g : gstate) : gstate :=
  {| g_fs := delete f (g_fs g); g_stdout := g_stdout g; g_stderr := g_stderr g;
     g_sent := g_sent g; g_nwrites := g_nwrites g; g_live := false;
     g_open := g_open g |}.

(** [os.Create(f)] succeeding: the file is created or truncated. *)
Definition g_create (f : string) (g : gstate) : gstate :=
  {| g_fs := <[f := []]> (g_fs g); g_stdout := g_stdout g; g_stderr := g_stderr g;
     g_sent := g_sent g; g_nwrites := 0; g_live := true; g_open := true |}.

(** [fp.Write(p)]: the bytes written and the error.  A failing call writes
    nothing. *)
Definition fp_Write (fe : fetch_env) (f : string) (p : list Byte.byte) (g : gstate)
  : (nat * option error) * gstate :=
  match fe_write fe (g_nwrites g) with
  | Some e =>
      ((O, Some e),
       {| g_fs := g_fs g; g_stdout := g_stdout g; g_stderr := g_stderr g;
          g_sent := g_sent g; g_nwrites := S (g_nwrites g); g_live := g_live g;
          g_open := g_open g |})
  | None =>
      ((length p, None),
       {| g_fs := if g_live g
                  then <[f := default [] (g_fs g !! f) ++ p]> (g_fs g)
                  else g_fs g;
          g_stdout := g_stdout g; g_stderr := g_stderr g;
          g_sent := g_sent g; g_nwrites := S (g_nwrites g); g_live := g_live g;
          g_open := g_open g |})
  end.

Module bufio.

(** [bufio.Writer] with the default size. *)
Definition defaultBufSize : nat := 4096.

Record Writer : Type := mkWriter {
  buf : list Byte.byte;      (* b.buf[0:b.n] *)
  err : option error;        (* b.err *)
}.

Definition NewWriter : Writer := {| buf := []; err := None |}.

Definition Available (b : Writer) : nat := defaultBufSize - length (buf b).
Definition Buffered (b : Writer) : nat := length (buf b).

(** [b.Flush()] *)
Definition Flush (fe : fetch_env) (f : string) (b : Writer) (g : gstate)
  : option error * Writer * gstate :=
  match err b with
  | Some e => (Some e, b, g)
  | None =>
      if (Buffered b =? 0)%nat then (None, b, g)
      else
        let '((nw, werr), g') := fp_Write fe f (buf b) g in
        let werr :=
          if (nw <? Buffered b)%nat && bool_decide (werr = None)
          then Some ErrShortWrite else werr in
        match werr with
        | Some e => (Some e, {| buf := List.skipn nw (buf b); err := Some e |}, g')
        | None => (None, {| buf := []; err := None |}, g')
        end
  end.

(** The loop of [b.Write(p)]: while [p] does not fit and no error has
    occurred, write [p] directly when the buffer is empty, else fill the
    buffer and flush it.  A direct write consumes all of [p] or fails, and
    a flush empties the buffer or fails, so two rounds are the most the
    loop can make; [rounds] bounds it. *)
Fixpoint Write_loop (rounds : nat) (fe : fetch_env) (f : string)
    (b : Writer) (p : list Byte.byte) (g : gstate)
  : Writer * list Byte.byte * gstate :=
  match rounds with
  | O => (b, p, g)
  | S k =>
      if (Available b <? length p)%nat && bool_decide (err b = None) then
        if (Buffered b =? 0)%nat then
          let '((nw, werr), g') := fp_Write fe f p g in
          Write_loop k fe f {| buf := buf b; err := werr |} (List.skipn nw p) g'
        else
          let nc := Available b in
          let b1 := {| buf := buf b ++ List.firstn nc p; err := err b |} in
          let '(_, b2, g') := Flush fe f b1 g in
          Write_loop k fe f b2 (List.skipn nc p) g'
      else (b, p, g)
  end.

(** [b.Write(p)]: the error it returns. *)
Definition Write (fe : fetch_env) (f : string) (b : Writer)
    (p : list Byte.byte) (g : gstate) : option error * Writer * gstate :=
  let '(b', p', g') := Write_loop 2 fe f b p g in
  match err b' with
  | Some e => (Some e, b', g')
  | None => (None, {| buf := buf b' ++ p'; err := None |}, g')
  end.

End bufio.

(** ** [getUrl] *)

(** The deferred calls of [getUrl]. *)
Inductive deferred : Type :=
  | DeferSend      (* func() { ch <- 0 }() *)
  | DeferClose.    (* fp.Close() *)

Definition run_deferred (g : gstate) (d : deferred) : gstate :=
  match d with
  | DeferSend => g_send g
  | DeferClose => g_close g
  end.

(** Lines 72-89.  [outer] is the [readErr] of the [for] clause; the
    [readErr] of line 73 is a new variable of the loop body, so the
    condition always reads the initial [nil] and the loop is left by
    [break] only.  [None] when [steps] iterations did not reach a
    [break]. *)
Fixpoint copy_loop (steps : nat) (fe : fetch_env) (f : string)
    (outer : option error) (reader : body) (writer : bufio.Writer) (g : gstate)
  : option (bufio.Writer * gstate) :=
  match steps with
  | O => None
  | S k =>
      if bool_decide (outer = None) then
        let '((chunk, readErr), reader') := ReadFull reader 4096 in
        if bool_decide (readErr = Some EOF) then Some (writer, g)
        else if bool_decide (readErr <> None)
                && bool_decide (readErr <> Some ErrUnexpectedEOF) then
          Some (writer, rm f (g_eprintln (default EOF readErr) g))
        else
          let '(writeErr, writer', g') := bufio.Write fe f writer chunk g in
          match writeErr with
          | Some e => Some (writer', rm f (g_eprintln e g'))
          | None => copy_loop k fe f outer reader' writer' g'
          end
      else Some (writer, g)
  end.

(** The body of [getUrl]: the deferred calls registered, most recent
    first, and the state at the [return]. *)
Definition getUrl_body (steps : nat) (qflag : bool) (fe : fetch_env)
    (url f : string) (g : gstate) : option (list deferred * gstate) :=
  let defers := [DeferSend] in
  let g := if negb qflag then g_println ("GET " +:+ url) g else g in
  match fe_create fe with
  | Some e => Some (defers, rm f (g_eprintln e g))
  | None =>
      let g := g_create f g in
      let defers := DeferClose :: defers in
      let g := g_println ("created " +:+ f) g in
      match fe_get fe with
      | inl e => Some (defers, rm f (g_eprintln e g))
      | inr resp_Body =>
          match copy_loop steps fe f None resp_Body bufio.NewWriter g with
          | None => None
          | Some (writer, g) =>
              let '(_, _, g) := bufio.Flush fe f writer g in
              Some (defers, g)
          end
      end
  end.

(** [getUrl(url, f, ch)]: the body, then the deferred calls, last
    registered first.  [None] when the copy loop did not end within
    [steps] iterations. *)
Definition getUrl (steps : nat) (qflag : bool) (fe : fetch_env)
    (url f : string) (g : gstate) : option gstate :=
  match getUrl_body steps qflag fe url f g with
  | None => None
  | Some (defers, g') => Some (List.fold_left run_deferred defers g')
  end.

(** Iterations that are enough for the copy loop on a body, if any number
    is: every iteration but the last two consumes a full buffer. *)
Definition enough_steps (b : body) : nat := length (b_data b) + 2.

(** The bytes handed to the writer so far that are on their way to the
    file named [f]: those in the file and those still in the buffer. *)
Definition delivered (f : string) (b : bufio.Writer) (g : gstate) : list Byte.byte :=
  default [] (g_fs g !! f) ++ bufio.buf b.

(** [g'] differs from [g] at most in the file [f], in what was printed and
    in the state of [fp]: no send, no other file touched. *)
Definition frame (f : string) (g g' : gstate) : Prop :=
  g_sent g' = g_sent g /\ forall q, q <> f -> g_fs g' !! q = g_fs g !! q.

(** Nothing was printed and [f] was not removed. *)
Definition clean (f : string) (g g' : gstate) : Prop :=
  g_stdout g' = g_stdout g /\ g_stderr g' = g_stderr g /\
  g_live g' = g_live g /\ g_open g' = g_open g /\
  (is_Some (g_fs g !! f) -> is_Some (g_fs g' !! f)).

(** The exits of [getUrl]: [os.Create] fails, [http.Get] fails, or the body
    ends, normally or with a read error.  (A body whose transport keeps
    answering [io.ErrUnexpectedEOF] is read again and again: line 77 takes
    it for a short final chunk.) *)
Definition exits (fe : fetch_env) : Prop :=
  match fe_create fe, fe_get fe with
  | Some _, _ => True
  | None, inl _ => True
  | None, inr b => b_end b <> ErrUnexpectedEOF
  end.

(** ** [main] *)

(** [os.Rename(oldpath, newpath)].  A missing source is [ErrNotExist];
    [fault] tells the other failures (a destination that is a directory, a
    permission).  A failing call changes nothing. *)
Definition os_Rename (fault : string -> string -> option error)
    (oldpath newpath : string) (files : gmap string (list Byte.byte))
  : gmap string (list Byte.byte) * option error :=
  match files !! oldpath with
  | None => (files, Some ErrNotExist)
  | Some c =>
      match fault oldpath newpath with
      | Some e => (files, Some e)
      | None => (<[newpath := c]> (delete oldpath files), None)
      end
  end.

(** Whether [os.Remove(d)] finds the directory [d] empty. *)
Definition dir_empty (d : string) (files : gmap string (list Byte.byte)) : bool :=
  bool_decide (map_Forall (fun p _ => strings.HasPrefix p (d +:+ "/") = false) files).

(** [l[i]] for an [int] index; [None] is the run-time panic. *)
Definition slice_index {A : Type} (l : list A) (i : Z) : option A :=
  if (0 <=? i)%Z then l !! Z.to_nat i else None.

(** What a run meets: the flags, the files there are when the program
    starts, the arguments (each with the outcome of the [os.CreateTemp]
    call made for it), the outcome of [os.MkdirTemp], whether the runtime
    refuses the capacity of the channel of line 176 ([make] panics when
    the buffer is too large for the platform, above about 2^45 elements
    on a 64-bit one), what each goroutine [getUrl(url, f, ch)] meets, and
    the renames that fail though their source exists. *)
Record env : Type := mkEnv {
  pflag : Z;
  qflag : bool;
  files0 : gmap string (list Byte.byte);
  calls : list (string * (error + string));
  mkdir : error + string;
  chan_refused : bool;
  fetch : string -> string -> fetch_env;
  rename_fault : string -> string -> option error;
}.

(** The files that do not lie in the directory [d].  [os.MkdirTemp] makes
    a new directory: of the files there are when the program starts, none
    lies in it. *)
Definition outside (d : string) (files : gmap string (list Byte.byte))
  : gmap string (list Byte.byte) :=
  filter (fun kv => strings.HasPrefix (fst kv) (d +:+ "/") = false) files.

#[global] Arguments outside : simpl never.

(** The closure [rename] of the deferred function, lines 139-154.  [err] is
    the variable of [main] declared at line 133: the result of [os.Rename]
    is dropped at line 145, and line 151 reads that outer variable.  [None]
    is the panic of [fentry.tmpfiles[0]] on an empty slice. *)
Definition rename (fault : string -> string -> option error)
    (err : option error) (url : string) (w : world) : option world :=
  let fentry := filemap_read (filemap w) url in
  match tmpfiles fentry with
  | [] => None
  | tmp0 :: rest =>
      let '(files, _) := os_Rename fault tmp0 (name fentry) (fs w) in
      let w := w_log_rename tmp0 (name fentry) (w_set_fs files w) in
      let w :=
        match err with
        | Some e => if negb (is_not_exist e) then w_eprintln e w else w
        | None => w
        end in
      let fentry := {| n := n fentry; name := name fentry; tmpfiles := rest |} in
      Some (w_set_filemap (<[url := fentry]> (filemap w)) w)
  end.

(** Lines 156-158. *)
Fixpoint publish_loop (fault : string -> string -> option error)
    (err : option error) (urls : list string) (w : world) : option world :=
  match urls with
  | [] => Some w
  | url :: rest =>
      match rename fault err url w with
      | None => None
      | Some w' => publish_loop fault err rest w'
      end
  end.

(** Where the main goroutine stands. *)
Inductive pc : Type :=
  | AtAlloc (rest : list (string * (error + string)))  (* line 167 *)
  | AtDispatch (rest : list string)                    (* line 178 *)
  | AtLaunch (url : string) (rest : list string)       (* line 183 *)
  | AtDrain                                            (* line 191 *)
  | AtPublish (rest : list string)                     (* line 156 *)
  | AtRemoveDir                                        (* line 160 *)
  | Exited (code : Z)
  | Panicked.

Record state : Type := mkState {
  at_pc : pc;
  w : world;
  err : option error;                  (* the variable err of line 133 *)
  tmpdir : string;
  urls : list string;
  routines : Z;
  ch : nat;                            (* values buffered in ch *)
  running : list (string * string);    (* goroutines getUrl(url, f, ch) not yet returned *)
}.

Definition set_pc (p : pc) (s : state) : state :=
  {| at_pc := p; w := w s; err := err s; tmpdir := tmpdir s; urls := urls s;
     routines := routines s; ch := ch s; running := running s |}.

Definition set_w (w' : world) (s : state) : state :=
  {| at_pc := at_pc s; w := w'; err := err s; tmpdir := tmpdir s; urls := urls s;
     routines := routines s; ch := ch s; running := running s |}.

Definition set_urls (l : list string) (s : state) : state :=
  {| at_pc := at_pc s; w := w s; err := err s; tmpdir := tmpdir s; urls := l;
     routines := routines s; ch := ch s; running := running s |}.

Definition set_routines (r : Z) (s : state) : state :=
  {| at_pc := at_pc s; w := w s; err := err s; tmpdir := tmpdir s; urls := urls s;
     routines := r; ch := ch s; running := running s |}.

Definition set_ch (c : nat) (s : state) : state :=
  {| at_pc := at_pc s; w := w s; err := err s; tmpdir := tmpdir s; urls := urls s;
     routines := routines s; ch := c; running := running s |}.

Definition set_running (l : list (string * string)) (s : state) : state :=
  {| at_pc := at_pc s; w := w s; err := err s; tmpdir := tmpdir s; urls := urls s;
     routines := routines s; ch := ch s; running := l |}.

Definition world0 : world :=
  {| filemap := ∅; fs := ∅; stdout := []; stderr := []; renamed := [] |}.

(** Lines 124-137: the state in which the allocation loop starts, or the
    exit with status 1.  The files are those there were before the run. *)
Definition init (e : env) : state :=
  let w0 := w_set_fs (files0 e) world0 in
  let s0 := {| at_pc := Exited 1; w := w0; err := None; tmpdir := "";
               urls := []; routines := 0; ch := 0; running := [] |} in
  if (pflag e <? 1)%Z then
    set_w (w_eprintln (ErrOther "can't do less than 1 parallel downloads") w0) s0
  else
    match mkdir e with
    | inl x =>
        {| at_pc := Exited 1; w := w_eprintln x w0; err := Some x; tmpdir := "";
           urls := []; routines := 0; ch := 0; running := [] |}
    | inr d =>
        {| at_pc := AtAlloc (calls e); w := w_set_fs (outside d (files0 e)) world0;
           err := None; tmpdir := d;
           urls := []; routines := 0; ch := 0; running := [] |}
    end.

(** One step of the main goroutine; [None] when it is blocked on [<-ch],
    when it has ended, or at line 176 when the runtime refuses the
    capacity: [make] panics there, and the run is followed up to that
    panic only (what the deferred function does while the panic unwinds
    is not part of a run here). *)
Definition main_step (e : env) (s : state) : option state :=
  match at_pc s with
  | AtAlloc [] =>
      (* lines 176-177 *)
      if chan_refused e then None
      else Some (set_pc (AtDispatch (urls s)) (set_routines 0 (set_ch 0 s)))
  | AtAlloc ((arg, ct) :: rest) =>
      (* lines 168-173 *)
      let '((url, er), w') := prepUrl ct arg (tmpdir s) (w s) in
      match er with
      | Some x => Some (set_pc (AtAlloc rest) (set_w (w_eprintln x w') s))
      | None => Some (set_pc (AtAlloc rest) (set_urls (urls s ++ [url]) (set_w w' s)))
      end
  | AtDispatch [] => Some (set_pc AtDrain s)
  | AtDispatch (url :: rest) =>
      (* lines 179-182 *)
      if (pflag e <=? routines s)%Z then
        match ch s with
        | O => None
        | S c =>
            Some (set_pc (AtLaunch url rest)
                    (set_routines (int_decr (routines s)) (set_ch c s)))
        end
      else Some (set_pc (AtLaunch url rest) s)
  | AtLaunch url rest =>
      (* lines 183-188 *)
      match filemap (w s) !! url with
      | None => Some (set_pc (AtDispatch rest) s)
      | Some fmentry =>
          match slice_index (tmpfiles fmentry) (n fmentry) with
          | None => Some (set_pc Panicked s)
          | Some f =>
              let fmentry' :=
                {| n := int_incr (n fmentry); name := name fmentry;
                   tmpfiles := tmpfiles fmentry |} in
              Some (set_pc (AtDispatch rest)
                      (set_routines (int_incr (routines s))
                         (set_w (w_set_filemap (<[url := fmentry']> (filemap (w s))) (w s))
                            (set_running (running s ++ [(url, f)]) s))))
          end
      end
  | AtDrain =>
      (* lines 191-194, then the deferred function *)
      if (0 <? routines s)%Z then
        match ch s with
        | O => None
        | S c => Some (set_routines (int_decr (routines s)) (set_ch c s))
        end
      else Some (set_pc (AtPublish (urls s)) s)
  | AtPublish [] => Some (set_pc AtRemoveDir s)
  | AtPublish (url :: rest) =>
      match rename (rename_fault e) (err s) url (w s) with
      | None => Some (set_pc Panicked s)
      | Some w' => Some (set_pc (AtPublish rest) (set_w w' s))
      end
  | AtRemoveDir =>
      (* lines 160-164 *)
      if dir_empty (tmpdir s) (fs (w s)) then Some (set_pc (Exited 0) s)
      else Some (set_pc (Exited 1)
                   (set_w (w_eprintln (ErrOther "directory not empty") (w s)) s))
  | Exited _ => None
  | Panicked => None
  end.

(** The state a goroutine starts from, and what it leaves to the others. *)
Definition g_start (w : world) : gstate :=
  {| g_fs := fs w; g_stdout := stdout w; g_stderr := stderr w; g_sent := 0;
     g_nwrites := 0; g_live := false; g_open := false |}.

Definition g_finish (g : gstate) (w : world) : world :=
  {| filemap := filemap w; fs := g_fs g; stdout := g_stdout g;
     stderr := g_stderr g; renamed := renamed w |}.

Definition fetch_steps (fe : fetch_env) : nat :=
  match fe_get fe with
  | inr b => enough_steps b
  | inl _ => 0
  end.

(** The [i]-th running goroutine runs [getUrl] to its end.  A goroutine
    works on its own temporary file only, so its effects are taken at once,
    when it returns.  [None] when there is no such goroutine, when its copy
    loop does not end, or when its send would block on a full channel. *)
Definition finish_step (e : env) (i : nat) (s : state) : option state :=
  match running s !! i with
  | None => None
  | Some (url, f) =>
      let fe := fetch e url f in
      match getUrl (fetch_steps fe) (qflag e) fe url f (g_start (w s)) with
      | None => None
      | Some g =>
          if (Z.of_nat (ch s + g_sent g) <=? pflag e)%Z then
            Some (set_w (g_finish g (w s))
                    (set_ch (ch s + g_sent g)
                       (set_running (delete i (running s)) s)))
          else None
      end
  end.

(** Who moves. *)
Inductive label : Type :=
  | Main
  | Finish (i : nat).

Definition step (e : env) (l : label) (s : state) : option state :=
  match l with
  | Main => main_step e s
  | Finish i => finish_step e i s
  end.

(** Running a schedule. *)
Fixpoint exec (e : env) (sched : list label) (s : state) : option state :=
  match sched with
  | [] => Some s
  | l :: sched' =>
      match step e l s with
      | None => None
      | Some s' => exec e sched' s'
      end
  end.

Inductive reachable (e : env) : state -> Prop :=
  | reachable_init : reachable e (init e)
  | reachable_step l s s' :
      reachable e s -> step e l s = Some s' -> reachable e s'.

(** ** Invariants of a run *)

(** What a run can be given: [pflag] is an [int], and so is the number of
    arguments. *)
Definition env_wf (e : env) : Prop :=
  (pflag e <= int_max)%Z /\ (Z.of_nat (length (calls e)) <= int_max)%Z.

(** How often [u] occurs in [l]. *)
Definition count (u : string) (l : list string) : nat :=
  count_occ string_dec l u.

#[global] Arguments count : simpl never.
#[global] Arguments filemap_read : simpl never.

(** The in-flight count and the goroutines: [routines] counts the
    goroutines still running and the values waiting in [ch], and never
    exceeds [pflag]. *)
Definition conc_inv (e : env) (s : state) : Prop :=
  (Z.of_nat (length (running s)) + Z.of_nat (ch s) = routines s)%Z /\
  (routines s <= pflag e)%Z /\
  match at_pc s with
  | AtLaunch _ _ => (routines s < pflag e)%Z
  | AtAlloc _ | AtPublish _ | AtRemoveDir | Exited _ => routines s = 0%Z
  | AtDispatch _ | AtDrain | Panicked => True
  end.

(** The registry against the dispatch list: per URL, the paths queued and
    the count [n]. *)
Definition reg_at (m : gmap string filename) (queued : string -> nat)
    (launched : string -> nat) : Prop :=
  forall u, length (tmpfiles (filemap_read m u)) = queued u /\
            n (filemap_read m u) = Z.of_nat (launched u).

Definition reg_inv (e : env) (s : state) : Prop :=
  (length (urls s) <= length (calls e))%nat /\
  match at_pc s with
  | AtAlloc rest =>
      (length (urls s) + length rest <= length (calls e))%nat /\
      reg_at (filemap (w s)) (fun u => count u (urls s)) (fun _ => 0%nat)
  | AtDispatch rest =>
      exists done, urls s = done ++ rest /\
        reg_at (filemap (w s)) (fun u => count u (urls s)) (fun u => count u done)
  | AtLaunch url rest =>
      exists done, urls s = done ++ url :: rest /\
        reg_at (filemap (w s)) (fun u => count u (urls s)) (fun u => count u done)
  | AtDrain =>
      reg_at (filemap (w s)) (fun u => count u (urls s)) (fun u => count u (urls s))
  | AtPublish rest =>
      reg_at (filemap (w s)) (fun u => count u rest) (fun u => count u (urls s))
  | AtRemoveDir | Exited _ =>
      reg_at (filemap (w s)) (fun _ => 0%nat) (fun u => count u (urls s))
  | Panicked => False
  end.

(** The main goroutine has not reached the deferred function. *)
Definition before_publisher (p : pc) : bool :=
  match p with
  | AtAlloc _ | AtDispatch _ | AtLaunch _ _ | AtDrain => true
  | _ => false
  end.

(** The dispatcher loop and its drain are over. *)
Definition dispatcher_returned (p : pc) : bool :=
  match p with
  | AtPublish _ | AtRemoveDir | Exited _ => true
  | _ => false
  end.

(** What the allocation loop allocates for one argument: the URL put on
    the dispatch list, the temporary file, the end-file name. *)
Record alloc : Type := mkAlloc {
  a_url : string;
  a_tmp : string;
  a_name : string;
}.

(** The allocations of a run, in the order of the arguments: one for each
    argument whose [os.CreateTemp] succeeds. *)
Fixpoint alloc_list (d : string) (cs : list (string * (error + string))) : list alloc :=
  match cs with
  | [] => []
  | (_, inl _) :: rest => alloc_list d rest
  | (arg, inr rnd) :: rest =>
      {| a_url := normalize arg;
         a_tmp := temp_path d (derive_fname (normalize arg)) rnd;
         a_name := derive_fname (normalize arg) |} :: alloc_list d rest
  end.

(** A download that meets no failure and receives [data]: [os.Create] and
    [http.Get] succeed, the body ends normally, no write fails. *)
Definition fetch_succeeds (fe : fetch_env) (data : list Byte.byte) : Prop :=
  fe_create fe = None /\
  fe_get fe = inr {| b_data := data; b_end := EOF |} /\
  forall k, fe_write fe k = None.

(** The file system after a sequence of [os.Rename] calls. *)
Definition apply_renames (fault : string -> string -> option error)
    (log : list (string * string)) (files : gmap string (list Byte.byte))
  : gmap string (list Byte.byte) :=
  List.fold_left (fun fl c => fst (os_Rename fault (fst c) (snd c) fl)) log files.

(** The registry against the allocations [A] of which [A_done] have been
    dispatched. *)
Definition regs_ok (A A_done : list alloc) (m : gmap string filename) : Prop :=
  forall u,
    tmpfiles (filemap_read m u) = List.map a_tmp (filter (fun a => a_url a = u) A) /\
    n (filemap_read m u) = Z.of_nat (length (filter (fun a => a_url a = u) A_done)) /\
    (forall a, a ∈ A -> a_url a = u -> name (filemap_read m u) = a_name a).

(** The files of the working directory are temporary files. *)
Definition files_ok (A : list alloc) (s : state) : Prop :=
  forall p,
    is_Some (fs (w s) !! p) ->
    strings.HasPrefix p (tmpdir s +:+ "/") = true -> p ∈ List.map a_tmp A.

(** The goroutines running are among those dispatched, and a dispatched
    download that has ended and met no failure has left its body in its
    temporary file. *)
Definition fetched_ok (e : env) (A_done : list alloc) (s : state) : Prop :=
  (forall c, c ∈ running s -> exists a, a ∈ A_done /\ c = (a_url a, a_tmp a)) /\
  (forall a data,
      a ∈ A_done -> (a_url a, a_tmp a) ∉ running s ->
      fetch_succeeds (fetch e (a_url a) (a_tmp a)) data ->
      fs (w s) !! a_tmp a = Some data).

#[global] Arguments regs_ok : simpl never.
#[global] Arguments files_ok : simpl never.
#[global] Arguments fetched_ok : simpl never.

Definition run_inv (e : env) (s : state) : Prop :=
  match at_pc s with
  | AtAlloc rest =>
      exists processed, calls e = processed ++ rest /\
        urls s = List.map a_url (alloc_list (tmpdir s) processed) /\
        regs_ok (alloc_list (tmpdir s) processed) [] (filemap (w s)) /\
        files_ok (alloc_list (tmpdir s) processed) s /\
        running s = []
  | AtDispatch rest =>
      exists A_done A_rest,
        alloc_list (tmpdir s) (calls e) = A_done ++ A_rest /\
        urls s = List.map a_url (A_done ++ A_rest) /\
        rest = List.map a_url A_rest /\
        regs_ok (A_done ++ A_rest) A_done (filemap (w s)) /\
        files_ok (A_done ++ A_rest) s /\
        fetched_ok e A_done s
  | AtLaunch url rest =>
      exists A_done a A_rest,
        alloc_list (tmpdir s) (calls e) = A_done ++ a :: A_rest /\
        urls s = List.map a_url (A_done ++ a :: A_rest) /\
        url = a_url a /\
        rest = List.map a_url A_rest /\
        regs_ok (A_done ++ a :: A_rest) A_done (filemap (w s)) /\
        files_ok (A_done ++ a :: A_rest) s /\
        fetched_ok e A_done s
  | AtDrain =>
      urls s = List.map a_url (alloc_list (tmpdir s) (calls e)) /\
      regs_ok (alloc_list (tmpdir s) (calls e)) (alloc_list (tmpdir s) (calls e))
        (filemap (w s)) /\
      files_ok (alloc_list (tmpdir s) (calls e)) s /\
      fetched_ok e (alloc_list (tmpdir s) (calls e)) s
  | AtPublish rest =>
      (length rest <= length (urls s))%nat /\
      (length rest = length (urls s) ->
       urls s = List.map a_url (alloc_list (tmpdir s) (calls e)) /\
       regs_ok (alloc_list (tmpdir s) (calls e)) (alloc_list (tmpdir s) (calls e))
         (filemap (w s)) /\
       files_ok (alloc_list (tmpdir s) (calls e)) s /\
       fetched_ok e (alloc_list (tmpdir s) (calls e)) s /\
       running s = [])
  | AtRemoveDir | Exited _ | Panicked => True
  end.

(** The [os.Rename] calls of [log] made for the occurrences of [u] in the
    list [l] the publisher walks: the [i]-th call belongs to the [i]-th
    URL. *)
Definition renames_for (u : string) (l : list string) (log : list (string * string))
  : list (string * string) :=
  omap (fun p => if decide (fst p = u) then Some (snd p) else None) (zip l log).

(** The state a schedule leads to (the initial state when the schedule
    cannot be run). *)
Definition after (e : env) (sched : list label) : state :=
  default (init e) (exec e sched (init e)).

(** ** Sample runs *)

(** A download that meets no failure and receives [data]. *)
Definition fetch_ok (data : list Byte.byte) : fetch_env :=
  {| fe_create := None;
     fe_get := inr {| b_data := data; b_end := EOF |};
     fe_write := fun _ => None |}.

(** The failures a download can meet: [os.Create] fails; [http.Get] fails;
    the body breaks off with a read error after 3 bytes; the first write to
    the file fails (on a body of 5000 bytes, which does not fit the
    buffer). *)
Definition fetch_open_fails : fetch_env :=
  {| fe_create := Some (ErrOther "permission denied");
     fe_get := inr {| b_data := []; b_end := EOF |};
     fe_write := fun _ => None |}.

Definition fetch_get_fails : fetch_env :=
  {| fe_create := None;
     fe_get := inl (ErrOther "no such host");
     fe_write := fun _ => None |}.

Definition fetch_read_fails : fetch_env :=
  {| fe_create := None;
     fe_get := inr {| b_data := [Byte.x01; Byte.x02; Byte.x03];
                      b_end := ErrOther "connection reset" |};
     fe_write := fun _ => None |}.

Definition fetch_write_fails : fetch_env :=
  {| fe_create := None;
     fe_get := inr {| b_data := List.repeat Byte.x2a 5000; b_end := EOF |};
     fe_write := fun k => if (k =? 0)%nat then Some (ErrOther "no space left") else None |}.

(** What is looked at when a goroutine has returned: the values sent, the
    lines on the standard error, and the temporary file. *)
Definition outcome (f : string) (o : option gstate)
  : option (nat * list error * option (list Byte.byte)) :=
  match o with
  | Some g => Some (g_sent g, g_stderr g, g_fs g !! f)
  | None => None
  end.

(** [goget example.com/a.txt]: one URL, one download at a time. *)
Definition run_once : env :=
  {| pflag := 1; qflag := false;
     files0 := ∅;
     calls := [("example.com/a.txt", inr "111")];
     mkdir := inr "./.goget1";
     chan_refused := false;
     fetch := fun _ _ => fetch_ok [Byte.x01];
     rename_fault := fun _ _ => None |}.

(** The scenario of the design document: one URL, concurrency 1, a
    successful transfer of 10000 bytes. *)
Definition run_10000 : env :=
  {| pflag := 1; qflag := false;
     files0 := ∅;
     calls := [("example.com/a.txt", inr "111")];
     mkdir := inr "./.goget1";
     chan_refused := false;
     fetch := fun _ _ => fetch_ok (List.repeat Byte.x2a (100 * 100));
     rename_fault := fun _ _ => None |}.

(** [goget example.com/a.txt example.com/a.txt]: the same URL twice; the
    server answers the first request with one byte and the second with
    another. *)
Definition run_twice : env :=
  {| pflag := 1; qflag := false;
     files0 := ∅;
     calls := [("example.com/a.txt", inr "111"); ("example.com/a.txt", inr "222")];
     mkdir := inr "./.goget1";
     chan_refused := false;
     fetch := fun _ f =>
       if String.eqb f "./.goget1/a.txt111" then fetch_ok [Byte.x01]
       else fetch_ok [Byte.x02];
     rename_fault := fun _ _ => None |}.

(** As [run_once], but the rename onto [a.txt] is refused. *)
Definition run_refused : env :=
  {| pflag := 1; qflag := false;
     files0 := ∅;
     calls := [("example.com/a.txt", inr "111")];
     mkdir := inr "./.goget1";
     chan_refused := false;
     fetch := fun _ _ => fetch_ok [Byte.x01];
     rename_fault := fun _ _ => Some (ErrOther "permission denied") |}.

(** Schedules: allocate, dispatch, let the goroutines end, publish. *)
Definition sched_once_published : list label :=
  [Main; Main; Main; Main; Main; Finish 0; Main; Main; Main; Main].

Definition sched_twice_launched : list label :=
  [Main; Main; Main; Main; Main].

Definition sched_twice_drained : list label :=
  [Main; Main; Main; Main; Main; Finish 0; Main; Main; Main; Finish 0; Main; Main].

Definition sched_twice_exited : list label :=
  sched_twice_drained ++ [Main; Main; Main; Main].

(** ** Further notions for the properties of Part II *)

(** [g'] differs from [g] in the open file only: nothing was printed and
    [f] was not removed; and once [f] has been removed, no file at all
    differs. *)
Definition quiet (g g' : gstate) : Prop :=
  g_stdout g' = g_stdout g /\ g_stderr g' = g_stderr g /\
  g_live g' = g_live g /\ g_sent g' = g_sent g /\
  (g_live g = false -> g_fs g' = g_fs g).

(** A download that fails before a byte is read: [os.Create] fails, or
    [http.Get] does. *)
Definition fetch_fails (fe : fetch_env) : Prop :=
  (exists x, fe_create fe = Some x) \/
  (fe_create fe = None /\ exists x, fe_get fe = inl x).


Definition fetch_cut_short : fetch_env :=
  {| fe_create := None;
     fe_get := inr {| b_data := [Byte.x01; Byte.x02; Byte.x03];
                      b_end := ErrUnexpectedEOF |};
     fe_write := fun _ => None |}.

(** The allocation loop is over and the publisher has not started. *)
Definition dispatching (p : pc) : bool :=
  match p with
  | AtDispatch _ | AtLaunch _ _ | AtDrain => true
  | _ => false
  end.

(** The number of items of the dispatch list for which a goroutine has been
    launched (the publisher does not count once it has renamed). *)
Definition dispatched (s : state) : nat :=
  match at_pc s with
  | AtDispatch rest => length (urls s) - length rest
  | AtLaunch _ rest => length (urls s) - length rest - 1
  | AtDrain => length (urls s)
  | AtPublish rest =>
      if (length rest =? length (urls s))%nat then length (urls s) else 0
  | _ => 0
  end.

(** A bound on the steps a run still can make: each step of the main
    goroutine and each goroutine that ends makes it smaller.  [k] is the
    number of arguments. *)
Definition pc_weight (k : nat) (p : pc) : nat :=
  match p with
  | AtAlloc rest => length rest + 5 * k + 5
  | AtLaunch _ rest => 4 * length rest + k + 7
  | AtDispatch rest => 4 * length rest + k + 4
  | AtDrain => k + 3
  | AtPublish rest => length rest + 2
  | AtRemoveDir => 1
  | Exited _ | Panicked => 0
  end.

Definition work_left (e : env) (s : state) : nat :=
  pc_weight (length (calls e)) (at_pc s) + 2 * length (running s) + ch s.

(** [goget -p 0 example.com/a.txt] *)
Definition run_p0 : env :=
  {| pflag := 0; qflag := false;
     files0 := ∅;
     calls := [("example.com/a.txt", inr "111")];
     mkdir := inr "./.goget1";
     chan_refused := false;
     fetch := fun _ _ => fetch_ok [Byte.x01];
     rename_fault := fun _ _ => None |}.

(** [goget example.com/a.txt] when the server cannot be reached. *)
Definition run_unreachable : env :=
  {| pflag := 1; qflag := false;
     files0 := ∅;
     calls := [("example.com/a.txt", inr "111")];
     mkdir := inr "./.goget1";
     chan_refused := false;
     fetch := fun _ _ => fetch_get_fails;
     rename_fault := fun _ _ => None |}.

(** A goroutine state with a file of someone else in it. *)
Definition g_sample : gstate :=
  g_start (w_set_fs {[ "other" := [Byte.x07] ]} world0).

(** A dispatched download that failed before a byte was read and has ended
    has left no temporary file. *)
Definition removed_ok (e : env) (A_done : list alloc) (s : state) : Prop :=
  forall a,
    a ∈ A_done -> (a_url a, a_tmp a) ∉ running s ->
    fetch_fails (fetch e (a_url a) (a_tmp a)) ->
    fs (w s) !! a_tmp a = None.

(** The state of [run_unreachable] when the publisher starts. *)
Definition sched_once_drained : list label :=
  [Main; Main; Main; Main; Main; Finish 0; Main; Main].

(** [goget example.com/a.txt] in a directory that holds a file [a.txt],
    when the server cannot be reached. *)
Definition run_old_file : env :=
  {| pflag := 1; qflag := false;
     files0 := {[ "a.txt" := [Byte.x07] ]};
     calls := [("example.com/a.txt", inr "111")];
     mkdir := inr "./.goget1";
     chan_refused := false;
     fetch := fun _ _ => fetch_get_fails;
     rename_fault := fun _ _ => None |}.

(** [goget example.com/a.txt example.com/a.txt] when the first request is
    answered with one byte and the second cannot reach the server. *)
Definition run_second_fails : env :=
  {| pflag := 1; qflag := false;
     files0 := ∅;
     calls := [("example.com/a.txt", inr "111"); ("example.com/a.txt", inr "222")];
     mkdir := inr "./.goget1";
     chan_refused := false;
     fetch := fun _ f =>
       if String.eqb f "./.goget1/a.txt111" then fetch_ok [Byte.x01]
       else fetch_get_fails;
     rename_fault := fun _ _ => None |}.

(** [goget example.com/a.txt] when the connection is lost after 3 bytes of
    a longer body: every read of the body from then on answers
    [io.ErrUnexpectedEOF]. *)
Definition run_cut_short : env :=
  {| pflag := 1; qflag := false;
     files0 := ∅;
     calls := [("example.com/a.txt", inr "111")];
     mkdir := inr "./.goget1";
     chan_refused := false;
     fetch := fun _ _ => fetch_cut_short;
     rename_fault := fun _ _ => None |}.

(** The state of [run_cut_short] when the goroutine has been launched and
    the dispatcher waits for it. *)
Definition sched_once_launched : list label :=
  [Main; Main; Main; Main; Main].

(* ===================================================================== *)
(** * Part II. Properties                                                 *)
(* ===================================================================== *)

Example derive_fname_root : derive_fname "http://example.com/" = "index.html".
Proof. reflexivity. Qed.

Example derive_fname_file : derive_fname "http://example.com/a/b.txt" = "b.txt".
Proof. reflexivity. Qed.

Example derive_fname_nopath : derive_fname "https://example.com" = "index.html".
Proof. reflexivity. Qed.

(** ** The [strings] package *)

Section GoStrings.

Lemma app_String (x : ascii) (a b : string) :
  String x a +:+ b = String x (a +:+ b).
Proof. reflexivity. Qed.

Lemma app_empty (b : string) : "" +:+ b = b.
Proof. reflexivity. Qed.

Lemma append_assoc (a b c : string) : (a +:+ b) +:+ c = a +:+ (b +:+ c).
Proof.
  induction a as [|x a IH]; [reflexivity|].
  rewrite !app_String. now f_equal.
Qed.

Lemma no_slash_app (a b : string) :
  no_slash (a +:+ b) = no_slash a && no_slash b.
Proof.
  induction a as [|x a IH]; [reflexivity|].
  rewrite app_String. cbn [no_slash]. rewrite IH. now rewrite andb_assoc.
Qed.

Lemma no_slash_sep_false (a b : string) : no_slash (a +:+ "/" +:+ b) = false.
Proof.
  rewrite no_slash_app, app_String, app_empty. cbn. now rewrite andb_false_r.
Qed.

Lemma prefix_cons (a b : ascii) (s1 s2 : string) :
  String.prefix (String a s1) (String b s2) =
  if ascii_dec a b then String.prefix s1 s2 else false.
Proof. reflexivity. Qed.

Lemma prefix_true_app (p s0 : string) :
  String.prefix p s0 = true -> exists r, s0 = p +:+ r.
Proof.
  revert s0. induction p as [|c p IH]; intros s0.
  - intros _. now exists s0.
  - destruct s0 as [|c0 s0]; [intros H; cbv in H; discriminate H|].
    rewrite prefix_cons. destruct (ascii_dec c c0) as [<-|]; [|intros H; discriminate H].
    intros H. destruct (IH _ H) as [r ->]. now exists r.
Qed.

Lemma prefix_slash (s : string) :
  String.prefix "/" s = true -> exists s', s = String "/" s'.
Proof.
  destruct s as [|c s']; [intros H; cbv in H; discriminate H|].
  rewrite prefix_cons.
  destruct (ascii_dec "/" c) as [<-|]; [eauto | intros H; discriminate H].
Qed.

Lemma prefix_slash_false (c : ascii) (s : string) :
  String.prefix "/" (String c s) = false -> Ascii.eqb c "/" = false.
Proof.
  rewrite prefix_cons.
  destruct (ascii_dec "/" c) as [<-|Hne]; [intros H; now destruct s|].
  intros _. apply Ascii.eqb_neq. congruence.
Qed.

(** [Index s "/"] finds the first slash. *)
Lemma Index_slash_None (s : string) :
  strings.Index s "/" = None -> no_slash s = true.
Proof.
  induction s as [|c s IH]; [reflexivity|].
  cbn [strings.Index].
  destruct (String.prefix "/" (String c s)) eqn:Hp; [discriminate|].
  destruct (strings.Index s "/") eqn:Hi; [discriminate|].
  intros _. cbn [no_slash]. rewrite (prefix_slash_false _ _ Hp). simpl. auto.
Qed.

Lemma Index_slash_Some (s : string) (i : nat) :
  strings.Index s "/" = Some i ->
  s = strings.take i s +:+ "/" +:+ strings.drop (i + 1) s /\
  no_slash (strings.take i s) = true /\
  String.length (strings.drop (i + 1) s) < String.length s.
Proof.
  revert i. induction s as [|c s IH]; intros i.
  - cbn. discriminate.
  - cbn [strings.Index].
    destruct (String.prefix "/" (String c s)) eqn:Hp.
    + intros [= <-]. apply prefix_slash in Hp as [s' [= -> ->]].
      cbn. repeat split; lia.
    + destruct (strings.Index s "/") as [j|] eqn:Hi; [|discriminate].
      intros [= <-]. destruct (IH j eq_refl) as (Hs & Hn & Hl).
      cbn [strings.take strings.drop Nat.add String.append no_slash String.length].
      rewrite (prefix_slash_false _ _ Hp), Hn, app_String.
      split; [now rewrite <- Hs | split; [reflexivity | lia]].
Qed.

(** Two ways to cut a string at a slash, the first one at its first
    slash. *)
Lemma sep_decompose (a x b y : string) :
  no_slash a = true ->
  a +:+ "/" +:+ x = b +:+ "/" +:+ y ->
  (a = b /\ x = y) \/ (exists b', b = a +:+ "/" +:+ b' /\ x = b' +:+ "/" +:+ y).
Proof.
  revert b. induction a as [|c a IH]; intros b Ha Heq.
  - destruct b as [|d b]; rewrite ?app_String, ?app_empty in Heq.
    + injection Heq as ->. now left.
    + injection Heq as <- ->. right. now exists b.
  - cbn in Ha. apply andb_true_iff in Ha as [Hc Ha].
    destruct b as [|d b]; rewrite ?app_String, ?app_empty in Heq.
    + injection Heq as -> _. discriminate.
    + injection Heq as <- Heq.
      destruct (IH b Ha Heq) as [[-> ->]|(b' & -> & ->)]; [now left|].
      right. now exists b'.
Qed.

Lemma genSplit_nonempty (bound : nat) (s sep : string) :
  strings.genSplit bound s sep <> [].
Proof.
  destruct bound; cbn; [discriminate|].
  destruct (strings.Index s sep); discriminate.
Qed.

Lemma last_cons_nonempty {A : Type} (x d : A) (l : list A) :
  l <> [] -> List.last (x :: l) d = List.last l d.
Proof. destruct l; [congruence | reflexivity]. Qed.

(** The last element of [Split p "/"] is a final segment of [p]. *)
Lemma genSplit_last_segment (bound : nat) (p : string) :
  String.length p <= bound ->
  final_segment_of p (List.last (strings.genSplit bound p "/") "").
Proof.
  revert p. induction bound as [|k IH]; intros p Hlen.
  - destruct p; [|cbn in Hlen; lia]. split; [reflexivity | now left].
  - cbn [strings.genSplit].
    destruct (strings.Index p "/") as [m|] eqn:Hi.
    + apply Index_slash_Some in Hi as (Hp & Hn & Hl).
      rewrite last_cons_nonempty by apply genSplit_nonempty.
      change (String.length "/") with 1.
      destruct (IH (strings.drop (m + 1) p)) as [Hseg Hor]; [lia|].
      set (seg := List.last _ _) in *. clearbody seg.
      split; [exact Hseg|]. right.
      destruct Hor as [Heq|[pre Heq]].
      * exists (strings.take m p). now rewrite <- Heq.
      * exists (strings.take m p +:+ "/" +:+ pre).
        rewrite !append_assoc, <- Heq. exact Hp.
    + apply Index_slash_None in Hi. split; [exact Hi | now left].
Qed.

(** And it is the only one. *)
Lemma genSplit_last_unique (bound : nat) (p seg : string) :
  String.length p <= bound ->
  final_segment_of p seg ->
  List.last (strings.genSplit bound p "/") "" = seg.
Proof.
  revert p. induction bound as [|k IH]; intros p Hlen [Hseg Hor].
  - destruct p; [|cbn in Hlen; lia]. cbn.
    destruct Hor as [<-|[pre Heq]]; [reflexivity|].
    destruct pre; discriminate.
  - cbn [strings.genSplit].
    destruct (strings.Index p "/") as [m|] eqn:Hi.
    + apply Index_slash_Some in Hi as (Hp & Hn & Hl).
      rewrite last_cons_nonempty by apply genSplit_nonempty.
      change (String.length "/") with 1.
      apply IH; [lia|]. split; [exact Hseg|].
      set (tk := strings.take m p) in *. set (dr := strings.drop (m + 1) p) in *.
      clearbody tk dr. subst p.
      destruct Hor as [<-|[pre Heq]].
      * rewrite no_slash_sep_false in Hseg. discriminate.
      * apply sep_decompose in Heq as [[_ ->]|(b' & _ & ->)];
          [now left | right; now exists b' | exact Hn].
    + apply Index_slash_None in Hi. cbn.
      destruct Hor as [<-|[pre ->]]; [reflexivity|].
      rewrite no_slash_sep_false in Hi. discriminate.
Qed.

(** [Cut rest "/"] leaves the path after the host. *)
Lemma Cut_slash_path (rest : string) :
  path_after_host rest (snd (fst (strings.Cut rest "/"))).
Proof.
  unfold strings.Cut.
  destruct (strings.Index rest "/") as [m|] eqn:Hi; cbn.
  - apply Index_slash_Some in Hi as (Hp & Hn & _). right.
    exists (strings.take m rest). split; [exact Hn | exact Hp].
  - apply Index_slash_None in Hi. now left.
Qed.

Lemma Cut_slash_path_unique (rest path : string) :
  path_after_host rest path ->
  snd (fst (strings.Cut rest "/")) = path.
Proof.
  unfold strings.Cut. intros Hpath.
  destruct (strings.Index rest "/") as [m|] eqn:Hi; cbn.
  - apply Index_slash_Some in Hi as (Hp & Hn & _).
    change (String.length "/") with 1.
    set (tk := strings.take m rest) in *.
    set (dr := strings.drop (m + 1) rest) in *.
    clearbody tk dr. subst rest.
    destruct Hpath as [[Hns _]|(host & Hh & Heq)].
    + rewrite no_slash_sep_false in Hns. discriminate.
    + apply sep_decompose in Heq as [[_ H]|(b' & -> & _)]; [exact H | | exact Hn].
      rewrite no_slash_sep_false in Hh. discriminate.
  - apply Index_slash_None in Hi.
    destruct Hpath as [[_ ->]|(host & _ & ->)]; [reflexivity|].
    rewrite no_slash_sep_false in Hi. discriminate.
Qed.

Lemma Cut_scheme_http (rest : string) :
  strings.Cut ("http://" +:+ rest) "://" = ("http", rest, true).
Proof. destruct rest; reflexivity. Qed.

Lemma Cut_scheme_https (rest : string) :
  strings.Cut ("https://" +:+ rest) "://" = ("https", rest, true).
Proof. destruct rest; reflexivity. Qed.

End GoStrings.

(** ** The name allocator *)

Section NameAllocator.

(** C9.  For a URL with its scheme, [http://] or [https://], in front of
    [rest]: the part of [rest] after the host and a final '/'-delimited
    segment of that part exist, and the end-file name [derive_fname]
    computes is that segment, or [index.html] when the segment is
    empty. *)
Theorem derive_fname_is_final_segment (url rest : string) :
  url = "http://" +:+ rest \/ url = "https://" +:+ rest ->
  (exists path seg, path_after_host rest path /\ final_segment_of path seg) /\
  (forall path seg,
      path_after_host rest path -> final_segment_of path seg ->
      derive_fname url = if String.eqb seg "" then "index.html" else seg).
Proof.
  intros Hurl.
  assert (Hcut : strings.Cut url "://" = (fst (fst (strings.Cut url "://")), rest, true)).
  { destruct Hurl as [-> | ->];
      [rewrite Cut_scheme_http | rewrite Cut_scheme_https]; reflexivity. }
  split.
  - exists (snd (fst (strings.Cut rest "/"))).
    eexists. split; [apply Cut_slash_path|].
    apply (genSplit_last_segment _ _ (le_n _)).
  - intros path seg Hpath Hseg.
    unfold derive_fname. rewrite Hcut.
    pose proof (Cut_slash_path_unique _ _ Hpath) as Hp.
    destruct (strings.Cut rest "/") as [[before after] found]. cbn in Hp. subst after.
    unfold strings.Split.
    now rewrite (genSplit_last_unique _ _ _ (le_n _) Hseg).
Qed.

Lemma derive_fname_is_final_segment_witness :
  derive_fname "http://example.com/a/b.txt" = "b.txt".
Proof.
  apply (proj2 (derive_fname_is_final_segment
                  "http://example.com/a/b.txt" "example.com/a/b.txt"
                  (or_introl eq_refl)) "a/b.txt" "b.txt").
  - right. exists "example.com". split; reflexivity.
  - split; [reflexivity|]. right. exists "a". reflexivity.
Defined.

(** Every URL [prepUrl] works on has its scheme in front, and the name it
    stores on success is the one [derive_fname] computes. *)
Lemma normalize_scheme (url : string) :
  exists rest,
    normalize url = "http://" +:+ rest \/ normalize url = "https://" +:+ rest.
Proof.
  unfold normalize, strings.HasPrefix.
  destruct (String.prefix "http://" url) eqn:H1; cbn [orb].
  - apply prefix_true_app in H1 as [r ->]. exists r. now left.
  - destruct (String.prefix "https://" url) eqn:H2.
    + apply prefix_true_app in H2 as [r ->]. exists r. now right.
    + exists url. now left.
Qed.

Lemma prepUrl_success (rnd arg d : string) (w0 : world) :
  let r := prepUrl (inr rnd) arg d w0 in
  fst r = (normalize arg, None) /\
  name (filemap_read (filemap (snd r)) (normalize arg)) = derive_fname (normalize arg) /\
  tmpfiles (filemap_read (filemap (snd r)) (normalize arg)) =
    tmpfiles (filemap_read (filemap w0) (normalize arg))
      ++ [temp_path d (derive_fname (normalize arg)) rnd] /\
  fs (snd r) !! temp_path d (derive_fname (normalize arg)) rnd = Some [].
Proof.
  cbn zeta. unfold prepUrl. cbn [fst snd filemap fs w_set_filemap w_set_fs].
  assert (H : forall (m : gmap string filename) x,
             filemap_read (<[normalize arg := x]> m) (normalize arg) = x).
  { intros m x. unfold filemap_read. now rewrite lookup_insert_eq. }
  rewrite !H. cbn [name tmpfiles]. rewrite lookup_insert_eq. auto.
Qed.

(** C8.  When [os.CreateTemp] fails, [prepUrl] returns the error and an
    empty URL; every read of the registry gives what it gave before (so no
    temporary path is appended and no end-file name is set: the deferred
    store only binds the URL to the value a read already returned); no file
    is created; and the step of [main] prints the error and goes on to the
    next argument with the dispatch list unchanged. *)
Theorem prepUrl_failure_keeps_registry
    (x : error) (arg d : string) (w0 : world) (e : env) (s : state)
    (rest : list (string * (error + string))) :
  let r := prepUrl (inl x) arg d w0 in
  fst r = ("", Some x) /\
  (forall u, filemap_read (filemap (snd r)) u = filemap_read (filemap w0) u) /\
  tmpfiles (filemap_read (filemap (snd r)) (normalize arg))
    = tmpfiles (filemap_read (filemap w0) (normalize arg)) /\
  name (filemap_read (filemap (snd r)) (normalize arg))
    = name (filemap_read (filemap w0) (normalize arg)) /\
  fs (snd r) = fs w0 /\
  exists s',
    main_step e (set_pc (AtAlloc ((arg, inl x) :: rest)) s) = Some s' /\
    at_pc s' = AtAlloc rest /\
    urls s' = urls s /\
    stderr (w s') = stderr (w s) ++ [x] /\
    (forall u, filemap_read (filemap (w s')) u = filemap_read (filemap (w s)) u).
Proof.
  assert (Hread : forall w1 u,
    filemap_read (filemap (snd (prepUrl (inl x) arg d w1))) u
      = filemap_read (filemap w1) u).
  { intros w1 u. unfold prepUrl, filemap_read. cbn.
    destruct (decide (normalize arg = u)) as [->|Hne].
    - now rewrite lookup_insert_eq.
    - now rewrite lookup_insert_ne. }
  cbn zeta. split; [reflexivity|]. split; [apply Hread|].
  split; [now rewrite Hread|]. split; [now rewrite Hread|].
  split; [reflexivity|].
  eexists. split; [reflexivity|]. cbn.
  repeat split. intros u. apply (Hread (w s) u).
Qed.

End NameAllocator.

(** ** The fetcher *)

Section Fetcher.

Variable fe : fetch_env.
Variable f : string.

(** *** What the steps of [getUrl] leave alone *)

Lemma frame_refl g : frame f g g.
Proof. split; auto. Qed.

Lemma frame_trans g1 g2 g3 : frame f g1 g2 -> frame f g2 g3 -> frame f g1 g3.
Proof.
  intros [H1 H2] [H3 H4]. split; [congruence|].
  intros q Hq. rewrite H4, H2; auto.
Qed.

Lemma frame_eprintln e g : frame f g (g_eprintln e g).
Proof. split; auto. Qed.

Lemma frame_println l g : frame f g (g_println l g).
Proof. split; auto. Qed.

Lemma frame_close g : frame f g (g_close g).
Proof. split; auto. Qed.

Lemma frame_rm g : frame f g (rm f g).
Proof. split; [reflexivity|]. intros q Hq. cbn. now rewrite lookup_delete_ne. Qed.

Lemma frame_create g : frame f g (g_create f g).
Proof. split; [reflexivity|]. intros q Hq. cbn. now rewrite lookup_insert_ne. Qed.

Lemma fp_Write_frame p g : frame f g (snd (fp_Write fe f p g)).
Proof.
  unfold fp_Write. destruct (fe_write fe (g_nwrites g)); [split; auto|].
  split; [reflexivity|]. intros q Hq. cbn.
  destruct (g_live g); [now rewrite lookup_insert_ne | reflexivity].
Qed.

Lemma Flush_frame b g : frame f g (snd (bufio.Flush fe f b g)).
Proof.
  unfold bufio.Flush. destruct (bufio.err b); [apply frame_refl|].
  destruct (bufio.Buffered b =? 0)%nat; [apply frame_refl|].
  pose proof (fp_Write_frame (bufio.buf b) g) as H.
  destruct (fp_Write fe f (bufio.buf b) g) as [[nw werr] g'].
  destruct (_ && _); [exact H|]. destruct werr; exact H.
Qed.

Lemma Write_loop_frame rounds b p g :
  frame f g (snd (bufio.Write_loop rounds fe f b p g)).
Proof.
  revert b p g. induction rounds as [|k IH]; intros b p g; [apply frame_refl|].
  cbn [bufio.Write_loop]. destruct (_ && _); [|apply frame_refl].
  destruct (bufio.Buffered b =? 0)%nat.
  - pose proof (fp_Write_frame p g) as H.
    destruct (fp_Write fe f p g) as [[nw werr] g'].
    eapply frame_trans; [exact H | apply IH].
  - match goal with |- context [bufio.Flush fe f ?b1 g] =>
      pose proof (Flush_frame b1 g) as H;
      destruct (bufio.Flush fe f b1 g) as [[r b2] g'] end.
    eapply frame_trans; [exact H | apply IH].
Qed.

Lemma Write_frame b p g : frame f g (snd (bufio.Write fe f b p g)).
Proof.
  unfold bufio.Write. pose proof (Write_loop_frame 2 b p g) as H.
  destruct (bufio.Write_loop 2 fe f b p g) as [[b' p'] g'].
  destruct (bufio.err b'); exact H.
Qed.

Lemma copy_loop_frame steps outer reader writer g writer' g' :
  copy_loop steps fe f outer reader writer g = Some (writer', g') ->
  frame f g g'.
Proof.
  revert reader writer g.
  induction steps as [|k IH]; intros reader writer g; [discriminate|].
  cbn [copy_loop].
  destruct (bool_decide (outer = None)); [|intros [= <- <-]; apply frame_refl].
  destruct (ReadFull reader 4096) as [[chunk readErr] reader'].
  destruct (bool_decide (readErr = Some EOF)); [intros [= <- <-]; apply frame_refl|].
  destruct (_ && _).
  { intros [= <- <-].
    eapply frame_trans; [apply frame_eprintln | apply frame_rm]. }
  pose proof (Write_frame writer chunk g) as H.
  destruct (bufio.Write fe f writer chunk g) as [[writeErr w1] g1].
  destruct writeErr.
  - intros [= <- <-]. eapply frame_trans; [exact H|].
    eapply frame_trans; [apply frame_eprintln | apply frame_rm].
  - intros Hk. eapply frame_trans; [exact H | eapply IH, Hk].
Qed.

(** More iterations than needed change nothing. *)
Lemma copy_loop_mono steps steps' outer reader writer g r :
  copy_loop steps fe f outer reader writer g = Some r ->
  steps <= steps' ->
  copy_loop steps' fe f outer reader writer g = Some r.
Proof.
  revert steps' reader writer g.
  induction steps as [|k IH]; intros steps' reader writer g; [discriminate|].
  intros H Hle. destruct steps' as [|k']; [lia|].
  cbn [copy_loop] in *. destruct (bool_decide (outer = None)); [|exact H].
  destruct (ReadFull reader 4096) as [[chunk readErr] reader'].
  destruct (bool_decide (readErr = Some EOF)); [exact H|].
  destruct (_ && _); [exact H|].
  destruct (bufio.Write fe f writer chunk g) as [[writeErr w1] g1].
  destruct writeErr; [exact H|]. apply IH; [exact H | lia].
Qed.

(** *** The copy loop ends *)

Lemma ReadFull_full (r : body) :
  4096 <= length (b_data r) ->
  ReadFull r 4096 =
    ((List.firstn 4096 (b_data r), None),
     {| b_data := List.skipn 4096 (b_data r); b_end := b_end r |}).
Proof.
  intros H. unfold ReadFull.
  destruct (Nat.leb_spec 4096 (length (b_data r))); [reflexivity | lia].
Qed.

Lemma ReadFull_short (r : body) :
  length (b_data r) < 4096 ->
  ReadFull r 4096 =
    ((b_data r,
      Some (if (0 <? length (b_data r))%nat && bool_decide (b_end r = EOF)
            then ErrUnexpectedEOF else b_end r)),
     {| b_data := []; b_end := b_end r |}).
Proof.
  intros H. unfold ReadFull.
  destruct (Nat.leb_spec 4096 (length (b_data r))); [lia | reflexivity].
Qed.

(** On a body that does not end in [ErrUnexpectedEOF] the loop reaches a
    [break] within [length data + 2] iterations, whatever the writes
    do. *)
Lemma copy_loop_ends steps reader writer g :
  b_end reader <> ErrUnexpectedEOF ->
  enough_steps reader <= steps ->
  is_Some (copy_loop steps fe f None reader writer g).
Proof.
  unfold enough_steps. revert reader writer g.
  induction steps as [|k IH]; intros reader writer g Hend Hle; [lia|].
  cbn [copy_loop]. rewrite bool_decide_eq_true_2 by reflexivity.
  destruct (le_lt_dec 4096 (length (b_data reader))) as [Hfull|Hshort].
  - rewrite (ReadFull_full _ Hfull).
    rewrite bool_decide_eq_false_2 by discriminate.
    rewrite (bool_decide_eq_false_2 (None <> None)) by congruence.
    cbn [andb].
    destruct (bufio.Write fe f writer _ g) as [[writeErr w1] g1].
    destruct writeErr; [eauto|].
    apply IH; [exact Hend|]. cbn [b_data]. rewrite length_skipn. lia.
  - rewrite (ReadFull_short _ Hshort).
    destruct (b_data reader) as [|x data] eqn:Hd.
    + (* nothing left: the error of the stream *)
      cbn [length Nat.ltb Nat.leb andb].
      destruct (decide (b_end reader = EOF)) as [He|He].
      * rewrite He, bool_decide_eq_true_2 by reflexivity. eauto.
      * rewrite bool_decide_eq_false_2 by congruence.
        rewrite !bool_decide_eq_true_2 by congruence. cbn [andb]. eauto.
    + (* a short final chunk *)
      change (0 <? length (x :: data))%nat with true. cbn [andb].
      destruct (decide (b_end reader = EOF)) as [He|He].
      * rewrite He, (bool_decide_eq_true_2 (EOF = EOF)) by reflexivity.
        rewrite bool_decide_eq_false_2 by discriminate.
        rewrite (bool_decide_eq_false_2 (Some ErrUnexpectedEOF <> Some ErrUnexpectedEOF))
          by congruence.
        rewrite andb_false_r.
        destruct (bufio.Write fe f writer _ g) as [[writeErr w1] g1].
        destruct writeErr; [eauto|].
        destruct k as [|k']; [cbn [length] in Hle; lia|].
        cbn [copy_loop]. rewrite bool_decide_eq_true_2 by reflexivity.
        rewrite ReadFull_short by (cbn; lia). cbn [b_data length Nat.ltb Nat.leb andb b_end].
        rewrite bool_decide_eq_true_2 by reflexivity. eauto.
      * rewrite (bool_decide_eq_false_2 (b_end reader = EOF)) by exact He.
        rewrite bool_decide_eq_false_2 by congruence.
        rewrite !bool_decide_eq_true_2 by congruence. cbn [andb]. eauto.
Qed.

(** *** [enough_steps] is enough *)

Lemma Write_None_err b p g b' g' :
  bufio.Write fe f b p g = (None, b', g') -> bufio.err b' = None.
Proof.
  unfold bufio.Write.
  destruct (bufio.Write_loop 2 fe f b p g) as [[b1 p1] g1].
  destruct (bufio.err b1); [discriminate|]. now intros [= <- _].
Qed.

Lemma Write_nil b g :
  bufio.err b = None -> bufio.Write fe f b [] g = (None, b, g).
Proof.
  intros He. unfold bufio.Write. cbn [bufio.Write_loop length].
  destruct (bufio.Available b <? 0)%nat eqn:E; [apply Nat.ltb_lt in E; lia|].
  cbn [andb]. rewrite He, app_nil_r. destruct b; cbn in *. now subst.
Qed.

(** A transport that keeps answering [io.ErrUnexpectedEOF] keeps the loop
    going: each round reads nothing and writes nothing. *)
Lemma copy_loop_spins steps writer g :
  bufio.err writer = None ->
  copy_loop steps fe f None {| b_data := []; b_end := ErrUnexpectedEOF |} writer g
    = None.
Proof.
  intros He. induction steps as [|k IH]; [reflexivity|].
  cbn [copy_loop]. rewrite bool_decide_eq_true_2 by reflexivity.
  rewrite ReadFull_short by (cbn; lia). cbn [b_data b_end length Nat.ltb Nat.leb andb].
  rewrite bool_decide_eq_false_2 by discriminate.
  rewrite (bool_decide_eq_false_2 (Some ErrUnexpectedEOF <> Some ErrUnexpectedEOF))
    by congruence.
  rewrite andb_false_r, Write_nil by exact He. exact IH.
Qed.

(** If the loop ends at all, it ends within [enough_steps] iterations,
    with the same result. *)
Lemma copy_loop_enough steps reader writer g r :
  copy_loop steps fe f None reader writer g = Some r ->
  copy_loop (enough_steps reader) fe f None reader writer g = Some r.
Proof.
  unfold enough_steps. revert reader writer g.
  induction steps as [|k IH]; intros reader writer g; [discriminate|].
  replace (length (b_data reader) + 2)%nat with (S (length (b_data reader) + 1)) by lia.
  cbn [copy_loop]. rewrite bool_decide_eq_true_2 by reflexivity.
  destruct (le_lt_dec 4096 (length (b_data reader))) as [Hfull|Hshort].
  - rewrite (ReadFull_full _ Hfull).
    rewrite bool_decide_eq_false_2 by discriminate.
    rewrite (bool_decide_eq_false_2 (None <> None)) by congruence.
    cbn [andb].
    destruct (bufio.Write fe f writer _ g) as [[writeErr w1] g1].
    destruct writeErr; [auto|].
    intros Hk. apply IH in Hk. cbn [b_data] in Hk.
    eapply copy_loop_mono; [exact Hk|]. rewrite length_skipn. lia.
  - rewrite (ReadFull_short _ Hshort).
    destruct (bool_decide (_ = Some EOF)); [auto|].
    destruct (_ && _) eqn:Eand; [auto|].
    destruct (bufio.Write fe f writer _ g) as [[writeErr w1] g1] eqn:Ew.
    destruct writeErr; [auto|].
    apply Write_None_err in Ew.
    destruct (b_data reader) as [|x data] eqn:Ed.
    + (* nothing was read: the transport answered [ErrUnexpectedEOF] *)
      cbn [length Nat.ltb Nat.leb andb] in Eand.
      rewrite bool_decide_eq_true_2 in Eand by discriminate. cbn [andb] in Eand.
      apply bool_decide_eq_false_1 in Eand.
      assert (He : b_end reader = ErrUnexpectedEOF).
      { destruct (decide (b_end reader = ErrUnexpectedEOF)); [assumption|].
        destruct Eand. congruence. }
      rewrite He, copy_loop_spins by exact Ew. discriminate.
    + intros Hk. apply IH in Hk. cbn [b_data length] in Hk.
      eapply copy_loop_mono; [exact Hk|]. cbn [length]. lia.
Qed.

(** *** When no write fails *)

Section NoWriteFails.

Hypothesis no_fault : forall k, fe_write fe k = None.

Lemma clean_refl g : clean f g g.
Proof. do 4 (split; [reflexivity|]). auto. Qed.

Lemma clean_trans g1 g2 g3 : clean f g1 g2 -> clean f g2 g3 -> clean f g1 g3.
Proof.
  intros (?&?&?&?&?) (?&?&?&?&?). do 4 (split; [congruence|]). auto.
Qed.

Lemma fp_Write_ok p g :
  g_live g = true ->
  exists g', fp_Write fe f p g = ((length p, None), g') /\ clean f g g' /\
             g_fs g' !! f = Some (default [] (g_fs g !! f) ++ p).
Proof.
  intros Hlive. unfold fp_Write. rewrite no_fault, Hlive.
  eexists. split; [reflexivity|]. split.
  { do 4 (split; [cbn; congruence|]). intros _. cbn. rewrite lookup_insert_eq. eauto. }
  cbn. apply lookup_insert_eq.
Qed.

Lemma Flush_ok b g :
  bufio.err b = None -> g_live g = true ->
  exists g', bufio.Flush fe f b g = (None, bufio.NewWriter, g') /\ clean f g g' /\
             default [] (g_fs g' !! f) = delivered f b g.
Proof.
  intros Herr Hlive. unfold bufio.Flush, delivered, bufio.Buffered. rewrite Herr.
  destruct (Nat.eqb_spec (length (bufio.buf b)) 0) as [H0|H0].
  - destruct b as [bf er]. cbn in *. subst er.
    destruct bf; [|discriminate]. exists g.
    split; [reflexivity|]. split; [apply clean_refl | now rewrite app_nil_r].
  - destruct (fp_Write_ok (bufio.buf b) g Hlive) as (g' & -> & Hc & Hf).
    rewrite Nat.ltb_irrefl. cbn [andb]. exists g'.
    split; [reflexivity|]. split; [exact Hc | now rewrite Hf].
Qed.

Lemma Write_loop_ok rounds b p g :
  bufio.err b = None -> g_live g = true ->
  exists b' p' g',
    bufio.Write_loop rounds fe f b p g = (b', p', g') /\
    bufio.err b' = None /\ clean f g g' /\
    delivered f b' g' ++ p' = delivered f b g ++ p.
Proof.
  revert b p g. induction rounds as [|k IH]; intros b p g Herr Hlive.
  { exists b, p, g. repeat split; auto. }
  cbn [bufio.Write_loop].
  destruct (_ && _); [|exists b, p, g; repeat split; auto].
  destruct (Nat.eqb_spec (bufio.Buffered b) 0) as [H0|H0].
  - destruct (fp_Write_ok p g Hlive) as (g1 & -> & Hc & Hf).
    destruct (IH {| bufio.buf := bufio.buf b; bufio.err := None |}
                (List.skipn (length p) p) g1 eq_refl)
      as (b' & p' & g' & -> & He & Hc' & Hd).
    { destruct Hc as (_ & _ & -> & _). exact Hlive. }
    exists b', p', g'. split; [reflexivity|]. split; [exact He|].
    split; [eapply clean_trans; eassumption|].
    rewrite Hd. unfold delivered, bufio.Buffered in *. cbn [bufio.buf].
    rewrite Hf. cbn [default]. rewrite skipn_all.
    destruct (bufio.buf b); [|discriminate]. now rewrite !app_nil_r.
  - set (b1 := {| bufio.buf := bufio.buf b ++ List.firstn (bufio.Available b) p;
                  bufio.err := bufio.err b |}).
    destruct (Flush_ok b1 g Herr Hlive) as (g1 & -> & Hc & Hf).
    destruct (IH bufio.NewWriter (List.skipn (bufio.Available b) p) g1 eq_refl)
      as (b' & p' & g' & -> & He & Hc' & Hd).
    { destruct Hc as (_ & _ & -> & _). exact Hlive. }
    exists b', p', g'. split; [reflexivity|]. split; [exact He|].
    split; [eapply clean_trans; eassumption|].
    rewrite Hd. unfold delivered in *. cbn [bufio.buf bufio.NewWriter] in *.
    rewrite Hf, app_nil_r. subst b1. cbn [bufio.buf].
    rewrite <- !app_assoc. now rewrite firstn_skipn.
Qed.

Lemma Write_ok b p g :
  bufio.err b = None -> g_live g = true ->
  exists b' g',
    bufio.Write fe f b p g = (None, b', g') /\
    bufio.err b' = None /\ clean f g g' /\
    delivered f b' g' = delivered f b g ++ p.
Proof.
  intros Herr Hlive. unfold bufio.Write.
  destruct (Write_loop_ok 2 b p g Herr Hlive)
    as (b' & p' & g' & -> & He & Hc & Hd).
  rewrite He. eexists _, g'. split; [reflexivity|].
  split; [reflexivity|]. split; [exact Hc|].
  rewrite <- Hd. unfold delivered. cbn [bufio.buf]. now rewrite app_assoc.
Qed.

(** On a body that ends normally, the loop leaves by the [break] of
    line 75 with every byte handed to the writer, nothing printed and
    the file in place. *)
Lemma copy_loop_ok steps data writer g :
  bufio.err writer = None -> g_live g = true ->
  length data + 2 <= steps ->
  exists writer' g',
    copy_loop steps fe f None {| b_data := data; b_end := EOF |} writer g
      = Some (writer', g') /\
    bufio.err writer' = None /\ clean f g g' /\
    delivered f writer' g' = delivered f writer g ++ data.
Proof.
  revert data writer g.
  induction steps as [|k IH]; intros data writer g Herr Hlive Hle; [lia|].
  cbn [copy_loop]. rewrite bool_decide_eq_true_2 by reflexivity.
  destruct (le_lt_dec 4096 (length data)) as [Hfull|Hshort].
  - rewrite ReadFull_full by exact Hfull. cbn [b_data b_end].
    rewrite bool_decide_eq_false_2 by discriminate.
    rewrite (bool_decide_eq_false_2 (None <> None)) by congruence.
    cbn [andb].
    destruct (Write_ok writer (List.firstn 4096 data) g Herr Hlive)
      as (w1 & g1 & -> & He1 & Hc1 & Hd1).
    destruct (IH (List.skipn 4096 data) w1 g1 He1) as (w2 & g2 & -> & He2 & Hc2 & Hd2).
    { destruct Hc1 as (_ & _ & -> & _). exact Hlive. }
    { rewrite length_skipn. lia. }
    exists w2, g2. split; [reflexivity|]. split; [exact He2|].
    split; [eapply clean_trans; eassumption|].
    now rewrite Hd2, Hd1, <- app_assoc, firstn_skipn.
  - rewrite ReadFull_short by exact Hshort. cbn [b_data b_end].
    rewrite (bool_decide_eq_true_2 (EOF = EOF)) by reflexivity.
    destruct data as [|x data].
    + cbn [length Nat.ltb Nat.leb andb].
      rewrite bool_decide_eq_true_2 by reflexivity.
      exists writer, g. split; [reflexivity|]. split; [exact Herr|].
      split; [apply clean_refl | now rewrite app_nil_r].
    + change (0 <? length (x :: data))%nat with true. cbn [andb].
      rewrite bool_decide_eq_false_2 by discriminate.
      rewrite (bool_decide_eq_false_2 (Some ErrUnexpectedEOF <> Some ErrUnexpectedEOF))
        by congruence.
      rewrite andb_false_r.
      destruct (Write_ok writer (x :: data) g Herr Hlive)
        as (w1 & g1 & -> & He1 & Hc1 & Hd1).
      destruct k as [|k']; [cbn [length] in Hle; lia|].
      cbn [copy_loop]. rewrite bool_decide_eq_true_2 by reflexivity.
      rewrite ReadFull_short by (cbn; lia).
      cbn [b_data length Nat.ltb Nat.leb andb b_end].
      rewrite bool_decide_eq_true_2 by reflexivity.
      exists w1, g1. split; [reflexivity|]. split; [exact He1|].
      split; [exact Hc1 | exact Hd1].
Qed.

End NoWriteFails.

(** *** [getUrl] as a whole *)

Lemma getUrl_frame steps qflag url g g' :
  getUrl steps qflag fe url f g = Some g' ->
  g_sent g' = S (g_sent g) /\ forall q, q <> f -> g_fs g' !! q = g_fs g !! q.
Proof.
  unfold getUrl, getUrl_body.
  set (g0 := if negb qflag then g_println ("GET " +:+ url) g else g).
  assert (H0 : frame f g g0) by (subst g0; destruct (negb qflag); split; auto).
  destruct (fe_create fe) as [e|].
  { intros [= <-]. cbn [List.fold_left run_deferred].
    destruct H0 as [Hs Hf]. split; [cbn; now rewrite Hs|].
    intros q Hq. cbn. rewrite lookup_delete_ne by auto. now apply Hf. }
  destruct (fe_get fe) as [e|resp_Body].
  { intros [= <-]. cbn [List.fold_left run_deferred].
    destruct H0 as [Hs Hf]. split; [cbn; now rewrite Hs|].
    intros q Hq. cbn. rewrite lookup_delete_ne, lookup_insert_ne by auto.
    now apply Hf. }
  destruct (copy_loop _ _ _ _ _ _ _) as [[writer g1]|] eqn:Hloop; [|discriminate].
  apply copy_loop_frame in Hloop.
  pose proof (Flush_frame writer g1) as Hfl.
  destruct (bufio.Flush fe f writer g1) as [[r b2] g2]. cbn [snd] in Hfl.
  intros [= <-]. cbn [List.fold_left run_deferred].
  assert (H : frame f g g2).
  { eapply frame_trans; [exact H0|].
    eapply frame_trans; [|eapply frame_trans; [exact Hloop | exact Hfl]].
    eapply frame_trans; [apply frame_create | apply frame_println]. }
  destruct H as [Hs Hf]. split; [cbn; now rewrite Hs | exact Hf].
Qed.

Lemma getUrl_exits qflag url g steps :
  exits fe -> fetch_steps fe <= steps ->
  is_Some (getUrl steps qflag fe url f g).
Proof.
  unfold exits, fetch_steps, getUrl, getUrl_body.
  destruct (fe_create fe) as [e|]; [eauto|].
  destruct (fe_get fe) as [e|resp_Body]; [eauto|].
  intros Hend Hle.
  match goal with |- context [copy_loop steps fe f None resp_Body ?w ?g1] =>
    destruct (copy_loop_ends steps resp_Body w g1 Hend Hle) as [[writer g2] ->] end.
  destruct (bufio.Flush fe f writer g2) as [[r b2] g3]. eauto.
Qed.

(** The number of iterations [finish_step] grants is enough: whenever
    [getUrl] returns, it returns within [fetch_steps], with the same
    state. *)
Lemma getUrl_enough steps qflag url g g' :
  getUrl steps qflag fe url f g = Some g' ->
  getUrl (fetch_steps fe) qflag fe url f g = Some g'.
Proof.
  unfold getUrl, getUrl_body, fetch_steps.
  destruct (fe_create fe); [auto|].
  destruct (fe_get fe) as [x|resp_Body]; [auto|].
  destruct (copy_loop steps _ _ _ _ _ _) as [r|] eqn:Hr; [|discriminate].
  now rewrite (copy_loop_enough _ _ _ _ _ Hr).
Qed.

(** A download that meets no failure leaves the body, byte for byte, in
    [f], and prints nothing to the standard error. *)
Lemma getUrl_ok qflag url data g steps :
  fe_create fe = None ->
  fe_get fe = inr {| b_data := data; b_end := EOF |} ->
  (forall k, fe_write fe k = None) ->
  length data + 2 <= steps ->
  exists g', getUrl steps qflag fe url f g = Some g' /\
             g_fs g' !! f = Some data /\ g_stderr g' = g_stderr g.
Proof.
  intros Hc Hg Hw Hle. unfold getUrl, getUrl_body. rewrite Hc, Hg.
  set (g0 := if negb qflag then g_println ("GET " +:+ url) g else g).
  set (g1 := g_println ("created " +:+ f) (g_create f g0)).
  destruct (copy_loop_ok Hw steps data bufio.NewWriter g1 eq_refl eq_refl Hle)
    as (writer & g2 & -> & He & Hcl & Hd).
  destruct (Flush_ok Hw writer g2 He) as (g3 & -> & Hcl3 & Hf3).
  { destruct Hcl as (_ & _ & -> & _). reflexivity. }
  eexists. split; [reflexivity|]. cbn [List.fold_left run_deferred].
  assert (Hin : g_fs g1 !! f = Some []) by (cbn; apply lookup_insert_eq).
  unfold delivered in Hd, Hf3. rewrite Hin in Hd. cbn in Hd.
  rewrite Hd in Hf3.
  assert (Hsome : is_Some (g_fs g3 !! f)).
  { destruct Hcl3 as (_ & _ & _ & _ & H3). apply H3.
    destruct Hcl as (_ & _ & _ & _ & H2). apply H2. rewrite Hin. eauto. }
  destruct Hsome as [c Hsome]. rewrite Hsome in Hf3. cbn in Hf3. subst c.
  split; [exact Hsome|].
  change (g_stderr g3 = g_stderr g).
  destruct Hcl3 as (_ & -> & _), Hcl as (_ & -> & _).
  subst g1 g0. now destruct (negb qflag).
Qed.

End Fetcher.

Section FetcherClaims.

(** X22.  Every execution of [getUrl] that returns has sent exactly one
    value on [ch]; and [getUrl] does return when [os.Create] fails, when
    [http.Get] fails, and when the body ends normally or with a read
    error other than [io.ErrUnexpectedEOF], with or without a failing
    write. *)
Theorem getUrl_sends_exactly_once
    (qf : bool) (fe : fetch_env) (url f : string) (g : gstate) :
  (forall steps g',
      getUrl steps qf fe url f g = Some g' -> g_sent g' = S (g_sent g)) /\
  (exits fe ->
   forall steps, fetch_steps fe <= steps ->
     exists g', getUrl steps qf fe url f g = Some g' /\ g_sent g' = S (g_sent g)).
Proof.
  split.
  - intros steps g' H. now apply getUrl_frame in H.
  - intros Hex steps Hle.
    destruct (getUrl_exits fe f qf url g steps Hex Hle) as [g' Hg'].
    exists g'. split; [exact Hg'|]. now apply getUrl_frame in Hg'.
Qed.

Lemma getUrl_sends_exactly_once_witness :
  exists g',
    getUrl (fetch_steps fetch_read_fails) true fetch_read_fails "u" "t"
      (g_start world0) = Some g' /\
    g_sent g' = S (g_sent (g_start world0)).
Proof.
  apply (proj2 (getUrl_sends_exactly_once true fetch_read_fails "u" "t"
                  (g_start world0))).
  - cbn. discriminate.
  - reflexivity.
Defined.

(** The exits of [getUrl], one by one: one value sent; on a failure the
    error printed and the temporary file removed, on success the body in
    the file. *)
Example getUrl_exit_open_failure :
  outcome "t" (getUrl 0 true fetch_open_fails "u" "t" (g_start world0))
  = Some (1%nat, [ErrOther "permission denied"], None).
Proof. vm_compute. reflexivity. Qed.

Example getUrl_exit_transport_failure :
  outcome "t" (getUrl 0 true fetch_get_fails "u" "t" (g_start world0))
  = Some (1%nat, [ErrOther "no such host"], None).
Proof. vm_compute. reflexivity. Qed.

Example getUrl_exit_read_error :
  outcome "t" (getUrl (fetch_steps fetch_read_fails) true fetch_read_fails "u" "t"
                 (g_start world0))
  = Some (1%nat, [ErrOther "connection reset"], None).
Proof. vm_compute. reflexivity. Qed.

Example getUrl_exit_write_error :
  outcome "t" (getUrl (fetch_steps fetch_write_fails) true fetch_write_fails "u" "t"
                 (g_start world0))
  = Some (1%nat, [ErrOther "no space left"], None).
Proof. vm_compute. reflexivity. Qed.

Example getUrl_exit_success :
  outcome "t" (getUrl 5 true (fetch_ok [Byte.x01; Byte.x02; Byte.x03]) "u" "t"
                 (g_start world0))
  = Some (1%nat, [], Some [Byte.x01; Byte.x02; Byte.x03]).
Proof. vm_compute. reflexivity. Qed.

(** C6.  On a body of finitely many bytes that ends normally, the copy
    loop reaches a [break] within [length data + 2] iterations; and when
    no write fails it leaves by the [break] of the end of the stream:
    nothing is printed, the file is not removed, and the bytes handed to
    the writer are those of the body in their order, a final chunk shorter
    than the buffer included. *)
Theorem copy_loop_ends_cleanly
    (fe : fetch_env) (f : string) (data : list Byte.byte)
    (writer : bufio.Writer) (g : gstate) (steps : nat) :
  length data + 2 <= steps ->
  is_Some (copy_loop steps fe f None {| b_data := data; b_end := EOF |} writer g) /\
  ((forall k, fe_write fe k = None) ->
   bufio.err writer = None -> g_live g = true ->
   exists writer' g',
     copy_loop steps fe f None {| b_data := data; b_end := EOF |} writer g
       = Some (writer', g') /\
     bufio.err writer' = None /\ clean f g g' /\
     delivered f writer' g' = delivered f writer g ++ data).
Proof.
  intros Hle. split.
  - apply copy_loop_ends; [discriminate | exact Hle].
  - intros Hw He Hl. now apply copy_loop_ok.
Qed.

Lemma copy_loop_ends_cleanly_witness :
  exists writer' g',
    copy_loop 4100 (fetch_ok (List.repeat Byte.x2a 4097)) "t" None
      {| b_data := List.repeat Byte.x2a 4097; b_end := EOF |}
      bufio.NewWriter (g_create "t" (g_start world0))
      = Some (writer', g') /\
    bufio.err writer' = None /\
    clean "t" (g_create "t" (g_start world0)) g' /\
    delivered "t" writer' g' =
      delivered "t" bufio.NewWriter (g_create "t" (g_start world0))
        ++ List.repeat Byte.x2a 4097.
Proof.
  apply (proj2 (copy_loop_ends_cleanly
                  (fetch_ok (List.repeat Byte.x2a 4097)) "t"
                  (List.repeat Byte.x2a 4097) bufio.NewWriter
                  (g_create "t" (g_start world0)) 4100
                  ltac:(rewrite repeat_length; lia))).
  - reflexivity.
  - reflexivity.
  - reflexivity.
Defined.

End FetcherClaims.

(** ** Runs *)

Section Runs.

Variable e : env.

(** An invariant: it holds at the start and every step keeps it. *)
Lemma reachable_invariant (I : state -> Prop) :
  I (init e) ->
  (forall l s s', I s -> step e l s = Some s' -> I s') ->
  forall s, reachable e s -> I s.
Proof.
  intros Hinit Hstep s Hr. induction Hr as [|l s s' _ IH Hs]; eauto.
Qed.

Lemma exec_reachable (sched : list label) (s s' : state) :
  reachable e s -> exec e sched s = Some s' -> reachable e s'.
Proof.
  revert s. induction sched as [|l sched IH]; intros s Hr; cbn.
  - now intros [= <-].
  - destruct (step e l s) as [s1|] eqn:Hs; [|discriminate].
    apply IH. eapply reachable_step; eassumption.
Qed.

Lemma int_wrap_id (z : Z) :
  (int_min <= z <= int_max)%Z -> int_wrap z = z.
Proof.
  unfold int_wrap, int_min, int_max. intros H.
  rewrite Z.mod_small; lia.
Qed.

Lemma int_incr_id (z : Z) :
  (int_min <= z < int_max)%Z -> int_incr z = (z + 1)%Z.
Proof. intros H. apply int_wrap_id. lia. Qed.

(** *** The in-flight count *)

Lemma conc_inv_init : (1 <= pflag e)%Z -> conc_inv e (init e).
Proof.
  intros Hp. unfold init.
  destruct (Z.ltb_spec (pflag e) 1); [lia|].
  destruct (mkdir e); repeat split; cbn; lia.
Qed.

Lemma conc_inv_main (s s' : state) :
  (1 <= pflag e <= int_max)%Z ->
  conc_inv e s -> main_step e s = Some s' -> conc_inv e s'.
Proof.
  intros Hp (Hsum & Hle & Hpc). unfold main_step.
  assert (Hdec : (0 < routines s)%Z -> int_decr (routines s) = (routines s - 1)%Z).
  { intros H. apply int_wrap_id. unfold int_min, int_max in *. lia. }
  destruct (at_pc s) as [[|[arg ct] rest]|[|url rest]|url rest| |[|url rest]| | |] eqn:Epc.
  - destruct (chan_refused e); [discriminate|].
    intros [= <-]. unfold conc_inv. cbn. lia.
  - destruct (prepUrl ct arg (tmpdir s) (w s)) as [[url er] w'].
    destruct er; intros [= <-]; unfold conc_inv; cbn; lia.
  - intros [= <-]. unfold conc_inv. cbn. lia.
  - destruct (Z.leb_spec (pflag e) (routines s)).
    + destruct (ch s) as [|c] eqn:Ech; [discriminate|].
      intros [= <-]. unfold conc_inv. cbn. rewrite Hdec by lia. lia.
    + intros [= <-]. unfold conc_inv. cbn. lia.
  - destruct (filemap (w s) !! url) as [fmentry|].
    + destruct (slice_index (tmpfiles fmentry) (n fmentry)) as [f|].
      * intros [= <-]. unfold conc_inv. cbn.
        assert (Hinc : int_incr (routines s) = (routines s + 1)%Z).
        { apply int_wrap_id. unfold int_min, int_max in *. lia. }
        rewrite Hinc, length_app. cbn. lia.
      * intros [= <-]. unfold conc_inv. cbn. lia.
    + intros [= <-]. unfold conc_inv. cbn. lia.
  - destruct (Z.ltb_spec 0 (routines s)).
    + destruct (ch s) as [|c] eqn:Ech; [discriminate|].
      intros [= <-]. unfold conc_inv. cbn. rewrite Epc, Hdec by lia. lia.
    + intros [= <-]. unfold conc_inv. cbn. lia.
  - intros [= <-]. unfold conc_inv. cbn. lia.
  - destruct (rename _ _ _ _); intros [= <-]; unfold conc_inv; cbn; lia.
  - destruct (dir_empty _ _); intros [= <-]; unfold conc_inv; cbn; lia.
  - discriminate.
  - discriminate.
Qed.

Lemma conc_inv_finish (i : nat) (s s' : state) :
  conc_inv e s -> finish_step e i s = Some s' -> conc_inv e s'.
Proof.
  intros (Hsum & Hle & Hpc). unfold finish_step.
  destruct (running s !! i) as [[url f]|] eqn:Ei; [|discriminate].
  destruct (getUrl _ _ _ _ _ _) as [g|] eqn:Eg; [|discriminate].
  apply getUrl_frame in Eg as [Hsent _]. cbn in Hsent.
  destruct (Z.leb_spec (Z.of_nat (ch s + g_sent g)) (pflag e)); [|discriminate].
  intros [= <-]. unfold conc_inv. cbn.
  apply lookup_lt_Some in Ei.
  rewrite length_delete by eauto using lookup_lt_is_Some_2.
  rewrite Hsent in *.
  destruct (at_pc s); try lia.
Qed.

(** *** The registry *)

Lemma filemap_read_insert (m : gmap string filename) (u v : string) (x : filename) :
  filemap_read (<[u := x]> m) v = if decide (u = v) then x else filemap_read m v.
Proof.
  unfold filemap_read. destruct (decide (u = v)) as [->|Hne].
  - now rewrite lookup_insert_eq.
  - now rewrite lookup_insert_ne.
Qed.

Lemma filemap_read_Some (m : gmap string filename) (u : string) (x : filename) :
  m !! u = Some x -> filemap_read m u = x.
Proof. unfold filemap_read. now intros ->. Qed.

Lemma count_snoc (u v : string) (l : list string) :
  count u (l ++ [v]) = (count u l + if decide (v = u) then 1 else 0)%nat.
Proof.
  unfold count. rewrite count_occ_app. cbn.
  destruct (string_dec v u), (decide (v = u)); (reflexivity || congruence).
Qed.

Lemma count_cons (u v : string) (l : list string) :
  count u (v :: l) = ((if decide (v = u) then 1 else 0) + count u l)%nat.
Proof.
  unfold count. cbn.
  destruct (string_dec v u), (decide (v = u)); (reflexivity || congruence).
Qed.

Lemma count_app (u : string) (l1 l2 : list string) :
  count u (l1 ++ l2) = (count u l1 + count u l2)%nat.
Proof. apply count_occ_app. Qed.

Lemma count_le_length (u : string) (l : list string) :
  (count u l <= length l)%nat.
Proof. apply count_occ_bound. Qed.

(** What one call of the closure [rename] does, when the queue of the URL
    is not empty. *)
Lemma rename_Some (fault : string -> string -> option error) (er : option error)
    (url : string) (w0 : world) (tmp0 : string) (tl : list string) :
  tmpfiles (filemap_read (filemap w0) url) = tmp0 :: tl ->
  exists w',
    rename fault er url w0 = Some w' /\
    filemap w' =
      <[url := {| n := n (filemap_read (filemap w0) url);
                  name := name (filemap_read (filemap w0) url);
                  tmpfiles := tl |}]> (filemap w0) /\
    fs w' = fst (os_Rename fault tmp0 (name (filemap_read (filemap w0) url)) (fs w0)) /\
    renamed w' = renamed w0 ++ [(tmp0, name (filemap_read (filemap w0) url))] /\
    stdout w' = stdout w0 /\
    stderr w' = stderr w0 ++
      match er with
      | Some x => if negb (is_not_exist x) then [x] else []
      | None => []
      end.
Proof.
  intros Ht. unfold rename. rewrite Ht.
  destruct (os_Rename fault tmp0 _ (fs w0)) as [files r].
  eexists. split; [reflexivity|].
  destruct er as [x|]; [destruct (negb (is_not_exist x))|];
    cbn; rewrite ?app_nil_r; auto 10.
Qed.

Lemma rename_None (fault : string -> string -> option error) (er : option error)
    (url : string) (w0 : world) :
  tmpfiles (filemap_read (filemap w0) url) = [] ->
  rename fault er url w0 = None.
Proof. intros Ht. unfold rename. now rewrite Ht. Qed.

Lemma reg_inv_init : reg_inv e (init e).
Proof.
  unfold init, reg_inv.
  destruct (pflag e <? 1)%Z; [cbn; split; [lia|]; intros u; split; reflexivity|].
  destruct (mkdir e); cbn; (split; [lia|]).
  - intros u; split; reflexivity.
  - split; [lia|]. intros u; split; reflexivity.
Qed.

Lemma reg_inv_main (s s' : state) :
  env_wf e -> reg_inv e s -> main_step e s = Some s' -> reg_inv e s'.
Proof.
  intros [_ Hargs] [Hlen Hpc]. unfold main_step.
  destruct (at_pc s) as [[|[arg ct] rest]|[|url rest]|url rest| |[|url rest]| | |] eqn:Epc.
  - (* the allocation loop is over *)
    destruct Hpc as [_ Hreg]. destruct (chan_refused e); [discriminate|].
    intros [= <-]. split; [exact Hlen|]. cbn.
    exists []. split; [reflexivity | exact Hreg].
  - (* one argument *)
    destruct Hpc as [Hrest Hreg]. cbn [length] in Hrest.
    unfold prepUrl. destruct ct as [x|rnd]; intros [= <-].
    + split; [exact Hlen|]. cbn. split; [lia|].
      intros u. rewrite filemap_read_insert.
      destruct (decide (normalize arg = u)) as [->|_]; apply Hreg.
    + split; [cbn; rewrite length_app; cbn; lia|]. cbn.
      split; [rewrite length_app; cbn; lia|].
      intros u. rewrite filemap_read_insert, count_snoc.
      destruct (Hreg u) as [Hq Hn].
      destruct (decide (normalize arg = u)) as [->|_]; cbn.
      * rewrite length_app, Hq. cbn. split; [lia | exact Hn].
      * split; [lia | exact Hn].
  - (* the dispatch list is exhausted *)
    destruct Hpc as (done & Hu & Hreg). intros [= <-]. split; [exact Hlen|]. cbn.
    rewrite app_nil_r in Hu. now rewrite Hu in *.
  - (* the wait for a free slot *)
    destruct Hpc as (done & Hu & Hreg).
    destruct (pflag e <=? routines s)%Z; [destruct (ch s); [discriminate|]|];
      intros [= <-]; (split; [exact Hlen|]); cbn; eauto.
  - (* the launch *)
    destruct Hpc as (done & Hu & Hreg). destruct (Hreg url) as [Hq Hn].
    assert (Hc : (count url done < count url (urls s))%nat).
    { rewrite Hu, count_app, count_cons. rewrite decide_True by reflexivity. lia. }
    destruct (filemap (w s) !! url) as [fmentry|] eqn:Em.
    + rewrite (filemap_read_Some _ _ _ Em) in Hq, Hn.
      unfold slice_index. rewrite -> Hn.
      destruct (Z.leb_spec 0 (Z.of_nat (count url done))); [|lia].
      rewrite Nat2Z.id.
      destruct (tmpfiles fmentry !! count url done) as [f|] eqn:Ef.
      2:{ apply lookup_ge_None in Ef. lia. }
      intros [= <-]. split; [exact Hlen|]. cbn.
      exists (done ++ [url]). split; [now rewrite <- app_assoc|].
      intros u. rewrite filemap_read_insert, count_snoc.
      destruct (decide (url = u)) as [->|_]; cbn.
      * split; [exact Hq|].
        pose proof (count_le_length u (urls s)).
        rewrite int_incr_id; [lia|]. unfold int_min, int_max in *. lia.
      * destruct (Hreg u) as [Hq' Hn']. split; [exact Hq' | rewrite Hn'; lia].
    + unfold filemap_read in Hq. rewrite Em in Hq. cbn in Hq. lia.
  - (* the drain *)
    destruct (0 <? routines s)%Z; [destruct (ch s); [discriminate|]|];
      intros [= <-]; (split; [exact Hlen|]); cbn; [now rewrite Epc | exact Hpc].
  - (* the publisher is through the list *)
    intros [= <-]. split; [exact Hlen | exact Hpc].
  - (* one rename *)
    destruct (Hpc url) as [Hq Hn]. rewrite count_cons, decide_True in Hq by reflexivity.
    destruct (tmpfiles (filemap_read (filemap (w s)) url)) as [|tmp0 tl] eqn:Et;
      [discriminate|].
    destruct (rename_Some (rename_fault e) (err s) url (w s) tmp0 tl Et)
      as (w' & -> & Hm & _).
    intros [= <-]. split; [exact Hlen|]. cbn. rewrite Hm.
    intros u. rewrite filemap_read_insert.
    destruct (Hpc u) as [Hq' Hn']. rewrite count_cons in Hq'.
    destruct (decide (url = u)) as [->|_]; cbn.
    * rewrite Et in Hq'. cbn in Hq'. split; [lia | exact Hn'].
    * split; [exact Hq' | exact Hn'].
  - destruct (dir_empty _ _); intros [= <-]; (split; [exact Hlen | exact Hpc]).
  - discriminate.
  - discriminate.
Qed.

Lemma reg_inv_finish (i : nat) (s s' : state) :
  reg_inv e s -> finish_step e i s = Some s' -> reg_inv e s'.
Proof.
  unfold finish_step.
  destruct (running s !! i) as [[url f]|]; [|discriminate].
  destruct (getUrl _ _ _ _ _ _) as [g|]; [|discriminate].
  destruct (_ <=? _)%Z; [|discriminate].
  intros H [= <-]. exact H.
Qed.

Lemma reg_inv_reachable (s : state) :
  env_wf e -> reachable e s -> reg_inv e s.
Proof.
  intros Hwf. apply reachable_invariant; [apply reg_inv_init|].
  intros [|i] s1 s2 H1 Hs; [eapply reg_inv_main | eapply reg_inv_finish]; eassumption.
Qed.

Lemma conc_inv_reachable (s : state) :
  (1 <= pflag e <= int_max)%Z -> reachable e s -> conc_inv e s.
Proof.
  intros Hp. apply reachable_invariant; [apply conc_inv_init; lia|].
  intros [|i] s1 s2 H1 Hs; [eapply conc_inv_main | eapply conc_inv_finish]; eassumption.
Qed.

Lemma after_reachable (sched : list label) : reachable e (after e sched).
Proof.
  unfold after. destruct (exec e sched (init e)) as [s|] eqn:E; cbn.
  - eapply exec_reachable; [apply reachable_init | exact E].
  - apply reachable_init.
Qed.

End Runs.

(** ** The dispatcher *)

Section Dispatcher.

Lemma env_wf_run_twice : env_wf run_twice.
Proof. split; vm_compute; discriminate. Qed.

Lemma env_wf_run_once : env_wf run_once.
Proof. split; vm_compute; discriminate. Qed.

(** C3.  With a limit [pflag] of at least 1, in every state of a run at most
    [pflag] goroutines [getUrl] are running; and once the dispatcher loop
    and its drain are over, none is running, the in-flight count is 0 and
    [ch] is empty. *)
Theorem running_at_most_pflag (e : env) (s : state) :
  (1 <= pflag e)%Z -> env_wf e -> reachable e s ->
  (Z.of_nat (length (running s)) <= pflag e)%Z /\
  (dispatcher_returned (at_pc s) = true ->
   running s = [] /\ routines s = 0%Z /\ ch s = 0%nat).
Proof.
  intros Hp [Hmax _] Hr.
  destruct (conc_inv_reachable e s (conj Hp Hmax) Hr) as (Hsum & Hle & Hpc).
  split; [lia|]. intros Hret.
  destruct (at_pc s); try discriminate;
    (split; [destruct (running s); [reflexivity | cbn in Hsum; lia] | split; lia]).
Qed.

Lemma running_at_most_pflag_witness :
  (Z.of_nat (length (running (after run_twice sched_twice_launched)))
     <= pflag run_twice)%Z /\
  (dispatcher_returned (at_pc (after run_twice sched_twice_launched)) = true ->
   running (after run_twice sched_twice_launched) = [] /\
   routines (after run_twice sched_twice_launched) = 0%Z /\
   ch (after run_twice sched_twice_launched) = 0%nat).
Proof.
  apply (running_at_most_pflag run_twice (after run_twice sched_twice_launched)).
  - vm_compute. discriminate.
  - split; vm_compute; discriminate.
  - apply after_reachable.
Defined.

(** C7, as the code has it.  In every state of a run in which the main
    goroutine has not yet reached the deferred publisher (during
    allocation, dispatch and drain), every registry entry has
    [0 <= n <= len(tmpfiles)].  (The publisher then drops paths from the
    front of [tmpfiles] and leaves [n] as it is.) *)
Theorem count_within_queue_before_publisher (e : env) (s : state) :
  env_wf e -> reachable e s -> before_publisher (at_pc s) = true ->
  forall u entry, filemap (w s) !! u = Some entry ->
    (0 <= n entry <= Z.of_nat (length (tmpfiles entry)))%Z.
Proof.
  intros Hwf Hr Hb u entry Hu.
  destruct (reg_inv_reachable e s Hwf Hr) as [_ Hpc].
  apply filemap_read_Some in Hu.
  destruct (at_pc s) as [rest|rest|url rest| | | | |]; try discriminate.
  - destruct Hpc as [_ Hreg]. destruct (Hreg u) as [Hq Hn].
    rewrite Hu in Hq, Hn. lia.
  - destruct Hpc as (done & Hl & Hreg). destruct (Hreg u) as [Hq Hn].
    rewrite Hu in Hq, Hn. rewrite Hl, count_app in Hq. lia.
  - destruct Hpc as (done & Hl & Hreg). destruct (Hreg u) as [Hq Hn].
    rewrite Hu in Hq, Hn. rewrite Hl, count_app in Hq. lia.
  - destruct (Hpc u) as [Hq Hn]. rewrite Hu in Hq, Hn. lia.
Qed.

Lemma count_within_queue_before_publisher_witness :
  (0 <= n {| n := 2; name := "a.txt";
             tmpfiles := ["./.goget1/a.txt111"; "./.goget1/a.txt222"] |}
     <= Z.of_nat (length ["./.goget1/a.txt111"; "./.goget1/a.txt222"]))%Z.
Proof.
  apply (count_within_queue_before_publisher run_twice
           (after run_twice [Main; Main; Main; Main; Main; Finish 0; Main; Main; Main])
           env_wf_run_twice (after_reachable _ _) eq_refl
           "http://example.com/a.txt").
  vm_compute. reflexivity.
Defined.

(** C7, as the design document has it, fails: after the publisher has
    renamed the only temporary file of [run_once], the entry has [n = 1]
    and an empty [tmpfiles]. *)
Lemma count_exceeds_queue_after_publisher :
  ~ (forall s, reachable run_once s ->
     forall u entry, filemap (w s) !! u = Some entry ->
       (n entry <= Z.of_nat (length (tmpfiles entry)))%Z).
Proof.
  intros H.
  specialize (H (after run_once sched_once_published) (after_reachable _ _)
                "http://example.com/a.txt"
                {| n := 1; name := "a.txt"; tmpfiles := [] |}).
  assert (Hl : filemap (w (after run_once sched_once_published))
                 !! "http://example.com/a.txt"
               = Some {| n := 1; name := "a.txt"; tmpfiles := [] |})
    by (vm_compute; reflexivity).
  specialize (H Hl). cbn in H. lia.
Qed.

(** C10.  In no state of a run has an index gone out of range: the main
    goroutine never panics; when it is about to launch, [tmpfiles[n]] is in
    range; when it is about to rename, [tmpfiles] is not empty, so
    [tmpfiles[0]] and [tmpfiles[1:]] are in range; and until the publisher
    starts each URL has as many queued paths as it has occurrences on the
    dispatch list. *)
Theorem indexes_in_range (e : env) (s : state) :
  env_wf e -> reachable e s ->
  at_pc s <> Panicked /\
  (forall url rest fmentry,
      at_pc s = AtLaunch url rest -> filemap (w s) !! url = Some fmentry ->
      is_Some (slice_index (tmpfiles fmentry) (n fmentry))) /\
  (forall url rest,
      at_pc s = AtPublish (url :: rest) ->
      tmpfiles (filemap_read (filemap (w s)) url) <> []) /\
  (forall u,
      before_publisher (at_pc s) = true ->
      length (tmpfiles (filemap_read (filemap (w s)) u)) = count u (urls s)).
Proof.
  intros Hwf Hr. destruct (reg_inv_reachable e s Hwf Hr) as [Hlen Hpc].
  split; [|split; [|split]].
  - intros Epc. now rewrite Epc in Hpc.
  - intros url rest fmentry Epc Em. rewrite Epc in Hpc.
    destruct Hpc as (done & Hl & Hreg). destruct (Hreg url) as [Hq Hn].
    rewrite (filemap_read_Some _ _ _ Em) in Hq, Hn.
    unfold slice_index. rewrite -> Hn.
    destruct (Z.leb_spec 0 (Z.of_nat (count url done))); [|lia].
    rewrite Nat2Z.id. apply lookup_lt_is_Some_2.
    rewrite Hq, Hl, count_app, count_cons, decide_True by reflexivity. lia.
  - intros url rest Epc Ht. rewrite Epc in Hpc.
    destruct (Hpc url) as [Hq _].
    rewrite Ht, count_cons, decide_True in Hq by reflexivity. discriminate.
  - intros u Hb.
    destruct (at_pc s) as [rest|rest|url rest| | | | |]; try discriminate.
    + destruct Hpc as [_ Hreg]. apply Hreg.
    + destruct Hpc as (done & _ & Hreg). apply Hreg.
    + destruct Hpc as (done & _ & Hreg). apply Hreg.
    + apply Hpc.
Qed.

Lemma indexes_in_range_witness :
  at_pc (after run_twice sched_twice_drained) <> Panicked /\
  length (tmpfiles (filemap_read (filemap (w (after run_twice sched_twice_launched)))
                      "http://example.com/a.txt"))
    = count "http://example.com/a.txt" (urls (after run_twice sched_twice_launched)).
Proof.
  split.
  - apply (indexes_in_range run_twice (after run_twice sched_twice_drained)
             env_wf_run_twice (after_reachable _ _)).
  - apply (indexes_in_range run_twice (after run_twice sched_twice_launched)
             env_wf_run_twice (after_reachable _ _)).
    reflexivity.
Defined.

End Dispatcher.

(** ** The publisher *)

Section Publisher.

Lemma renames_for_cons (u v : string) (l : list string)
    (c : string * string) (log : list (string * string)) :
  renames_for u (v :: l) (c :: log) =
  (if decide (v = u) then [c] else []) ++ renames_for u l log.
Proof. unfold renames_for. cbn. now destruct (decide (v = u)). Qed.

(** The loop of the publisher on a registry that queues, for each URL, as
    many paths as the URL has occurrences on the list: it does not panic,
    it makes one [os.Rename] call per occurrence, the calls made for a URL
    are those of its queued paths, in their order, each onto the end-file
    name of the URL, and it leaves every queue empty. *)
Lemma publish_loop_renames_all (fault : string -> string -> option error)
    (er : option error) (l : list string) (w0 : world) :
  (forall u, length (tmpfiles (filemap_read (filemap w0) u)) = count u l) ->
  exists w' log,
    publish_loop fault er l w0 = Some w' /\
    renamed w' = renamed w0 ++ log /\
    length log = length l /\
    (forall u, renames_for u l log =
               List.map (fun t => (t, name (filemap_read (filemap w0) u)))
                 (tmpfiles (filemap_read (filemap w0) u))) /\
    (forall u, tmpfiles (filemap_read (filemap w') u) = []) /\
    (forall u, n (filemap_read (filemap w') u) = n (filemap_read (filemap w0) u)).
Proof.
  revert w0. induction l as [|v l IH]; intros w0 Hq.
  - exists w0, []. cbn. rewrite app_nil_r. repeat split; auto.
    + intros u. specialize (Hq u). cbn in Hq.
      now destruct (tmpfiles (filemap_read (filemap w0) u)).
    + intros u. specialize (Hq u). cbn in Hq.
      now destruct (tmpfiles (filemap_read (filemap w0) u)).
  - pose proof (Hq v) as Hv. rewrite count_cons, decide_True in Hv by reflexivity.
    destruct (tmpfiles (filemap_read (filemap w0) v)) as [|tmp0 tl] eqn:Et;
      [discriminate|].
    destruct (rename_Some fault er v w0 tmp0 tl Et) as (w1 & Hr & Hm & _ & Hlog & _).
    destruct (IH w1) as (w' & log & Hp & Hlog' & Hlen & Hfor & Hempty & Hn).
    { intros u. rewrite Hm, filemap_read_insert.
      specialize (Hq u). rewrite count_cons in Hq.
      destruct (decide (v = u)) as [<-|_]; cbn.
      - rewrite Et in Hq. cbn in Hq. lia.
      - exact Hq. }
    exists w', ((tmp0, name (filemap_read (filemap w0) v)) :: log).
    cbn [publish_loop]. rewrite Hr.
    split; [exact Hp|]. split; [now rewrite Hlog', Hlog, <- app_assoc|].
    split; [cbn; now rewrite Hlen|]. split; [|split; [exact Hempty|]].
    + intros u. rewrite renames_for_cons, Hfor, Hm, filemap_read_insert.
      destruct (decide (v = u)) as [<-|_]; cbn; [|reflexivity].
      now rewrite Et.
    + intros u. rewrite Hn, Hm, filemap_read_insert.
      now destruct (decide (v = u)) as [<-|_].
Qed.

(** The main goroutine walks the list as [publish_loop] does. *)
Lemma exec_publish_loop (e : env) (s : state) (l : list string) (w' : world) :
  at_pc s = AtPublish l ->
  publish_loop (rename_fault e) (err s) l (w s) = Some w' ->
  exec e (List.repeat Main (length l)) s = Some (set_pc (AtPublish []) (set_w w' s)).
Proof.
  revert s. induction l as [|v l IH]; intros s Epc; cbn.
  - intros [= <-]. destruct s; cbn in *. now subst.
  - unfold main_step. rewrite Epc.
    destruct (rename (rename_fault e) (err s) v (w s)) as [w1|]; [|discriminate].
    intros Hp. now rewrite (IH (set_pc (AtPublish l) (set_w w1 s)) eq_refl Hp).
Qed.

(** What is left when [run_twice] has exited: no temporary file, and the
    body of the second download under the end-file name. *)
Example run_twice_outcome :
  at_pc (after run_twice sched_twice_exited) = Exited 0 /\
  renamed (w (after run_twice sched_twice_exited)) =
    [("./.goget1/a.txt111", "a.txt"); ("./.goget1/a.txt222", "a.txt")] /\
  fs (w (after run_twice sched_twice_exited)) !! "./.goget1/a.txt222" = None /\
  fs (w (after run_twice sched_twice_exited)) !! "a.txt" = Some [Byte.x02].
Proof. vm_compute. auto. Qed.

(** The variable [err] that line 151 reads is [nil] whenever the main
    goroutine has not exited: it is the one [os.MkdirTemp] set. *)
Lemma err_is_nil (e : env) (s : state) :
  reachable e s -> (forall code, at_pc s <> Exited code) -> err s = None.
Proof.
  intros Hr. induction Hr as [|l s s' Hr IH Hs].
  - unfold init. destruct (pflag e <? 1)%Z; cbn; [intros H; now destruct (H 1%Z)|].
    destruct (mkdir e); cbn; [intros H; now destruct (H 1%Z) | reflexivity].
  - assert (He : err s' = err s).
    { destruct l as [|i]; cbn in Hs.
      - unfold main_step in Hs.
        destruct (at_pc s) as [[|[arg ct] rest]|[|url rest]|url rest| |[|url rest]| | |];
          try discriminate;
          repeat match type of Hs with
                 | context [match ?x with _ => _ end] => destruct x
                 | context [if ?x then _ else _] => destruct x
                 end; try discriminate; now injection Hs as <-.
      - unfold finish_step in Hs.
        repeat match type of Hs with
               | context [match ?x with _ => _ end] => destruct x
               | context [if ?x then _ else _] => destruct x
               end; try discriminate; now injection Hs as <-. }
    intros Hne. rewrite He. apply IH. intros code Epc.
    destruct l as [|i]; cbn in Hs.
    + unfold main_step in Hs. rewrite Epc in Hs. discriminate.
    + unfold finish_step in Hs.
      repeat match type of Hs with
             | context [match ?x with _ => _ end] => destruct x
             | context [if ?x then _ else _] => destruct x
             end; try discriminate.
      injection Hs as <-. now apply (Hne code).
Qed.

(** So the closure [rename] never prints: a failing [os.Rename] goes
    unreported whatever its cause. *)
Lemma rename_reports_nothing (fault : string -> string -> option error)
    (url : string) (w0 w' : world) :
  rename fault None url w0 = Some w' -> stderr w' = stderr w0.
Proof.
  unfold rename. destruct (tmpfiles _) as [|tmp0 tl]; [discriminate|].
  destruct (os_Rename _ _ _ _). now intros [= <-].
Qed.

(** C2 on [run_refused]: the temporary file exists, [os.Rename] fails with
    "permission denied", and when the publisher is through its list nothing
    has been printed to the standard error. *)
Theorem refused_rename_is_not_reported :
  let s0 := after run_refused [Main; Main; Main; Main; Main; Finish 0; Main; Main] in
  let s1 := after run_refused sched_once_published in
  at_pc s0 = AtPublish ["http://example.com/a.txt"] /\
  snd (os_Rename (rename_fault run_refused) "./.goget1/a.txt111" "a.txt" (fs (w s0)))
    = Some (ErrOther "permission denied") /\
  at_pc s1 = AtRemoveDir /\
  renamed (w s1) = [("./.goget1/a.txt111", "a.txt")] /\
  stderr (w s1) = [].
Proof. vm_compute. auto 10. Qed.

End Publisher.

(** ** A whole run: from the download to the end file *)

Section WholeRun.

Variable e : env.

Lemma alloc_list_app (d : string) (l1 l2 : list (string * (error + string))) :
  alloc_list d (l1 ++ l2) = alloc_list d l1 ++ alloc_list d l2.
Proof.
  induction l1 as [|[arg [x|rnd]] l1 IH]; cbn; [reflexivity | exact IH | now f_equal].
Qed.

Lemma alloc_list_length (d : string) (cs : list (string * (error + string))) :
  (length (alloc_list d cs) <= length cs)%nat.
Proof. induction cs as [|[arg [x|rnd]] cs IH]; cbn; lia. Qed.

Lemma alloc_list_elem (d : string) (cs : list (string * (error + string))) (a : alloc) :
  a ∈ alloc_list d cs ->
  a_name a = derive_fname (a_url a) /\
  exists rnd, a_tmp a = temp_path d (a_name a) rnd.
Proof.
  induction cs as [|[arg [x|rnd]] cs IH]; cbn.
  - intros H. inversion H.
  - exact IH.
  - intros H. apply elem_of_cons in H as [->|H]; [|auto].
    cbn. split; [reflexivity | now exists rnd].
Qed.

(** The end-file name has no slash, a temporary path has one. *)
Lemma derive_fname_no_slash (url : string) : no_slash (derive_fname url) = true.
Proof.
  unfold derive_fname.
  destruct (strings.Cut url "://") as [[b1 f1] r1].
  destruct (strings.Cut f1 "/") as [[b2 f2] r2].
  destruct (genSplit_last_segment _ f2 (le_n _)) as [Hn _].
  unfold strings.Split.
  destruct (String.eqb_spec (List.last (strings.genSplit (String.length f2) f2 "/") "") "");
    [reflexivity | exact Hn].
Qed.

Lemma temp_path_slash (d fname rnd : string) : no_slash (temp_path d fname rnd) = false.
Proof. unfold temp_path. apply no_slash_sep_false. Qed.

Lemma alloc_tmp_not_name (d : string) (cs : list (string * (error + string)))
    (a b : alloc) :
  a ∈ alloc_list d cs -> b ∈ alloc_list d cs -> a_tmp a <> a_name b.
Proof.
  intros Ha Hb Heq.
  destruct (alloc_list_elem _ _ _ Ha) as [_ [rnd Ht]].
  destruct (alloc_list_elem _ _ _ Hb) as [Hn _].
  pose proof (temp_path_slash d (a_name a) rnd) as H1.
  pose proof (derive_fname_no_slash (a_url b)) as H2.
  congruence.
Qed.

(** A name without a slash is not inside the directory [d]. *)
Lemma no_slash_outside (d p : string) :
  no_slash p = true -> strings.HasPrefix p (d +:+ "/") = false.
Proof.
  intros Hn. unfold strings.HasPrefix.
  destruct (String.prefix (d +:+ "/") p) eqn:Hp; [|reflexivity].
  apply prefix_true_app in Hp as [r ->].
  rewrite append_assoc, no_slash_sep_false in Hn. discriminate.
Qed.

Lemma map_cons_inv {A B : Type} (f : A -> B) (l : list A) (x : B) (r : list B) :
  List.map f l = x :: r -> exists a l', l = a :: l' /\ f a = x /\ List.map f l' = r.
Proof. destruct l as [|a l']; [discriminate|]. intros [= <- <-]. eauto. Qed.

Lemma map_nil_inv {A B : Type} (f : A -> B) (l : list A) :
  List.map f l = [] -> l = [].
Proof. now destruct l. Qed.

Lemma elem_of_map {A B : Type} (f : A -> B) (l : list A) (x : A) :
  x ∈ l -> f x ∈ List.map f l.
Proof. intros H. apply list_elem_of_In, in_map, list_elem_of_In, H. Qed.

Lemma elem_of_map_inv {A B : Type} (f : A -> B) (l : list A) (y : B) :
  y ∈ List.map f l -> exists x, x ∈ l /\ f x = y.
Proof.
  intros H. apply list_elem_of_In, in_map_iff in H as (x & Hx & Hin).
  exists x. split; [now apply list_elem_of_In | exact Hx].
Qed.

Lemma NoDup_map_inj {A B : Type} (f : A -> B) (l : list A) (x y : A) :
  NoDup (List.map f l) -> x ∈ l -> y ∈ l -> f x = f y -> x = y.
Proof.
  induction l as [|a l IH]; cbn; intros Hnd Hx Hy Heq; [inversion Hx|].
  apply NoDup_cons in Hnd as [Hni Hnd].
  apply elem_of_cons in Hx as [->|Hx]; apply elem_of_cons in Hy as [->|Hy].
  - reflexivity.
  - destruct Hni. rewrite Heq. now apply elem_of_map.
  - destruct Hni. rewrite <- Heq. now apply elem_of_map.
  - now apply IH.
Qed.

Lemma tmpdir_main (s s' : state) : main_step e s = Some s' -> tmpdir s' = tmpdir s.
Proof.
  unfold main_step.
  destruct (at_pc s) as [[|[arg ct] rest]|[|url rest]|url rest| |[|url rest]| | |];
    try discriminate;
    repeat match goal with
           | |- context [match ?x with _ => _ end] => destruct x
           | |- context [if ?x then _ else _] => destruct x
           end; try discriminate; now intros [= <-].
Qed.

Lemma regs_ok_read_insert_self (A A_done : list alloc) (m : gmap string filename)
    (u : string) :
  regs_ok A A_done m -> regs_ok A A_done (<[u := filemap_read m u]> m).
Proof.
  intros H v. rewrite filemap_read_insert.
  destruct (decide (u = v)) as [->|_]; apply H.
Qed.

(** One more allocation. *)
Lemma regs_ok_alloc (A : list alloc) (m : gmap string filename) (a : alloc) :
  a_name a = derive_fname (a_url a) ->
  (forall b, b ∈ A -> a_name b = derive_fname (a_url b)) ->
  regs_ok A [] m ->
  regs_ok (A ++ [a]) []
    (<[a_url a := {| n := n (filemap_read m (a_url a));
                     name := a_name a;
                     tmpfiles := tmpfiles (filemap_read m (a_url a)) ++ [a_tmp a] |}]> m).
Proof.
  intros Ha HA H u. rewrite filemap_read_insert, filter_app.
  destruct (H u) as (Ht & Hn & Hname).
  destruct (decide (a_url a = u)) as [<-|Hne]; cbn [tmpfiles n name].
  - rewrite filter_cons_True by reflexivity. rewrite filter_nil, map_app, <- Ht.
    split; [reflexivity|]. split; [exact Hn|].
    intros b Hb Hu. apply elem_of_app in Hb as [Hb|Hb].
    + rewrite (HA b Hb), Ha. now rewrite Hu.
    + apply list_elem_of_singleton in Hb. now subst b.
  - rewrite filter_cons_False by exact Hne. rewrite filter_nil, app_nil_r.
    split; [exact Ht|]. split; [exact Hn|].
    intros b Hb Hu. apply elem_of_app in Hb as [Hb|Hb]; [now apply Hname|].
    apply list_elem_of_singleton in Hb. subst b. contradiction.
Qed.

(** One more launch. *)
Lemma regs_ok_launch (A_done A_rest : list alloc) (a : alloc)
    (m : gmap string filename) (fmentry : filename) :
  (Z.of_nat (length (A_done ++ a :: A_rest)) <= int_max)%Z ->
  m !! a_url a = Some fmentry ->
  regs_ok (A_done ++ a :: A_rest) A_done m ->
  slice_index (tmpfiles fmentry) (n fmentry) = Some (a_tmp a) /\
  regs_ok ((A_done ++ [a]) ++ A_rest) (A_done ++ [a])
    (<[a_url a := {| n := int_incr (n fmentry); name := name fmentry;
                     tmpfiles := tmpfiles fmentry |}]> m).
Proof.
  intros Hmax Hm H.
  destruct (H (a_url a)) as (Ht & Hn & Hname).
  rewrite (filemap_read_Some _ _ _ Hm) in Ht, Hn, Hname.
  rewrite filter_app, filter_cons_True in Ht by reflexivity.
  split.
  - unfold slice_index. rewrite -> Hn.
    destruct (Z.leb_spec 0 (Z.of_nat (length (filter (fun b => a_url b = a_url a) A_done))));
      [|lia].
    rewrite Nat2Z.id, Ht, map_app. cbn [List.map].
    rewrite <- (length_map a_tmp (filter _ A_done)).
    apply list_lookup_middle. reflexivity.
  - intros u. rewrite filemap_read_insert, <- app_assoc. cbn [app].
    destruct (H u) as (Ht' & Hn' & Hname').
    rewrite (filter_app _ A_done [a]).
    destruct (decide (a_url a = u)) as [<-|Hne]; cbn [tmpfiles n name].
    + rewrite filter_cons_True by reflexivity. rewrite filter_nil.
      rewrite filter_app, filter_cons_True by reflexivity.
      split; [exact Ht|]. split; [|exact Hname].
      rewrite -> Hn, length_app. cbn [length].
      pose proof (length_filter (fun b => a_url b = a_url a) A_done) as Hf.
      rewrite length_app in Hmax. cbn [length] in Hmax.
      rewrite int_incr_id; [lia|]. unfold int_min, int_max in *. lia.
    + rewrite filter_cons_False by exact Hne. rewrite filter_nil, app_nil_r.
      auto.
Qed.

Lemma files_ok_eq (A : list alloc) (s s' : state) :
  fs (w s') = fs (w s) -> tmpdir s' = tmpdir s -> files_ok A s -> files_ok A s'.
Proof. unfold files_ok. now intros -> ->. Qed.

Lemma fetched_ok_eq (A : list alloc) (s s' : state) :
  fs (w s') = fs (w s) -> running s' = running s ->
  fetched_ok e A s -> fetched_ok e A s'.
Proof. unfold fetched_ok. now intros -> ->. Qed.

Lemma run_inv_main (s s' : state) :
  env_wf e -> conc_inv e s -> run_inv e s -> main_step e s = Some s' -> run_inv e s'.
Proof.
  intros [_ Hargs] (Hsum & _ & _) Hinv Hstep.
  pose proof (tmpdir_main _ _ Hstep) as Hd.
  revert Hstep Hd. unfold main_step, run_inv in *.
  destruct (at_pc s) as [[|[arg ct] rest]|[|url rest]|url rest| |[|url rest]| | |] eqn:Epc.
  - (* the allocation loop is over *)
    destruct Hinv as (processed & Hc & Hu & Hreg & Hf & Hrun).
    rewrite app_nil_r in Hc. subst processed.
    destruct (chan_refused e); [discriminate|].
    intros [= <-] _. cbn.
    exists [], (alloc_list (tmpdir s) (calls e)). cbn [app].
    split; [reflexivity|]. split; [exact Hu|]. split; [exact Hu|].
    split; [exact Hreg|]. split; [exact Hf|]. split.
    + intros c Hc. cbn in Hc. rewrite Hrun in Hc. inversion Hc.
    + intros a data Ha. inversion Ha.
  - (* one argument *)
    destruct Hinv as (processed & Hc & Hu & Hreg & Hf & Hrun).
    unfold prepUrl. destruct ct as [x|rnd]; intros [= <-] _; cbn.
    + exists (processed ++ [(arg, inl x)]).
      rewrite <- app_assoc, alloc_list_app.
      change (alloc_list (tmpdir s) [(arg, inl x)]) with (@nil alloc).
      rewrite app_nil_r.
      split; [exact Hc|]. split; [exact Hu|].
      split; [now apply regs_ok_read_insert_self|]. split; [exact Hf | exact Hrun].
    + exists (processed ++ [(arg, inr rnd)]).
      rewrite <- app_assoc, alloc_list_app.
      set (a := {| a_url := normalize arg;
                   a_tmp := temp_path (tmpdir s) (derive_fname (normalize arg)) rnd;
                   a_name := derive_fname (normalize arg) |}).
      change (alloc_list (tmpdir s) [(arg, inr rnd)]) with [a].
      split; [exact Hc|]. split; [now rewrite map_app, Hu|].
      split; [|split; [|exact Hrun]].
      * apply (regs_ok_alloc _ _ a); [reflexivity | | exact Hreg].
        intros b Hb. now apply alloc_list_elem in Hb.
      * intros p Hp Hin. rewrite map_app. apply elem_of_app. cbn in Hp, Hin.
        destruct (decide (a_tmp a = p)) as [<-|Hne].
        -- right. apply list_elem_of_singleton. reflexivity.
        -- left. apply Hf; [|exact Hin]. subst a. cbn in Hne.
           now rewrite lookup_insert_ne in Hp.
  - (* the dispatch list is exhausted *)
    destruct Hinv as (A_done & A_rest & HA & Hu & Hrest & Hreg & Hf & Hfe).
    symmetry in Hrest. apply map_nil_inv in Hrest. subst A_rest.
    rewrite app_nil_r in *. intros [= <-] _. cbn. rewrite HA.
    split; [exact Hu|]. split; [exact Hreg|]. split; [exact Hf | exact Hfe].
  - (* the wait for a free slot *)
    destruct Hinv as (A_done & A_rest & HA & Hu & Hrest & Hreg & Hf & Hfe).
    symmetry in Hrest. apply map_cons_inv in Hrest as (a & A_rest' & -> & <- & Hrest).
    destruct (pflag e <=? routines s)%Z; [destruct (ch s); [discriminate|]|];
      intros [= <-] _; cbn; exists A_done, a, A_rest';
      (split; [exact HA|]); (split; [exact Hu|]); (split; [reflexivity|]);
      (split; [now rewrite Hrest|]); (split; [exact Hreg|]);
      (split; [exact Hf | exact Hfe]).
  - (* the launch *)
    destruct Hinv as (A_done & a & A_rest & HA & Hu & -> & Hrest & Hreg & Hf & Hfe).
    assert (Hmax : (Z.of_nat (length (A_done ++ a :: A_rest)) <= int_max)%Z).
    { rewrite <- HA. pose proof (alloc_list_length (tmpdir s) (calls e)). lia. }
    destruct (filemap (w s) !! a_url a) as [fmentry|] eqn:Em.
    + destruct (regs_ok_launch A_done A_rest a _ fmentry Hmax Em Hreg) as [Hidx Hreg'].
      rewrite Hidx. intros [= <-] _. cbn.
      exists (A_done ++ [a]), A_rest. rewrite <- app_assoc. cbn [app].
      split; [exact HA|]. split; [exact Hu|]. split; [exact Hrest|].
      split; [rewrite <- app_assoc in Hreg'; exact Hreg'|]. split; [exact Hf|].
      destruct Hfe as [Hr1 Hr2]. split.
      * intros c Hc. cbn in Hc. apply elem_of_app in Hc as [Hc|Hc].
        -- destruct (Hr1 c Hc) as (b & Hb & ->). exists b.
           split; [apply elem_of_app; now left | reflexivity].
        -- apply list_elem_of_singleton in Hc. subst c. exists a.
           split; [apply elem_of_app; right; now apply list_elem_of_singleton | reflexivity].
      * intros b data Hb Hnr Hs. cbn in Hnr |- *.
        apply elem_of_app in Hb as [Hb|Hb].
        -- apply Hr2; [exact Hb | | exact Hs].
           intros Hin. apply Hnr, elem_of_app. now left.
        -- apply list_elem_of_singleton in Hb. subst b.
           destruct Hnr. apply elem_of_app. right. now apply list_elem_of_singleton.
    + destruct (Hreg (a_url a)) as (Ht & _).
      unfold filemap_read in Ht. rewrite Em in Ht. cbn in Ht.
      rewrite filter_app, filter_cons_True in Ht by reflexivity.
      rewrite map_app in Ht. cbn in Ht.
      symmetry in Ht. apply app_eq_nil in Ht as [_ Ht]. discriminate.
  - (* the drain *)
    destruct (Z.ltb_spec 0 (routines s)); [destruct (ch s); [discriminate|]|];
      intros [= <-] _; cbn.
    + rewrite Epc. exact Hinv.
    + split; [lia|]. intros _.
      destruct Hinv as (Hu & Hreg & Hf & Hfe).
      split; [exact Hu|]. split; [exact Hreg|]. split; [exact Hf|].
      split; [exact Hfe|].
      destruct (running s); [reflexivity | cbn in Hsum; lia].
  - (* the publisher is through the list *)
    intros [= <-] _. exact I.
  - (* one rename *)
    destruct Hinv as [Hlen _].
    destruct (rename _ _ _ _); intros [= <-] _; cbn; [|exact I].
    cbn in Hlen. split; [lia|]. intros H. lia.
  - destruct (dir_empty _ _); intros [= <-] _; exact I.
  - discriminate.
  - discriminate.
Qed.

Lemma elem_of_delete_middle {A : Type} (l : list A) (i : nat) (x y : A) :
  l !! i = Some y -> x ∈ l <-> x = y \/ x ∈ delete i l.
Proof.
  intros Hi. rewrite delete_take_drop.
  rewrite <- (take_drop_middle l i y Hi) at 1.
  rewrite !elem_of_app, elem_of_cons. tauto.
Qed.

(** A goroutine that ends touches its own temporary file only, and leaves
    the body there when it met no failure. *)
Lemma finish_preserves (A A_done : list alloc) (i : nat) (s s' : state) :
  NoDup (List.map a_tmp A) ->
  (forall a, a ∈ A_done -> a ∈ A) ->
  files_ok A s -> fetched_ok e A_done s ->
  finish_step e i s = Some s' ->
  files_ok A s' /\ fetched_ok e A_done s'.
Proof.
  intros Hnd Hsub Hf [Hr1 Hr2]. unfold finish_step.
  destruct (running s !! i) as [[url0 f0]|] eqn:Ei; [|discriminate].
  destruct (getUrl _ _ _ _ _ _) as [g|] eqn:Eg; [|discriminate].
  destruct (_ <=? _)%Z; [|discriminate].
  intros [= <-].
  pose proof (getUrl_frame _ _ _ _ _ _ _ Eg) as [_ Hframe]. cbn in Hframe.
  assert (Hin0 : (url0, f0) ∈ running s) by (eapply list_elem_of_lookup_2; eauto).
  destruct (Hr1 _ Hin0) as (a0 & Ha0 & Hc0). injection Hc0 as -> ->.
  split; [|split].
  - intros p Hp Hin. cbn in Hp, Hin.
    destruct (decide (p = a_tmp a0)) as [->|Hne].
    + apply elem_of_map. auto.
    + apply Hf; [|exact Hin]. now rewrite <- Hframe.
  - intros c Hc. cbn in Hc. apply Hr1.
    apply (elem_of_delete_middle _ _ c _ Ei). now right.
  - intros a data Ha Hnr Hs. cbn in Hnr |- *.
    destruct (decide (a_tmp a = a_tmp a0)) as [Heq|Hne].
    + assert (a = a0) by (eapply (NoDup_map_inj a_tmp A); eauto). subst a.
      destruct Hs as (Hc & Hget & Hw).
      destruct (getUrl_ok _ (a_tmp a0) (qflag e) (a_url a0) data (g_start (w s))
                  (length data + 2) Hc Hget Hw (le_n _)) as (g' & Hg' & Hfs & _).
      unfold fetch_steps, enough_steps in Eg. rewrite Hget in Eg. cbn in Eg.
      rewrite Hg' in Eg. injection Eg as <-. exact Hfs.
    + rewrite Hframe by exact Hne. apply Hr2; [exact Ha | | exact Hs].
      intros Hin. apply (elem_of_delete_middle _ _ _ _ Ei) in Hin as [Hin|Hin].
      * injection Hin as _ Hin. contradiction.
      * contradiction.
Qed.

Lemma run_inv_finish (i : nat) (s s' : state) :
  NoDup (List.map a_tmp (alloc_list (tmpdir s) (calls e))) ->
  run_inv e s -> finish_step e i s = Some s' -> run_inv e s'.
Proof.
  intros Hnd Hinv Hstep.
  assert (Hsame : at_pc s' = at_pc s /\ tmpdir s' = tmpdir s /\ urls s' = urls s /\
                  filemap (w s') = filemap (w s) /\ is_Some (running s !! i)).
  { revert Hstep. unfold finish_step.
    destruct (running s !! i) as [[url0 f0]|]; [|discriminate].
    destruct (getUrl _ _ _ _ _ _); [|discriminate].
    destruct (_ <=? _)%Z; [|discriminate].
    intros [= <-]. cbn. eauto 10. }
  destruct Hsame as (Hpc & Hd & Hu & Hm & [c Hc]).
  unfold run_inv in *. rewrite Hpc, Hd, Hu, Hm.
  destruct (at_pc s) as [rest|rest|url rest| |rest| | |]; try exact I.
  - destruct Hinv as (processed & _ & _ & _ & _ & Hrun).
    rewrite Hrun in Hc. discriminate.
  - destruct Hinv as (A_done & A_rest & HA & Hus & Hrest & Hreg & Hf & Hfe).
    rewrite HA in Hnd.
    destruct (finish_preserves (A_done ++ A_rest) A_done i s s' Hnd) as [Hf' Hfe']; auto.
    { intros a Ha. apply elem_of_app. now left. }
    exists A_done, A_rest. auto 10.
  - destruct Hinv as (A_done & a & A_rest & HA & Hus & Hurl & Hrest & Hreg & Hf & Hfe).
    rewrite HA in Hnd.
    destruct (finish_preserves (A_done ++ a :: A_rest) A_done i s s' Hnd)
      as [Hf' Hfe']; auto.
    { intros b Hb. apply elem_of_app. now left. }
    exists A_done, a, A_rest. auto 10.
  - destruct Hinv as (Hus & Hreg & Hf & Hfe).
    destruct (finish_preserves _ _ i s s' Hnd (fun a H => H) Hf Hfe Hstep) as [Hf' Hfe'].
    auto.
  - destruct Hinv as [Hlen Hstart]. split; [exact Hlen|]. intros Heq.
    destruct (Hstart Heq) as (_ & _ & _ & _ & Hrun).
    rewrite Hrun in Hc. discriminate.
Qed.

(** *** The invariants hold in every state *)

Lemma outside_Some (d p : string) (files : gmap string (list Byte.byte))
    (c : list Byte.byte) :
  outside d files !! p = Some c <->
  files !! p = Some c /\ strings.HasPrefix p (d +:+ "/") = false.
Proof. unfold outside. now rewrite map_lookup_filter_Some. Qed.

Lemma outside_lookup (d p : string) (files : gmap string (list Byte.byte)) :
  strings.HasPrefix p (d +:+ "/") = false -> outside d files !! p = files !! p.
Proof.
  intros Hp. destruct (files !! p) as [c|] eqn:E.
  - now apply outside_Some.
  - destruct (outside d files !! p) as [c|] eqn:E'; [|reflexivity].
    apply outside_Some in E' as [E' _]. congruence.
Qed.

Lemma run_inv_init : (1 <= pflag e)%Z -> run_inv e (init e).
Proof.
  intros Hp. unfold init. destruct (Z.ltb_spec (pflag e) 1); [lia|].
  destruct (mkdir e) as [x|d]; [exact I|].
  unfold run_inv. cbn [at_pc]. exists []. cbn [app alloc_list List.map urls tmpdir].
  split; [reflexivity|]. split; [reflexivity|]. split; [|split; [|reflexivity]].
  - intros u. unfold filemap_read. cbn [w filemap w_set_fs world0].
    rewrite lookup_empty. cbn.
    split; [reflexivity|]. split; [reflexivity|]. intros a Ha. inversion Ha.
  - intros p [c Hc] Hin. cbn [w fs w_set_fs tmpdir] in Hc, Hin.
    apply outside_Some in Hc as [_ Hc]. congruence.
Qed.

Lemma tmpdir_finish (i : nat) (s s' : state) :
  finish_step e i s = Some s' -> tmpdir s' = tmpdir s.
Proof.
  unfold finish_step.
  destruct (running s !! i) as [[url0 f0]|]; [|discriminate].
  destruct (getUrl _ _ _ _ _ _); [|discriminate].
  destruct (_ <=? _)%Z; [|discriminate].
  now intros [= <-].
Qed.

Lemma run_inv_reachable (d : string) (s : state) :
  env_wf e -> (1 <= pflag e)%Z -> mkdir e = inr d ->
  NoDup (List.map a_tmp (alloc_list d (calls e))) ->
  reachable e s ->
  conc_inv e s /\ run_inv e s /\ tmpdir s = d.
Proof.
  intros Hwf Hp Hmk Hnd Hr. induction Hr as [|l s s' Hr IH Hs].
  - split; [now apply conc_inv_init|]. split; [now apply run_inv_init|].
    unfold init. destruct (Z.ltb_spec (pflag e) 1); [lia|]. now rewrite Hmk.
  - destruct IH as (Hc & Hi & Hd). destruct Hwf as [Hmax Hargs].
    destruct l as [|i]; cbn in Hs.
    + split; [eapply conc_inv_main; eauto; lia|].
      split; [eapply run_inv_main; eauto; now split|].
      now rewrite (tmpdir_main _ _ Hs).
    + split; [eapply conc_inv_finish; eauto|].
      split; [eapply run_inv_finish; eauto; now rewrite Hd|].
      now rewrite (tmpdir_finish _ _ _ Hs).
Qed.

(** *** The renames of the publisher *)

Lemma os_Rename_other (fault : string -> string -> option error)
    (o d k : string) (files : gmap string (list Byte.byte)) :
  k <> o -> k <> d -> fst (os_Rename fault o d files) !! k = files !! k.
Proof.
  intros Ho Hd. unfold os_Rename.
  destruct (files !! o); [|reflexivity]. destruct (fault o d); [reflexivity|].
  cbn. rewrite lookup_insert_ne, lookup_delete_ne by auto. reflexivity.
Qed.

Lemma os_Rename_dest (fault : string -> string -> option error)
    (o d : string) (files : gmap string (list Byte.byte)) (c : list Byte.byte) :
  fault o d = None -> files !! o = Some c ->
  fst (os_Rename fault o d files) !! d = Some c.
Proof.
  intros Hf Ho. unfold os_Rename. rewrite Ho, Hf. cbn. apply lookup_insert_eq.
Qed.

Lemma os_Rename_source (fault : string -> string -> option error)
    (o d : string) (files : gmap string (list Byte.byte)) :
  fault o d = None -> o <> d -> fst (os_Rename fault o d files) !! o = None.
Proof.
  intros Hf Hne. unfold os_Rename. destruct (files !! o) eqn:Ho; [|exact Ho].
  rewrite Hf. cbn. rewrite lookup_insert_ne by auto. apply lookup_delete_eq.
Qed.

Lemma apply_renames_cons (fault : string -> string -> option error)
    (c : string * string) (log : list (string * string))
    (files : gmap string (list Byte.byte)) :
  apply_renames fault (c :: log) files =
  apply_renames fault log (fst (os_Rename fault (fst c) (snd c) files)).
Proof. reflexivity. Qed.

Lemma apply_renames_app (fault : string -> string -> option error)
    (l1 l2 : list (string * string)) (files : gmap string (list Byte.byte)) :
  apply_renames fault (l1 ++ l2) files =
  apply_renames fault l2 (apply_renames fault l1 files).
Proof. unfold apply_renames. apply fold_left_app. Qed.

Lemma apply_renames_other (fault : string -> string -> option error)
    (log : list (string * string)) (k : string) (files : gmap string (list Byte.byte)) :
  (forall c, c ∈ log -> k <> fst c /\ k <> snd c) ->
  apply_renames fault log files !! k = files !! k.
Proof.
  revert files. induction log as [|c log IH]; intros files H; [reflexivity|].
  rewrite apply_renames_cons, IH.
  - destruct (H c) as [H1 H2]; [apply elem_of_cons; now left|].
    now apply os_Rename_other.
  - intros c' Hc'. apply H, elem_of_cons. now right.
Qed.

(** What exists after the renames existed before and was not renamed, or
    is a destination. *)
Lemma apply_renames_keys (fault : string -> string -> option error)
    (log : list (string * string)) (k : string) (files : gmap string (list Byte.byte)) :
  (forall c, c ∈ log -> fault (fst c) (snd c) = None) ->
  (forall c c', c ∈ log -> c' ∈ log -> fst c <> snd c') ->
  is_Some (apply_renames fault log files !! k) ->
  (is_Some (files !! k) /\ k ∉ List.map fst log) \/ k ∈ List.map snd log.
Proof.
  revert files. induction log as [|c log IH]; intros files Hf Hsd Hk.
  - left. split; [exact Hk|]. cbn. intros H. inversion H.
  - rewrite apply_renames_cons in Hk. apply IH in Hk as [[Hk Hns]|Hk].
    + destruct (decide (k = snd c)) as [->|Hd].
      { right. cbn. apply elem_of_cons. now left. }
      destruct (decide (k = fst c)) as [->|Ho].
      { rewrite os_Rename_source in Hk.
        - destruct Hk as [? Hk]. discriminate.
        - apply Hf, elem_of_cons. now left.
        - apply Hsd; apply elem_of_cons; now left. }
      rewrite os_Rename_other in Hk by auto.
      left. split; [exact Hk|]. cbn. intros H.
      apply elem_of_cons in H as [H|H]; contradiction.
    + right. cbn. apply elem_of_cons. now right.
    + intros c' Hc'. apply Hf, elem_of_cons. now right.
    + intros c1 c2 H1 H2. apply Hsd; apply elem_of_cons; now right.
Qed.

(** A file renamed onto [d] is what [d] holds at the end when no later
    rename goes onto [d]. *)
Lemma apply_renames_last (fault : string -> string -> option error)
    (pre post : list (string * string)) (o d : string)
    (files : gmap string (list Byte.byte)) (c : list Byte.byte) :
  NoDup (List.map fst (pre ++ (o, d) :: post)) ->
  (forall c1 c2, c1 ∈ pre ++ (o, d) :: post -> c2 ∈ pre ++ (o, d) :: post ->
                 fst c1 <> snd c2) ->
  fault o d = None ->
  d ∉ List.map snd post ->
  files !! o = Some c ->
  apply_renames fault (pre ++ (o, d) :: post) files !! d = Some c.
Proof.
  intros Hnd Hsd Hf Hlast Ho.
  assert (Hmid : (o, d) ∈ pre ++ (o, d) :: post).
  { apply elem_of_app. right. apply elem_of_cons. now left. }
  rewrite apply_renames_app, apply_renames_cons. cbn [fst snd].
  rewrite apply_renames_other.
  - apply os_Rename_dest; [exact Hf|].
    rewrite apply_renames_other; [exact Ho|].
    intros c1 Hc1. split.
    + rewrite map_app in Hnd. cbn in Hnd. apply NoDup_app in Hnd as (_ & Hdis & _).
      intros Heq. apply (Hdis (fst c1)).
      * now apply elem_of_map.
      * rewrite <- Heq. apply elem_of_cons. now left.
    + intros Heq. apply (Hsd (o, d) c1 Hmid); [|exact Heq].
      apply elem_of_app. now left.
  - intros c2 Hc2. split.
    + intros Heq. apply (Hsd c2 (o, d)); [|exact Hmid | now rewrite <- Heq].
      apply elem_of_app. right. apply elem_of_cons. now right.
    + intros Heq. apply Hlast. rewrite Heq. now apply elem_of_map.
Qed.

(** The loop of the publisher on the registry of the allocations [A]. *)
Lemma publish_loop_exact (fault : string -> string -> option error)
    (er : option error) (A A_done : list alloc) (w0 : world) :
  regs_ok A A_done (filemap w0) ->
  exists w',
    publish_loop fault er (List.map a_url A) w0 = Some w' /\
    renamed w' = renamed w0 ++ List.map (fun a => (a_tmp a, a_name a)) A /\
    fs w' = apply_renames fault (List.map (fun a => (a_tmp a, a_name a)) A) (fs w0).
Proof.
  revert w0. induction A as [|a A IH]; intros w0 Hreg.
  - exists w0. cbn. now rewrite app_nil_r.
  - destruct (Hreg (a_url a)) as (Ht & _ & Hname).
    rewrite filter_cons_True in Ht by reflexivity. cbn [List.map] in Ht.
    destruct (rename_Some fault er (a_url a) w0 _ _ Ht)
      as (w1 & Hr & Hm & Hfs & Hlog & _).
    rewrite (Hname a) in Hm, Hfs, Hlog by (try reflexivity; apply elem_of_cons; now left).
    destruct (IH w1) as (w' & Hp & Hlog' & Hfs').
    { intros u. rewrite Hm, filemap_read_insert.
      destruct (Hreg u) as (Ht' & Hn' & Hname').
      destruct (decide (a_url a = u)) as [<-|Hne]; cbn [tmpfiles n name].
      - split; [reflexivity|]. split; [exact Hn'|].
        intros b Hb Hu. rewrite <- (Hname' b); [|apply elem_of_cons; now right | exact Hu].
        symmetry. apply Hname'; [apply elem_of_cons; now left | reflexivity].
      - rewrite filter_cons_False in Ht' by exact Hne.
        split; [exact Ht'|]. split; [exact Hn'|].
        intros b Hb Hu. apply Hname'; [apply elem_of_cons; now right | exact Hu]. }
    exists w'. cbn [List.map publish_loop]. rewrite Hr.
    split; [exact Hp|]. split.
    + now rewrite Hlog', Hlog, <- app_assoc.
    + rewrite Hfs', Hfs. now rewrite apply_renames_cons.
Qed.

(** A run that exits before the allocation stays where it is. *)
Lemma exited_at_once (s : state) :
  at_pc (init e) = Exited 1 -> reachable e s -> at_pc s = Exited 1 /\ running s = [].
Proof.
  intros Hinit Hr. induction Hr as [|l s s' Hr [IH1 IH2] Hs].
  - split; [exact Hinit|]. unfold init.
    destruct (pflag e <? 1)%Z; [reflexivity|]. now destruct (mkdir e).
  - destruct l as [|i]; cbn in Hs.
    + unfold main_step in Hs. rewrite IH1 in Hs. discriminate.
    + unfold finish_step in Hs. rewrite IH2 in Hs. discriminate.
Qed.

Lemma publisher_started (s : state) (l : list string) :
  reachable e s -> at_pc s = AtPublish l ->
  (1 <= pflag e)%Z /\ mkdir e = inr (tmpdir s).
Proof.
  intros Hr Epc.
  assert (Hne : at_pc (init e) <> Exited 1).
  { intros Hinit. destruct (exited_at_once s Hinit Hr) as [H _]. congruence. }
  assert (Hd : forall s0, reachable e s0 -> tmpdir s0 = tmpdir (init e)).
  { intros s0 H0. induction H0 as [|l0 s0 s1 _ IH Hs]; [reflexivity|].
    destruct l0; cbn in Hs;
      [rewrite (tmpdir_main _ _ Hs) | rewrite (tmpdir_finish _ _ _ Hs)]; exact IH. }
  rewrite (Hd s Hr). unfold init in *.
  destruct (Z.ltb_spec (pflag e) 1); [now destruct Hne|].
  destruct (mkdir e); [now destruct Hne|]. split; [lia | reflexivity].
Qed.

End WholeRun.

Section PublishedBody.

(** The scenario of 10000 bytes: the run exits with status 0, [a.txt]
    holds the 10000 bytes, and nothing else is left. *)
Example scenario_10000_bytes :
  at_pc (after run_10000 (sched_once_published ++ [Main])) = Exited 0 /\
  fs (w (after run_10000 (sched_once_published ++ [Main]))) !! "a.txt"
    = Some (List.repeat Byte.x2a (100 * 100)) /\
  size (fs (w (after run_10000 (sched_once_published ++ [Main])))) = 1%nat /\
  stderr (w (after run_10000 (sched_once_published ++ [Main]))) = [].
Proof. vm_compute. auto. Qed.

End PublishedBody.


(* ===================================================================== *)
(** * Part III. Further properties of the code                            *)
(* ===================================================================== *)

(** ** [prepUrl]: the URL and the end-file name *)

Section MoreOnNames.

Lemma prefix_app_self (p r : string) : String.prefix p (p +:+ r) = true.
Proof.
  induction p as [|c p IH]; [now destruct r|].
  rewrite app_String, prefix_cons. now destruct (ascii_dec c c).
Qed.

(** X1.  Lines 94-96 put a scheme in front of a URL that has none and
    leave the others alone: the result always starts with [http://] or
    [https://], and doing it twice is doing it once. *)
Theorem normalize_idempotent (url : string) :
  (strings.HasPrefix (normalize url) "http://"
     || strings.HasPrefix (normalize url) "https://") = true /\
  normalize (normalize url) = normalize url /\
  ((strings.HasPrefix url "http://" || strings.HasPrefix url "https://") = false ->
   normalize url = "http://" +:+ url).
Proof.
  assert (H : (strings.HasPrefix (normalize url) "http://"
                 || strings.HasPrefix (normalize url) "https://") = true).
  { unfold normalize.
    destruct (strings.HasPrefix url "http://" || strings.HasPrefix url "https://")
      eqn:E; [exact E|].
    unfold strings.HasPrefix. now rewrite prefix_app_self. }
  split; [exact H|]. split.
  - unfold normalize at 1. now rewrite H.
  - intros E. unfold normalize. now rewrite E.
Qed.

(** X2.  Whatever the URL, lines 101-109 give a name that is not empty and
    has no slash in it: [os.CreateTemp] finds no path separator in the
    pattern, and [os.Rename] looks the name up in the current directory
    itself.  The name need not be that of a file, though: for a URL that
    ends in [/.] or [/..] it is [.] or [..], the directory itself or its
    parent. *)
Theorem derive_fname_is_a_file_name (url : string) :
  derive_fname url <> "" /\ no_slash (derive_fname url) = true /\
  derive_fname "http://example.com/." = "." /\
  derive_fname "http://example.com/d/.." = "..".
Proof.
  split; [|split; [apply derive_fname_no_slash | split; reflexivity]].
  unfold derive_fname.
  destruct (strings.Cut url "://") as [[b1 f1] r1].
  destruct (strings.Cut f1 "/") as [[b2 f2] r2].
  destruct (String.eqb_spec (List.last (strings.Split f2 "/") "") "") as [_|Hne];
    [intros H; discriminate H | exact Hne].
Qed.

Lemma derive_fname_of_path (url rest path : string) :
  url = "http://" +:+ rest \/ url = "https://" +:+ rest ->
  path_after_host rest path ->
  derive_fname url =
    if String.eqb (List.last (strings.Split path "/") "") "" then "index.html"
    else List.last (strings.Split path "/") "".
Proof.
  intros Hurl Hpath. unfold derive_fname.
  assert (Hcut : snd (fst (strings.Cut url "://")) = rest).
  { destruct Hurl as [-> | ->];
      [rewrite Cut_scheme_http | rewrite Cut_scheme_https]; reflexivity. }
  destruct (strings.Cut url "://") as [[b1 f1] r1]. cbn in Hcut. subst f1.
  pose proof (Cut_slash_path_unique _ _ Hpath) as Hp.
  destruct (strings.Cut rest "/") as [[b2 f2] r2]. cbn in Hp. now subst f2.
Qed.

(** X3.  The end-file name depends on the path only: two URLs with the
    same path after the host get the same name, whatever their schemes
    and hosts (so their downloads are published under one name). *)
Theorem same_path_same_name (url1 rest1 url2 rest2 path : string) :
  url1 = "http://" +:+ rest1 \/ url1 = "https://" +:+ rest1 ->
  url2 = "http://" +:+ rest2 \/ url2 = "https://" +:+ rest2 ->
  path_after_host rest1 path -> path_after_host rest2 path ->
  derive_fname url1 = derive_fname url2.
Proof.
  intros H1 H2 P1 P2.
  now rewrite (derive_fname_of_path _ _ _ H1 P1), (derive_fname_of_path _ _ _ H2 P2).
Qed.

Lemma same_path_same_name_witness :
  derive_fname "http://a.org/x/f.txt" = derive_fname "https://b.net/x/f.txt".
Proof.
  apply (same_path_same_name
           "http://a.org/x/f.txt" "a.org/x/f.txt"
           "https://b.net/x/f.txt" "b.net/x/f.txt" "x/f.txt").
  - left. reflexivity.
  - right. reflexivity.
  - right. exists "a.org". split; reflexivity.
  - right. exists "b.net". split; reflexivity.
Defined.

End MoreOnNames.

(** ** [getUrl]: what it prints, removes and leaves *)

Section MoreOnGetUrl.

Variable fe : fetch_env.
Variable f : string.

Lemma quiet_refl g : quiet g g.
Proof. repeat split; auto. Qed.

Lemma quiet_trans g1 g2 g3 : quiet g1 g2 -> quiet g2 g3 -> quiet g1 g3.
Proof.
  intros (H1 & H2 & H3 & H4 & H5) (K1 & K2 & K3 & K4 & K5).
  do 4 (split; [congruence|]).
  intros Hl. rewrite K5, H5; auto. congruence.
Qed.

Lemma fp_Write_quiet p g : quiet g (snd (fp_Write fe f p g)).
Proof.
  unfold fp_Write. destruct (fe_write fe (g_nwrites g)); cbn.
  - repeat split; auto.
  - do 4 (split; [reflexivity|]). now intros ->.
Qed.

Lemma Flush_quiet b g : quiet g (snd (bufio.Flush fe f b g)).
Proof.
  unfold bufio.Flush. destruct (bufio.err b); [apply quiet_refl|].
  destruct (bufio.Buffered b =? 0)%nat; [apply quiet_refl|].
  pose proof (fp_Write_quiet (bufio.buf b) g) as H.
  destruct (fp_Write fe f (bufio.buf b) g) as [[nw werr] g'].
  destruct (_ && _); [exact H|]. destruct werr; exact H.
Qed.

Lemma Write_loop_quiet rounds b p g :
  quiet g (snd (bufio.Write_loop rounds fe f b p g)).
Proof.
  revert b p g. induction rounds as [|k IH]; intros b p g; [apply quiet_refl|].
  cbn [bufio.Write_loop]. destruct (_ && _); [|apply quiet_refl].
  destruct (bufio.Buffered b =? 0)%nat.
  - pose proof (fp_Write_quiet p g) as H.
    destruct (fp_Write fe f p g) as [[nw werr] g'].
    eapply quiet_trans; [exact H | apply IH].
  - match goal with |- context [bufio.Flush fe f ?b1 g] =>
      pose proof (Flush_quiet b1 g) as H;
      destruct (bufio.Flush fe f b1 g) as [[r b2] g'] end.
    eapply quiet_trans; [exact H | apply IH].
Qed.

Lemma Write_quiet b p g : quiet g (snd (bufio.Write fe f b p g)).
Proof.
  unfold bufio.Write. pose proof (Write_loop_quiet 2 b p g) as H.
  destruct (bufio.Write_loop 2 fe f b p g) as [[b' p'] g'].
  destruct (bufio.err b'); exact H.
Qed.

(** The loop prints to the standard error once at most, and then it has
    removed [f]. *)
Lemma copy_loop_report steps outer reader writer g writer' g' :
  copy_loop steps fe f outer reader writer g = Some (writer', g') ->
  g_stdout g' = g_stdout g /\
  (g_stderr g' = g_stderr g \/
   (exists x, g_stderr g' = g_stderr g ++ [x]) /\
   g_live g' = false /\ g_fs g' !! f = None).
Proof.
  revert reader writer g.
  induction steps as [|k IH]; intros reader writer g; [discriminate|].
  cbn [copy_loop].
  destruct (bool_decide (outer = None)); [|intros [= <- <-]; auto].
  destruct (ReadFull reader 4096) as [[chunk readErr] reader'].
  destruct (bool_decide (readErr = Some EOF)); [intros [= <- <-]; auto|].
  destruct (_ && _).
  { intros [= <- <-]. split; [reflexivity|]. right. cbn.
    split; [eauto|]. split; [reflexivity | apply lookup_delete_eq]. }
  pose proof (Write_quiet writer chunk g) as H.
  destruct (bufio.Write fe f writer chunk g) as [[writeErr w1] g1].
  cbn [snd] in H. destruct H as (H1 & H2 & H3 & H4 & H5).
  destruct writeErr.
  - intros [= <- <-]. split; [cbn; exact H1|]. right. cbn. rewrite H2.
    split; [eauto|]. split; [reflexivity | apply lookup_delete_eq].
  - intros Hk. apply IH in Hk as [K1 K2]. rewrite H1, H2 in *. auto.
Qed.

(** X4.  [getUrl] works on the file [f] it was given and on no other: when
    it returns, every other path holds what it held before. *)
Theorem getUrl_touches_only_its_file
    (steps : nat) (qf : bool) (url : string) (g g' : gstate) (q : string) :
  getUrl steps qf fe url f g = Some g' -> q <> f ->
  g_fs g' !! q = g_fs g !! q.
Proof. intros H Hq. apply getUrl_frame in H as [_ H]. now apply H. Qed.

(** X5.  Whenever [getUrl] prints to the standard error it removes its
    file: when it returns, either it has printed no error, or it has
    printed exactly one and the path [f] names no file any more. *)
Theorem getUrl_error_removes_file
    (steps : nat) (qf : bool) (url : string) (g g' : gstate) :
  getUrl steps qf fe url f g = Some g' ->
  g_stderr g' = g_stderr g \/
  ((exists x, g_stderr g' = g_stderr g ++ [x]) /\ g_fs g' !! f = None).
Proof.
  unfold getUrl, getUrl_body.
  set (g0 := if negb qf then g_println ("GET " +:+ url) g else g).
  assert (H0 : g_stderr g0 = g_stderr g) by (subst g0; now destruct (negb qf)).
  destruct (fe_create fe) as [x|].
  { intros [= <-]. right. cbn. rewrite H0.
    split; [eauto | apply lookup_delete_eq]. }
  destruct (fe_get fe) as [x|resp_Body].
  { intros [= <-]. right. cbn. rewrite H0.
    split; [eauto | apply lookup_delete_eq]. }
  destruct (copy_loop _ _ _ _ _ _ _) as [[writer g1]|] eqn:Hloop; [|discriminate].
  apply copy_loop_report in Hloop as [_ Hloop]. cbn in Hloop. rewrite H0 in Hloop.
  pose proof (Flush_quiet writer g1) as Hq.
  destruct (bufio.Flush fe f writer g1) as [[r b2] g2]. cbn [snd] in Hq.
  destruct Hq as (_ & Q2 & _ & _ & Q5).
  intros [= <-]. cbn [List.fold_left run_deferred].
  change (g_stderr (g_send (g_close g2))) with (g_stderr g2).
  change (g_fs (g_send (g_close g2))) with (g_fs g2).
  rewrite Q2. destruct Hloop as [Hl|(Hx & Hlive & Hf)]; [now left|].
  right. split; [exact Hx|]. now rewrite (Q5 Hlive).
Qed.

(** X6.  What [getUrl] prints to the standard output: the line [GET url]
    unless the flag [-q] is set, and, flag or no flag, the line
    [created f] when [os.Create] succeeded; nothing else. *)
Theorem getUrl_stdout
    (steps : nat) (qf : bool) (url : string) (g g' : gstate) :
  getUrl steps qf fe url f g = Some g' ->
  g_stdout g' =
    g_stdout g
      ++ (if qf then [] else ["GET " +:+ url])
      ++ (match fe_create fe with None => ["created " +:+ f] | Some _ => [] end).
Proof.
  unfold getUrl, getUrl_body.
  set (g0 := if negb qf then g_println ("GET " +:+ url) g else g).
  assert (H0 : g_stdout g0 = g_stdout g ++ (if qf then [] else ["GET " +:+ url])).
  { subst g0. destruct qf; cbn; [now rewrite app_nil_r | reflexivity]. }
  destruct (fe_create fe) as [x|].
  { intros [= <-]. cbn. now rewrite H0, app_nil_r. }
  destruct (fe_get fe) as [x|resp_Body].
  { intros [= <-]. cbn. now rewrite H0, <- app_assoc. }
  destruct (copy_loop _ _ _ _ _ _ _) as [[writer g1]|] eqn:Hloop; [|discriminate].
  apply copy_loop_report in Hloop as [Hloop _]. cbn in Hloop.
  pose proof (Flush_quiet writer g1) as Hq.
  destruct (bufio.Flush fe f writer g1) as [[r b2] g2]. cbn [snd] in Hq.
  destruct Hq as (Q1 & _).
  intros [= <-]. cbn [List.fold_left run_deferred].
  change (g_stdout (g_send (g_close g2))) with (g_stdout g2).
  now rewrite Q1, Hloop, H0, <- app_assoc.
Qed.

End MoreOnGetUrl.

Section MoreOnGetUrlWitnesses.

Lemma getUrl_touches_only_its_file_witness :
  g_fs (default g_sample
          (getUrl 5 true (fetch_ok [Byte.x01]) "u" "t" g_sample)) !! "other"
  = g_fs g_sample !! "other".
Proof.
  apply (getUrl_touches_only_its_file (fetch_ok [Byte.x01]) "t" 5 true "u" g_sample).
  - vm_compute. reflexivity.
  - intros H. discriminate H.
Defined.

Lemma getUrl_error_removes_file_witness :
  g_stderr (default g_sample (getUrl 0 true fetch_get_fails "u" "t" g_sample))
    = g_stderr g_sample \/
  ((exists x,
       g_stderr (default g_sample (getUrl 0 true fetch_get_fails "u" "t" g_sample))
       = g_stderr g_sample ++ [x]) /\
   g_fs (default g_sample (getUrl 0 true fetch_get_fails "u" "t" g_sample)) !! "t"
     = None).
Proof.
  apply (getUrl_error_removes_file fetch_get_fails "t" 0 true "u" g_sample).
  vm_compute. reflexivity.
Defined.

Lemma getUrl_stdout_witness :
  g_stdout (default g_sample (getUrl 5 true (fetch_ok [Byte.x01]) "u" "t" g_sample))
  = g_stdout g_sample ++ [] ++ ["created t"].
Proof.
  apply (getUrl_stdout (fetch_ok [Byte.x01]) "t" 5 true "u" g_sample).
  vm_compute. reflexivity.
Defined.

End MoreOnGetUrlWitnesses.

(** ** [getUrl]: the unchecked [Flush] and the loop that does not end *)

Section GetUrlEdges.

Variable fe : fetch_env.
Variable f : string.



(** On a body whose transport answers [io.ErrUnexpectedEOF] at its end and
    goes on doing so, the loop does not end so long as the writes
    succeed. *)
Lemma copy_loop_never_ends steps data writer g :
  (forall k, fe_write fe k = None) ->
  bufio.err writer = None -> g_live g = true ->
  copy_loop steps fe f None {| b_data := data; b_end := ErrUnexpectedEOF |} writer g
    = None.
Proof.
  intros Hw. revert data writer g.
  induction steps as [|k IH]; intros data writer g He Hl; [reflexivity|].
  cbn [copy_loop]. rewrite bool_decide_eq_true_2 by reflexivity.
  destruct (le_lt_dec 4096 (length data)) as [Hfull|Hshort].
  - rewrite ReadFull_full by exact Hfull. cbn [b_data b_end].
    rewrite bool_decide_eq_false_2 by discriminate.
    rewrite (bool_decide_eq_false_2 (None <> None)) by congruence.
    cbn [andb].
    destruct (Write_ok fe f Hw writer (List.firstn 4096 data) g He Hl)
      as (w1 & g1 & -> & He1 & Hc1 & _).
    apply IH; [exact He1|]. destruct Hc1 as (_ & _ & -> & _). exact Hl.
  - rewrite ReadFull_short by exact Hshort. cbn [b_data b_end].
    rewrite (bool_decide_eq_false_2 (ErrUnexpectedEOF = EOF)) by discriminate.
    rewrite andb_false_r.
    rewrite bool_decide_eq_false_2 by discriminate.
    rewrite (bool_decide_eq_false_2 (Some ErrUnexpectedEOF <> Some ErrUnexpectedEOF))
      by congruence.
    rewrite andb_false_r.
    destruct (Write_ok fe f Hw writer data g He Hl)
      as (w1 & g1 & -> & He1 & Hc1 & _).
    apply copy_loop_spins. exact He1.
Qed.

(** X8.  The loop of lines 72-89 is left by [break] only (its condition
    reads a variable that line 73 shadows), and line 77 lets
    [io.ErrUnexpectedEOF] pass.  So when the transport ends the body with
    [io.ErrUnexpectedEOF] and goes on answering it, and no write fails,
    [getUrl] never returns, however many iterations it is given. *)
Theorem getUrl_never_returns
    (qf : bool) (url : string) (data : list Byte.byte) (g : gstate) (steps : nat) :
  fe_create fe = None ->
  fe_get fe = inr {| b_data := data; b_end := ErrUnexpectedEOF |} ->
  (forall k, fe_write fe k = None) ->
  getUrl steps qf fe url f g = None.
Proof.
  intros Hc Hg Hw. unfold getUrl, getUrl_body. rewrite Hc, Hg.
  now rewrite copy_loop_never_ends.
Qed.

End GetUrlEdges.

Section GetUrlEdgesWitnesses.


Lemma getUrl_never_returns_witness :
  getUrl 50 true fetch_cut_short "u" "t" g_sample = None.
Proof.
  apply (getUrl_never_returns fetch_cut_short "t" true "u"
           [Byte.x01; Byte.x02; Byte.x03] g_sample 50).
  - reflexivity.
  - reflexivity.
  - intros k. reflexivity.
Defined.

End GetUrlEdgesWitnesses.

(** ** [main]: setup, allocation and dispatch *)

Section MoreOnMain.

Variable e : env.

(** X9.  With [-p] below 1, or when [os.MkdirTemp] fails, the run is over
    at once: it has exited with status 1 after one line on the standard
    error, and nothing else ever happens: no URL is allocated, no file is
    created, no goroutine is launched. *)
Theorem setup_failure_exits_at_once (s : state) :
  (pflag e < 1)%Z \/ (exists x, mkdir e = inl x) ->
  reachable e s ->
  s = init e /\ at_pc s = Exited 1 /\ (exists x, stderr (w s) = [x]) /\
  fs (w s) = files0 e /\ filemap (w s) = ∅ /\ urls s = [] /\ running s = [].
Proof.
  intros Hfail Hr.
  assert (Hinit : at_pc (init e) = Exited 1 /\ (exists x, stderr (w (init e)) = [x]) /\
                  fs (w (init e)) = files0 e /\ filemap (w (init e)) = ∅ /\
                  urls (init e) = [] /\ running (init e) = []).
  { unfold init. destruct (Z.ltb_spec (pflag e) 1); [cbn; eauto 10|].
    destruct Hfail as [Hp|[x Hx]]; [lia|]. rewrite Hx. cbn. eauto 10. }
  assert (Hs : s = init e).
  { induction Hr as [|l s s' Hr IH Hs]; [reflexivity|].
    subst s. destruct Hinit as (Hpc & _ & _ & _ & _ & Hrun).
    destruct l as [|i]; cbn in Hs.
    - unfold main_step in Hs. rewrite Hpc in Hs. discriminate.
    - unfold finish_step in Hs. rewrite Hrun in Hs. discriminate. }
  subst s. split; [reflexivity | exact Hinit].
Qed.

(** A run that has not exited with status 1 got through the setup. *)
Lemma run_started (s : state) :
  reachable e s -> at_pc s <> Exited 1 ->
  (1 <= pflag e)%Z /\ mkdir e = inr (tmpdir s).
Proof.
  intros Hr Hne.
  assert (Hne0 : at_pc (init e) <> Exited 1).
  { intros Hinit. destruct (exited_at_once e s Hinit Hr) as [H _]. congruence. }
  assert (Hd : forall s0, reachable e s0 -> tmpdir s0 = tmpdir (init e)).
  { intros s0 H0. induction H0 as [|l0 s0 s1 _ IH Hs]; [reflexivity|].
    destruct l0; cbn in Hs;
      [rewrite (tmpdir_main _ _ _ Hs) | rewrite (tmpdir_finish _ _ _ _ Hs)]; exact IH. }
  rewrite (Hd s Hr). unfold init in *.
  destruct (Z.ltb_spec (pflag e) 1); [now destruct Hne0|].
  destruct (mkdir e); [now destruct Hne0|]. split; [lia | reflexivity].
Qed.

Lemma run_invariants (s : state) :
  env_wf e ->
  NoDup (List.map a_tmp (alloc_list (tmpdir s) (calls e))) ->
  reachable e s -> at_pc s <> Exited 1 ->
  conc_inv e s /\ run_inv e s /\ reg_inv e s.
Proof.
  intros Hwf Hnd Hr Hne.
  destruct (run_started s Hr Hne) as [Hp Hmk].
  destruct (run_inv_reachable e (tmpdir s) s Hwf Hp Hmk Hnd Hr) as (Hc & Hi & _).
  split; [exact Hc|]. split; [exact Hi|]. now apply reg_inv_reachable.
Qed.

(** X10.  When the allocation loop is over, and until the publisher
    starts, the dispatch list and the registry hold exactly what was
    allocated: the list holds the normalized URL of every argument whose
    [os.CreateTemp] succeeded, in the order of the arguments; the entry of a
    URL queues the temporary files allocated for it, in that order; and its
    end-file name is the one derived from the URL. *)
Theorem registry_after_allocation (s : state) :
  env_wf e ->
  NoDup (List.map a_tmp (alloc_list (tmpdir s) (calls e))) ->
  reachable e s -> dispatching (at_pc s) = true ->
  urls s = List.map a_url (alloc_list (tmpdir s) (calls e)) /\
  (forall u,
      tmpfiles (filemap_read (filemap (w s)) u) =
      List.map a_tmp (filter (fun a => a_url a = u) (alloc_list (tmpdir s) (calls e)))) /\
  (forall a,
      a ∈ alloc_list (tmpdir s) (calls e) ->
      name (filemap_read (filemap (w s)) (a_url a)) = derive_fname (a_url a)).
Proof.
  intros Hwf Hnd Hr Hpc.
  destruct (run_invariants s Hwf Hnd Hr) as (_ & Hinv & _).
  { intros H. now rewrite H in Hpc. }
  unfold run_inv in Hinv.
  assert (H : urls s = List.map a_url (alloc_list (tmpdir s) (calls e)) /\
              exists A_done, regs_ok (alloc_list (tmpdir s) (calls e)) A_done
                               (filemap (w s))).
  { destruct (at_pc s) as [rest|rest|url rest| | | | |]; try discriminate.
    - destruct Hinv as (A_done & A_rest & HA & Hu & _ & Hreg & _).
      rewrite HA. eauto.
    - destruct Hinv as (A_done & a & A_rest & HA & Hu & _ & _ & Hreg & _).
      rewrite HA. eauto.
    - destruct Hinv as (Hu & Hreg & _). eauto. }
  destruct H as [Hu [A_done Hreg]].
  split; [exact Hu|]. split.
  - intros u. apply Hreg.
  - intros a Ha. destruct (Hreg (a_url a)) as (_ & _ & Hname).
    rewrite (Hname a Ha eq_refl).
    now destruct (alloc_list_elem _ _ _ Ha).
Qed.

End MoreOnMain.

Section MoreOnMainWitnesses.

Lemma registry_after_allocation_witness :
  urls (after run_twice sched_twice_launched)
    = List.map a_url
        (alloc_list (tmpdir (after run_twice sched_twice_launched)) (calls run_twice)) /\
  (forall u,
      tmpfiles (filemap_read (filemap (w (after run_twice sched_twice_launched))) u) =
      List.map a_tmp
        (filter (fun a => a_url a = u)
           (alloc_list (tmpdir (after run_twice sched_twice_launched))
              (calls run_twice)))) /\
  (forall a,
      a ∈ alloc_list (tmpdir (after run_twice sched_twice_launched)) (calls run_twice) ->
      name (filemap_read (filemap (w (after run_twice sched_twice_launched))) (a_url a))
        = derive_fname (a_url a)).
Proof.
  apply (registry_after_allocation run_twice (after run_twice sched_twice_launched)).
  - split; vm_compute; discriminate.
  - refine (bool_decide_unpack _ _). vm_compute. exact I.
  - apply after_reachable.
  - vm_compute. reflexivity.
Defined.

Lemma setup_failure_exits_at_once_witness :
  init run_p0 = init run_p0 /\ at_pc (init run_p0) = Exited 1 /\
  (exists x, stderr (w (init run_p0)) = [x]) /\
  fs (w (init run_p0)) = files0 run_p0 /\ filemap (w (init run_p0)) = ∅ /\
  urls (init run_p0) = [] /\ running (init run_p0) = [].
Proof.
  apply (setup_failure_exits_at_once run_p0 (init run_p0)).
  - left. reflexivity.
  - apply reachable_init.
Defined.

End MoreOnMainWitnesses.

(** ** [main]: the dispatcher, the publisher and the exit status *)

Section MoreOnDispatch.

Variable e : env.

(** X11.  The lookup of line 183 never misses, and the goroutine launched
    for an item of the dispatch list is given the temporary file that was
    allocated for this very item: when the main goroutine is about to
    launch for the item of position [k], its step launches
    [getUrl(url, f, ch)] with [url] and [f] those of the [k]-th
    allocation. *)
Theorem launch_follows_allocation (s : state) (url : string) (rest : list string) :
  env_wf e ->
  NoDup (List.map a_tmp (alloc_list (tmpdir s) (calls e))) ->
  reachable e s -> at_pc s = AtLaunch url rest ->
  exists a s',
    alloc_list (tmpdir s) (calls e) !! (length (urls s) - length rest - 1)%nat = Some a /\
    a_url a = url /\
    main_step e s = Some s' /\
    at_pc s' = AtDispatch rest /\
    running s' = running s ++ [(url, a_tmp a)].
Proof.
  intros Hwf Hnd Hr Epc.
  destruct (run_invariants e s Hwf Hnd Hr) as (_ & Hinv & _).
  { rewrite Epc. discriminate. }
  unfold run_inv in Hinv. rewrite Epc in Hinv.
  destruct Hinv as (A_done & a & A_rest & HA & Hu & -> & -> & Hreg & _).
  assert (Hmax : (Z.of_nat (length (A_done ++ a :: A_rest)) <= int_max)%Z).
  { rewrite <- HA. pose proof (alloc_list_length (tmpdir s) (calls e)).
    destruct Hwf as [_ Hargs]. lia. }
  assert (Hk : (length (urls s) - length (List.map a_url A_rest) - 1)%nat
               = length A_done).
  { rewrite Hu, !length_map, length_app. cbn [length]. lia. }
  exists a. unfold main_step. rewrite Epc.
  destruct (filemap (w s) !! a_url a) as [fmentry|] eqn:Em.
  - destruct (regs_ok_launch A_done A_rest a _ fmentry Hmax Em Hreg) as [Hidx _].
    rewrite Hidx. eexists. split; [|split; [reflexivity|]].
    + rewrite Hk, HA. now apply list_lookup_middle.
    + split; [reflexivity|]. split; reflexivity.
  - destruct (Hreg (a_url a)) as (Ht & _).
    unfold filemap_read in Ht. rewrite Em in Ht. cbn in Ht.
    rewrite filter_app, filter_cons_True in Ht by reflexivity.
    rewrite map_app in Ht. cbn in Ht.
    symmetry in Ht. apply app_eq_nil in Ht as [_ Ht]. discriminate.
Qed.

(** X12.  When the dispatcher has gone through its list, every queued
    temporary file has been dispatched: in every entry [n] equals
    [len(tmpfiles)], the number of occurrences of the URL on the list. *)
Theorem all_dispatched_at_drain (s : state) (u : string) :
  env_wf e -> reachable e s -> at_pc s = AtDrain ->
  n (filemap_read (filemap (w s)) u)
    = Z.of_nat (length (tmpfiles (filemap_read (filemap (w s)) u))) /\
  length (tmpfiles (filemap_read (filemap (w s)) u)) = count u (urls s).
Proof.
  intros Hwf Hr Epc.
  destruct (reg_inv_reachable e s Hwf Hr) as [_ Hpc]. rewrite Epc in Hpc.
  destruct (Hpc u) as [Hq Hn]. split; [now rewrite Hn, Hq | exact Hq].
Qed.

(** Until the publisher renames, no [os.Rename] has been called; and the
    publisher calls it once for each item it has gone through. *)
Lemma renamed_count (s : state) :
  reachable e s ->
  match at_pc s with
  | AtAlloc _ | AtDispatch _ | AtLaunch _ _ | AtDrain => renamed (w s) = []
  | AtPublish rest =>
      (length (renamed (w s)) + length rest)%nat = length (urls s)
  | _ => True
  end.
Proof.
  intros Hr. induction Hr as [|l s s' Hr IH Hs].
  - unfold init. destruct (pflag e <? 1)%Z; [exact I|].
    destruct (mkdir e); [exact I | reflexivity].
  - destruct l as [|i]; cbn in Hs.
    + unfold main_step in Hs.
      destruct (at_pc s) as [[|[arg ct] rest]|[|url rest]|url rest| |[|url rest]| | |]
        eqn:Epc; try discriminate.
      * destruct (chan_refused e); [discriminate|].
        injection Hs as <-. exact IH.
      * unfold prepUrl in Hs. destruct ct; injection Hs as <-; exact IH.
      * injection Hs as <-. exact IH.
      * destruct (pflag e <=? routines s)%Z; [destruct (ch s); [discriminate|]|];
          injection Hs as <-; exact IH.
      * destruct (filemap (w s) !! url) as [fm|]; [|injection Hs as <-; exact IH].
        destruct (slice_index _ _); injection Hs as <-; [exact IH | exact I].
      * destruct (0 <? routines s)%Z; [destruct (ch s); [discriminate|]|];
          injection Hs as <-; cbn; [now rewrite Epc | now rewrite IH].
      * injection Hs as <-. exact I.
      * destruct (tmpfiles (filemap_read (filemap (w s)) url)) as [|tmp0 tl] eqn:Et.
        -- rewrite rename_None in Hs by exact Et. injection Hs as <-. exact I.
        -- destruct (rename_Some (rename_fault e) (err s) url (w s) tmp0 tl Et)
             as (w' & Hw & _ & _ & Hlog & _).
           rewrite Hw in Hs. injection Hs as <-. cbn. rewrite Hlog, length_app.
           cbn in IH |- *. lia.
      * destruct (dir_empty _ _); injection Hs as <-; exact I.
    + unfold finish_step in Hs.
      destruct (running s !! i) as [[url0 f0]|]; [|discriminate].
      destruct (getUrl _ _ _ _ _ _); [|discriminate].
      destruct (_ <=? _)%Z; [|discriminate].
      injection Hs as <-. exact IH.
Qed.

(** X13.  The [os.Rename] calls of a run are one for each allocation, in
    the order of the arguments, each from the temporary file of the
    allocation onto its end-file name: the publisher publishes in the
    order of the dispatch list, whatever the order in which the downloads
    ended. *)
Theorem publisher_follows_allocation (s : state) :
  env_wf e ->
  NoDup (List.map a_tmp (alloc_list (tmpdir s) (calls e))) ->
  reachable e s -> at_pc s = AtPublish (urls s) ->
  exists w',
    publish_loop (rename_fault e) (err s) (urls s) (w s) = Some w' /\
    renamed w' =
      List.map (fun a => (a_tmp a, a_name a)) (alloc_list (tmpdir s) (calls e)).
Proof.
  intros Hwf Hnd Hr Epc.
  destruct (run_invariants e s Hwf Hnd Hr) as (_ & Hinv & _).
  { rewrite Epc. discriminate. }
  pose proof (renamed_count s Hr) as Hlog. rewrite Epc in Hlog.
  unfold run_inv in Hinv. rewrite Epc in Hinv.
  destruct Hinv as [_ Hstart]. destruct (Hstart eq_refl) as (Hu & Hreg & _).
  destruct (publish_loop_exact (rename_fault e) (err s) _ _ (w s) Hreg)
    as (w' & Hpub & Hren & _).
  rewrite <- Hu in Hpub. exists w'. split; [exact Hpub|].
  rewrite Hren. destruct (renamed (w s)); [reflexivity | cbn in Hlog; lia].
Qed.

(** X14.  The exit status tells whether the working directory could be
    removed: a run that has exited with status 0 has left nothing in the
    working directory, and a run that has exited with status 1 either
    failed in its setup or has left a file there. *)
Theorem exit_status_meaning (s : state) (c : Z) :
  env_wf e -> reachable e s -> at_pc s = Exited c ->
  (c = 0%Z /\ dir_empty (tmpdir s) (fs (w s)) = true) \/
  (c = 1%Z /\ (s = init e \/ dir_empty (tmpdir s) (fs (w s)) = false)).
Proof.
  intros Hwf Hr. revert c. induction Hr as [|l s s' Hr IH Hs]; intros c Epc.
  - right. unfold init in Epc.
    destruct (pflag e <? 1)%Z; [|destruct (mkdir e)]; cbn in Epc;
      try discriminate; injection Epc as <-; auto.
  - destruct l as [|i]; cbn in Hs.
    + unfold main_step in Hs.
      destruct (at_pc s) as [[|[arg ct] rest]|[|url rest]|url rest| |[|url rest]| | |]
        eqn:Epc0; try discriminate;
        try (repeat match type of Hs with
                    | context [match ?x with _ => _ end] => destruct x
                    | context [if ?x then _ else _] => destruct x
                    end; try discriminate; injection Hs as <-; discriminate Epc).
      { destruct (0 <? routines s)%Z; [destruct (ch s); [discriminate|]|];
          injection Hs as <-; cbn in Epc; [congruence | discriminate]. }
      destruct (dir_empty (tmpdir s) (fs (w s))) eqn:Ed; injection Hs as <-;
        cbn in Epc; injection Epc as <-; cbn; auto.
    + assert (Hrun : running s = []).
      { assert (Hpc : at_pc s = Exited c).
        { unfold finish_step in Hs.
          destruct (running s !! i) as [[url0 f0]|]; [|discriminate].
          destruct (getUrl _ _ _ _ _ _); [|discriminate].
          destruct (_ <=? _)%Z; [|discriminate].
          injection Hs as <-. exact Epc. }
        destruct (Z.ltb_spec (pflag e) 1) as [Hp|Hp].
        - refine (proj2 (exited_at_once e s _ Hr)). unfold init.
          now rewrite (proj2 (Z.ltb_lt _ _) Hp).
        - destruct Hwf as [Hmax _].
          destruct (conc_inv_reachable e s (conj Hp Hmax) Hr) as (Hsum & _ & H0).
          rewrite Hpc in H0. destruct (running s); [reflexivity | cbn in Hsum; lia]. }
      unfold finish_step in Hs. rewrite Hrun in Hs. discriminate.
Qed.

End MoreOnDispatch.

Section MoreOnDispatchWitnesses.

Lemma launch_follows_allocation_witness :
  exists a s',
    alloc_list (tmpdir (after run_twice [Main; Main; Main; Main])) (calls run_twice)
      !! (length (urls (after run_twice [Main; Main; Main; Main]))
          - length ["http://example.com/a.txt"] - 1)%nat = Some a /\
    a_url a = "http://example.com/a.txt" /\
    main_step run_twice (after run_twice [Main; Main; Main; Main]) = Some s' /\
    at_pc s' = AtDispatch ["http://example.com/a.txt"] /\
    running s' = running (after run_twice [Main; Main; Main; Main])
                   ++ [("http://example.com/a.txt", a_tmp a)].
Proof.
  apply (launch_follows_allocation run_twice (after run_twice [Main; Main; Main; Main])).
  - split; vm_compute; discriminate.
  - refine (bool_decide_unpack _ _). vm_compute. exact I.
  - apply after_reachable.
  - vm_compute. reflexivity.
Defined.

Lemma all_dispatched_at_drain_witness :
  n (filemap_read
       (filemap (w (after run_twice
                      [Main; Main; Main; Main; Main; Finish 0; Main; Main; Main])))
       "http://example.com/a.txt")
    = Z.of_nat (length (tmpfiles (filemap_read
       (filemap (w (after run_twice
                      [Main; Main; Main; Main; Main; Finish 0; Main; Main; Main])))
       "http://example.com/a.txt"))) /\
  length (tmpfiles (filemap_read
       (filemap (w (after run_twice
                      [Main; Main; Main; Main; Main; Finish 0; Main; Main; Main])))
       "http://example.com/a.txt"))
    = count "http://example.com/a.txt"
        (urls (after run_twice
                 [Main; Main; Main; Main; Main; Finish 0; Main; Main; Main])).
Proof.
  apply (all_dispatched_at_drain run_twice
           (after run_twice [Main; Main; Main; Main; Main; Finish 0; Main; Main; Main])).
  - split; vm_compute; discriminate.
  - apply after_reachable.
  - vm_compute. reflexivity.
Defined.

Lemma publisher_follows_allocation_witness :
  exists w',
    publish_loop (rename_fault run_twice)
      (err (after run_twice sched_twice_drained))
      (urls (after run_twice sched_twice_drained))
      (w (after run_twice sched_twice_drained)) = Some w' /\
    renamed w' =
      List.map (fun a => (a_tmp a, a_name a))
        (alloc_list (tmpdir (after run_twice sched_twice_drained)) (calls run_twice)).
Proof.
  apply (publisher_follows_allocation run_twice (after run_twice sched_twice_drained)).
  - split; vm_compute; discriminate.
  - refine (bool_decide_unpack _ _). vm_compute. exact I.
  - apply after_reachable.
  - vm_compute. reflexivity.
Defined.

Lemma exit_status_meaning_witness :
  (1 = 0 /\ dir_empty (tmpdir (after run_refused (sched_once_published ++ [Main])))
              (fs (w (after run_refused (sched_once_published ++ [Main])))) = true)%Z \/
  (1 = 1 /\ (after run_refused (sched_once_published ++ [Main]) = init run_refused \/
             dir_empty (tmpdir (after run_refused (sched_once_published ++ [Main])))
               (fs (w (after run_refused (sched_once_published ++ [Main])))) = false))%Z.
Proof.
  apply (exit_status_meaning run_refused
           (after run_refused (sched_once_published ++ [Main])) 1%Z).
  - split; vm_compute; discriminate.
  - apply after_reachable.
  - vm_compute. reflexivity.
Defined.

End MoreOnDispatchWitnesses.

(** ** [main] and its goroutines: the channel, and the end of a run *)

Section Scheduling.

Variable e : env.

Lemma running_started (s : state) :
  reachable e s -> running s <> [] -> (1 <= pflag e)%Z.
Proof.
  intros Hr Hrun. destruct (Z.ltb_spec (pflag e) 1) as [Hp|Hp]; [|exact Hp].
  destruct Hrun. refine (proj2 (exited_at_once e s _ Hr)). unfold init.
  now rewrite (proj2 (Z.ltb_lt _ _) Hp).
Qed.

(** A goroutine whose download ends can always end: the channel has room
    for its value. *)
Lemma finish_enabled (s : state) (i : nat) (url f : string) :
  env_wf e -> reachable e s ->
  running s !! i = Some (url, f) -> exits (fetch e url f) ->
  exists g,
    g_sent g = 1 /\
    finish_step e i s =
      Some (set_w (g_finish g (w s))
              (set_ch (ch s + 1) (set_running (delete i (running s)) s))).
Proof.
  intros Hwf Hr Hi Hex.
  assert (Hne : running s <> []) by (intros E; now rewrite E in Hi).
  pose proof (running_started s Hr Hne) as Hp.
  destruct Hwf as [Hmax _].
  destruct (conc_inv_reachable e s (conj Hp Hmax) Hr) as (Hsum & Hle & _).
  destruct (getUrl_exits (fetch e url f) f (qflag e) url (g_start (w s))
              (fetch_steps (fetch e url f)) Hex (le_n _)) as [g Hg].
  destruct (getUrl_frame _ _ _ _ _ _ _ Hg) as [Hsent _]. cbn in Hsent.
  exists g. split; [exact Hsent|].
  unfold finish_step. rewrite Hi, Hg, Hsent.
  assert (Hlen : (1 <= length (running s))%nat).
  { destruct (running s); [now destruct Hne | cbn; lia]. }
  destruct (Z.leb_spec (Z.of_nat (ch s + 1)) (pflag e)); [reflexivity | lia].
Qed.

(** X15.  The send of line 42 never blocks: whatever the other goroutines
    have done, a running goroutine whose download ends can put its value
    on the channel and return.  (The channel is made for [pflag] values,
    and no more than [pflag] goroutines are counted at a time.) *)
Theorem send_never_blocks (s : state) (i : nat) (url f : string) :
  env_wf e -> reachable e s ->
  running s !! i = Some (url, f) -> exits (fetch e url f) ->
  is_Some (finish_step e i s).
Proof.
  intros Hwf Hr Hi Hex.
  destruct (finish_enabled s i url f Hwf Hr Hi Hex) as (g & _ & ->). eauto.
Qed.

(** Where the main goroutine waits on the channel, a goroutine is running. *)
Lemma progress (s : state) :
  env_wf e -> chan_refused e = false ->
  (forall url f, exits (fetch e url f)) -> reachable e s ->
  (exists c, at_pc s = Exited c) \/ exists l s', step e l s = Some s'.
Proof.
  intros Hwf Hgrant Hex Hr.
  destruct (main_step e s) as [s'|] eqn:Em; [right; exists Main, s'; exact Em|].
  assert (Hwait : (exists c, at_pc s = Exited c) \/
                  (ch s = 0%nat /\ (0 < routines s)%Z /\ (1 <= pflag e)%Z)).
  { pose proof (reg_inv_reachable e s Hwf Hr) as [_ Hreg].
    unfold main_step in Em.
    destruct (at_pc s) as [[|[arg ct] rest]|[|url rest]|url rest| |[|url rest]| |c|]
      eqn:Epc; try discriminate.
    - rewrite Hgrant in Em. discriminate.
    - destruct (prepUrl ct arg (tmpdir s) (w s)) as [[u [x|]] w']; discriminate.
    - destruct (run_started e s Hr) as [Hp _]; [rewrite Epc; discriminate|].
      destruct (Z.leb_spec (pflag e) (routines s)); [|discriminate].
      destruct (ch s); [right; repeat split; lia | discriminate].
    - destruct (filemap (w s) !! url); [|discriminate].
      destruct (slice_index _ _); discriminate.
    - destruct (run_started e s Hr) as [Hp _]; [rewrite Epc; discriminate|].
      destruct (Z.ltb_spec 0 (routines s)); [|discriminate].
      destruct (ch s); [right; repeat split; lia | discriminate].
    - destruct (rename _ _ _ _); discriminate.
    - destruct (dir_empty _ _); discriminate.
    - left. eauto.
    - destruct Hreg. }
  destruct Hwait as [Hx|(Hch & Hpos & Hp)]; [now left|]. right.
  destruct Hwf as [Hmax Hargs].
  destruct (conc_inv_reachable e s (conj Hp Hmax) Hr) as (Hsum & _ & _).
  destruct (running s) as [|[url f] tl] eqn:Erun; [cbn in Hsum; lia|].
  destruct (finish_enabled s 0 url f (conj Hmax Hargs) Hr) as (g & _ & Hfin).
  { now rewrite Erun. }
  { apply Hex. }
  exists (Finish 0). eexists. exact Hfin.
Qed.

(** Each step of the main goroutine, and each goroutine that ends, brings
    the run nearer to its end. *)
Lemma step_decreases (l : label) (s s' : state) :
  env_wf e -> reachable e s -> step e l s = Some s' ->
  (work_left e s' < work_left e s)%nat.
Proof.
  intros Hwf Hr Hs.
  pose proof (reg_inv_reachable e s Hwf Hr) as [Hlen _].
  unfold work_left. destruct l as [|i]; cbn in Hs.
  - unfold main_step in Hs.
    destruct (at_pc s) as [[|[arg ct] rest]|[|url rest]|url rest| |[|url rest]| |c|]
      eqn:Epc; try discriminate.
    + destruct (chan_refused e); [discriminate|].
      injection Hs as <-. cbn. lia.
    + unfold prepUrl in Hs. destruct ct; injection Hs as <-; cbn; lia.
    + injection Hs as <-. cbn. lia.
    + destruct (pflag e <=? routines s)%Z; [destruct (ch s); [discriminate|]|];
        injection Hs as <-; cbn; lia.
    + destruct (filemap (w s) !! url) as [fm|]; [|injection Hs as <-; cbn; lia].
      destruct (slice_index _ _); injection Hs as <-; cbn;
        rewrite ?length_app; cbn; lia.
    + destruct (0 <? routines s)%Z; [destruct (ch s); [discriminate|]|];
        injection Hs as <-; cbn; rewrite ?Epc; cbn; lia.
    + injection Hs as <-. cbn. lia.
    + destruct (rename _ _ _ _); injection Hs as <-; cbn; lia.
    + destruct (dir_empty _ _); injection Hs as <-; cbn; lia.
  - unfold finish_step in Hs.
    destruct (running s !! i) as [[url f]|] eqn:Ei; [|discriminate].
    destruct (getUrl _ _ _ _ _ _) as [g|] eqn:Eg; [|discriminate].
    destruct (_ <=? _)%Z; [|discriminate].
    destruct (getUrl_frame _ _ _ _ _ _ _ Eg) as [Hsent _]. cbn in Hsent.
    injection Hs as <-. cbn. rewrite Hsent.
    pose proof (lookup_lt_Some _ _ _ Ei) as Hlt.
    rewrite length_delete by eauto. lia.
Qed.



(** X17.  No deadlock, and every run can come to its end: when the
    runtime grants the capacity of the channel of line 176 and every
    download ends (normally or with an error), a run can be continued
    from each of its states up to the exit of the program.  In
    particular, where the main goroutine waits on the channel a goroutine
    is still to send, and neither [tmpfiles[n]] nor [tmpfiles[0]]
    panics. *)
Theorem run_ends (s : state) :
  env_wf e -> chan_refused e = false ->
  (forall url f, exits (fetch e url f)) -> reachable e s ->
  exists sched s' c, exec e sched s = Some s' /\ at_pc s' = Exited c.
Proof.
  intros Hwf Hch Hex.
  remember (work_left e s) as m eqn:Hm. revert s Hm.
  induction m as [m IH] using lt_wf_ind. intros s -> Hr.
  destruct (progress s Hwf Hch Hex Hr) as [[c Hc]|(l & s1 & Hs)].
  - exists [], s, c. split; [reflexivity | exact Hc].
  - pose proof (step_decreases l s s1 Hwf Hr Hs) as Hlt.
    assert (Hr1 : reachable e s1) by (eapply reachable_step; eassumption).
    destruct (IH _ Hlt s1 eq_refl Hr1) as (sched & s' & c & Hrun & Hc).
    exists (l :: sched), s', c. split; [|exact Hc]. cbn. now rewrite Hs.
Qed.

End Scheduling.

Section SchedulingWitnesses.

Lemma send_never_blocks_witness :
  is_Some (finish_step run_twice 0 (after run_twice sched_twice_launched)).
Proof.
  apply (send_never_blocks run_twice (after run_twice sched_twice_launched) 0
           "http://example.com/a.txt" "./.goget1/a.txt111").
  - split; vm_compute; discriminate.
  - apply after_reachable.
  - vm_compute. reflexivity.
  - vm_compute. discriminate.
Defined.


Lemma run_ends_witness :
  exists sched s' c,
    exec run_once sched (after run_once [Main; Main; Main; Main]) = Some s' /\
    at_pc s' = Exited c.
Proof.
  apply (run_ends run_once (after run_once [Main; Main; Main; Main])).
  - split; vm_compute; discriminate.
  - reflexivity.
  - intros url f. vm_compute. discriminate.
  - apply after_reachable.
Defined.

End SchedulingWitnesses.

(** ** Goroutines and their temporary files *)

Section Ownership.

Variable e : env.

(** The launch of line 184, read against the allocations. *)
Lemma launch_exact (s : state) (rest : list string)
    (A_done A_rest : list alloc) (a : alloc) :
  env_wf e -> at_pc s = AtLaunch (a_url a) rest ->
  alloc_list (tmpdir s) (calls e) = A_done ++ a :: A_rest ->
  regs_ok (A_done ++ a :: A_rest) A_done (filemap (w s)) ->
  exists m',
    main_step e s =
      Some (set_pc (AtDispatch rest)
              (set_routines (int_incr (routines s))
                 (set_w (w_set_filemap m' (w s))
                    (set_running (running s ++ [(a_url a, a_tmp a)]) s)))).
Proof.
  intros Hwf Epc HA Hreg.
  assert (Hmax : (Z.of_nat (length (A_done ++ a :: A_rest)) <= int_max)%Z).
  { rewrite <- HA. pose proof (alloc_list_length (tmpdir s) (calls e)).
    destruct Hwf as [_ Hargs]. lia. }
  unfold main_step. rewrite Epc.
  destruct (filemap (w s) !! a_url a) as [fmentry|] eqn:Em.
  - destruct (regs_ok_launch A_done A_rest a _ fmentry Hmax Em Hreg) as [Hidx _].
    rewrite Hidx. eexists. reflexivity.
  - destruct (Hreg (a_url a)) as (Ht & _).
    unfold filemap_read in Ht. rewrite Em in Ht. cbn in Ht.
    rewrite filter_app, filter_cons_True in Ht by reflexivity.
    rewrite map_app in Ht. cbn in Ht.
    symmetry in Ht. apply app_eq_nil in Ht as [_ Ht]. discriminate.
Qed.

(** Away from line 184 the main goroutine launches nothing. *)
Lemma main_step_running (s s' : state) :
  main_step e s = Some s' ->
  (forall url rest, at_pc s <> AtLaunch url rest) ->
  running s' = running s.
Proof.
  intros Hs Hpc. unfold main_step in Hs.
  destruct (at_pc s) as [[|[arg ct] rest]|[|url rest]|url rest| |[|url rest]| |c|]
    eqn:Epc; try discriminate.
  - destruct (chan_refused e); [discriminate|]. now injection Hs as <-.
  - unfold prepUrl in Hs. destruct ct; now injection Hs as <-.
  - now injection Hs as <-.
  - destruct (pflag e <=? routines s)%Z; [destruct (ch s); [discriminate|]|];
      now injection Hs as <-.
  - now destruct (Hpc url rest).
  - destruct (0 <? routines s)%Z; [destruct (ch s); [discriminate|]|];
      now injection Hs as <-.
  - now injection Hs as <-.
  - destruct (rename _ _ _ _); now injection Hs as <-.
  - destruct (dir_empty _ _); now injection Hs as <-.
Qed.

(** The goroutines running were launched for allocations. *)
Lemma running_allocated (d : string) (s : state) (c : string * string) :
  env_wf e -> (1 <= pflag e)%Z -> mkdir e = inr d ->
  NoDup (List.map a_tmp (alloc_list d (calls e))) ->
  reachable e s -> c ∈ running s ->
  exists a, a ∈ alloc_list d (calls e) /\ c = (a_url a, a_tmp a).
Proof.
  intros Hwf Hp Hmk Hnd Hr Hc.
  destruct (run_inv_reachable e d s Hwf Hp Hmk Hnd Hr) as (Hconc & Hinv & Hd).
  destruct Hconc as (Hsum & _ & H0).
  assert (Hzero : routines s = 0%Z -> False).
  { intros Hz. destruct (running s); [inversion Hc | cbn in Hsum; lia]. }
  unfold run_inv in Hinv. rewrite Hd in Hinv.
  destruct (at_pc s) as [rest|rest|url rest| |rest| |c0|] eqn:Epc;
    try (now destruct (Hzero H0)).
  - destruct Hinv as (A_done & A_rest & HA & _ & _ & _ & _ & [Hrun _]).
    destruct (Hrun c Hc) as (a & Ha & ->). exists a. split; [|reflexivity].
    rewrite HA. apply elem_of_app. now left.
  - destruct Hinv as (A_done & a0 & A_rest & HA & _ & _ & _ & _ & _ & [Hrun _]).
    destruct (Hrun c Hc) as (a & Ha & ->). exists a. split; [|reflexivity].
    rewrite HA. apply elem_of_app. now left.
  - destruct Hinv as (_ & _ & _ & [Hrun _]). exact (Hrun c Hc).
  - destruct (reg_inv_reachable e s Hwf Hr) as [_ Hreg]. rewrite Epc in Hreg.
    destruct Hreg.
Qed.

Lemma own_files (d : string) (s : state) :
  env_wf e -> (1 <= pflag e)%Z -> mkdir e = inr d ->
  NoDup (List.map a_tmp (alloc_list d (calls e))) ->
  reachable e s -> NoDup (List.map snd (running s)).
Proof.
  intros Hwf Hp Hmk Hnd Hr. induction Hr as [|l s s' Hr IH Hs].
  - unfold init. destruct (pflag e <? 1)%Z; [constructor|].
    destruct (mkdir e); constructor.
  - destruct (run_inv_reachable e d s Hwf Hp Hmk Hnd Hr) as (_ & Hinv & Hd).
    destruct l as [|i]; cbn in Hs.
    + destruct (at_pc s) as [rest|rest|url rest| |rest| |c0|] eqn:Epc;
        try (rewrite (main_step_running s s' Hs); [exact IH|];
             intros ? ?; rewrite Epc; discriminate).
      unfold run_inv in Hinv. rewrite Epc, Hd in Hinv.
      destruct Hinv as (A_done & a & A_rest & HA & _ & -> & _ & Hreg & _ & [Hrun _]).
      rewrite <- Hd in HA.
      destruct (launch_exact s rest A_done A_rest a Hwf Epc HA Hreg) as [m' Hl].
      rewrite Hl in Hs. injection Hs as <-. cbn.
      rewrite map_app. apply NoDup_app. split; [exact IH|]. split.
      * intros f Hf Hf'. cbn in Hf'. apply list_elem_of_singleton in Hf'. subst f.
        apply elem_of_map_inv in Hf as (c & Hc & Hsnd).
        destruct (Hrun c Hc) as (a' & Ha' & ->). cbn in Hsnd.
        rewrite Hd in HA. rewrite HA in Hnd.
        assert (Heq : a' = a).
        { apply (NoDup_map_inj a_tmp (A_done ++ a :: A_rest)); auto.
          - apply elem_of_app. now left.
          - apply elem_of_app. right. left. }
        subst a'. rewrite map_app in Hnd. apply NoDup_app in Hnd as (_ & Hdis & _).
        apply (Hdis (a_tmp a)); [now apply elem_of_map | cbn; left].
      * cbn. apply NoDup_singleton.
    + unfold finish_step in Hs.
      destruct (running s !! i) as [[url f]|]; [|discriminate].
      destruct (getUrl _ _ _ _ _ _); [|discriminate].
      destruct (_ <=? _)%Z; [|discriminate].
      injection Hs as <-. cbn.
      change (NoDup (snd <$> delete i (running s))).
      eapply sublist_NoDup; [exact IH|].
      apply fmap_sublist, sublist_delete.
Qed.

(** X18.  No two goroutines running at the same time work on the same
    file: when [os.CreateTemp] gives fresh names, the temporary files of
    the goroutines running are pairwise distinct, and each is the
    temporary file of an allocation made for the URL the goroutine
    fetches. *)
Theorem goroutines_own_their_files (s : state) :
  env_wf e ->
  NoDup (List.map a_tmp (alloc_list (tmpdir s) (calls e))) ->
  reachable e s ->
  NoDup (List.map snd (running s)) /\
  forall c, c ∈ running s ->
    exists a, a ∈ alloc_list (tmpdir s) (calls e) /\ c = (a_url a, a_tmp a).
Proof.
  intros Hwf Hnd Hr.
  destruct (running s) as [|c0 tl] eqn:Erun.
  { split; [constructor | intros c Hc; inversion Hc]. }
  assert (Hne : running s <> []) by (rewrite Erun; discriminate).
  pose proof (running_started e s Hr Hne) as Hp.
  destruct (run_started e s Hr) as [_ Hmk].
  { intros Hx. destruct Hwf as [Hmax _].
    destruct (conc_inv_reachable e s (conj Hp Hmax) Hr) as (Hsum & _ & H0).
    rewrite Hx in H0. rewrite Erun in Hsum. cbn in Hsum. lia. }
  rewrite <- Erun. split.
  - exact (own_files (tmpdir s) s Hwf Hp Hmk Hnd Hr).
  - intros c Hc. exact (running_allocated (tmpdir s) s c Hwf Hp Hmk Hnd Hr Hc).
Qed.

End Ownership.

Section OwnershipWitnesses.

Lemma goroutines_own_their_files_witness :
  NoDup (List.map snd (running (after run_twice sched_twice_launched))) /\
  forall c, c ∈ running (after run_twice sched_twice_launched) ->
    exists a, a ∈ alloc_list (tmpdir (after run_twice sched_twice_launched))
                    (calls run_twice) /\ c = (a_url a, a_tmp a).
Proof.
  apply (goroutines_own_their_files run_twice (after run_twice sched_twice_launched)).
  - split; vm_compute; discriminate.
  - refine (bool_decide_unpack _ _). vm_compute. exact I.
  - apply after_reachable.
Defined.

End OwnershipWitnesses.

(** ** Downloads that fail *)

Section FailedDownloads.

Variable e : env.

(** A download that fails before a byte is read leaves no file. *)
Lemma getUrl_fails_removes (fe : fetch_env) (f : string)
    (steps : nat) (qf : bool) (url : string) (g g' : gstate) :
  fetch_fails fe -> getUrl steps qf fe url f g = Some g' -> g_fs g' !! f = None.
Proof.
  unfold getUrl, getUrl_body.
  intros [[x Hc]|[Hc [x Hg]]]; rewrite Hc; [|rewrite Hg];
    intros [= <-]; cbn; apply lookup_delete_eq.
Qed.

Lemma removed_ok_nil (s : state) : removed_ok e [] s.
Proof. intros a Ha. inversion Ha. Qed.

Lemma removed_ok_same (A : list alloc) (s s' : state) :
  fs (w s') = fs (w s) -> running s' = running s ->
  removed_ok e A s -> removed_ok e A s'.
Proof. intros Hf Hrun H a Ha. rewrite Hf, Hrun. now apply H. Qed.

Lemma removed_reachable (d : string) (s : state) :
  env_wf e -> (1 <= pflag e)%Z -> mkdir e = inr d ->
  NoDup (List.map a_tmp (alloc_list d (calls e))) ->
  reachable e s ->
  removed_ok e (take (dispatched s) (alloc_list d (calls e))) s.
Proof.
  intros Hwf Hp Hmk Hnd Hr. induction Hr as [|l s s' Hr IH Hs].
  - unfold dispatched, init. destruct (pflag e <? 1)%Z; [apply removed_ok_nil|].
    destruct (mkdir e); apply removed_ok_nil.
  - destruct (run_inv_reachable e d s Hwf Hp Hmk Hnd Hr) as (_ & Hinv & Hd).
    destruct l as [|i]; cbn in Hs.
    + unfold dispatched in IH |- *. unfold run_inv in Hinv. unfold main_step in Hs.
      destruct (at_pc s) as [[|[arg ct] rest]|[|url rest]|url rest| |[|url rest]| |c|]
        eqn:Epc.
      * destruct (chan_refused e); [discriminate|].
        injection Hs as <-. cbn. rewrite Nat.sub_diag. apply removed_ok_nil.
      * unfold prepUrl in Hs.
        destruct ct; injection Hs as <-; apply removed_ok_nil.
      * injection Hs as <-. cbn.
        cbn in IH. rewrite Nat.sub_0_r in IH. exact IH.
      * replace (length (urls s) - length (url :: rest))%nat
          with (length (urls s) - length rest - 1)%nat in IH by (cbn; lia).
        destruct (pflag e <=? routines s)%Z; [destruct (ch s); [discriminate|]|];
          injection Hs as <-; exact IH.
      * rewrite Hd in Hinv.
        destruct Hinv as (A_done & a & A_rest & HA & Hu & -> & -> & Hreg & _ & [Hrun _]).
        rewrite <- Hd in HA.
        destruct (launch_exact e s _ A_done A_rest a Hwf Epc HA Hreg) as [m' Hl].
        unfold main_step in Hl. rewrite Epc in Hl. rewrite Hl in Hs. injection Hs as <-. cbn.
        rewrite Hd in HA. rewrite HA in IH |- *.
        assert (Hk : (length (urls s) - length (List.map a_url A_rest))%nat
                     = length (A_done ++ [a])).
        { rewrite Hu, !length_map, !length_app. cbn. lia. }
        rewrite Hk. rewrite Hu, !length_map, length_app in IH. cbn [length] in IH.
        replace (length A_done + S (length A_rest) - length A_rest - 1)%nat
          with (length A_done) in IH by lia.
        rewrite take_app_length in IH.
        replace (A_done ++ a :: A_rest) with ((A_done ++ [a]) ++ A_rest)
          by (now rewrite <- app_assoc).
        rewrite take_app_length.
        intros a' Ha' Hnot Hfail. cbn in Hnot |- *.
        apply elem_of_app in Ha' as [Ha'|Ha'].
        -- apply IH; [exact Ha'| |exact Hfail].
           intros Hin. apply Hnot. apply elem_of_app. now left.
        -- apply list_elem_of_singleton in Ha'. subst a'. destruct Hnot.
           apply elem_of_app. right. left.
      * destruct (0 <? routines s)%Z; [destruct (ch s); [discriminate|]|];
          injection Hs as <-; cbn; [rewrite Epc; exact IH|].
        rewrite Nat.eqb_refl. exact IH.
      * injection Hs as <-.
        apply removed_ok_nil.
      * destruct Hinv as [Hle _]. cbn in Hle.
        destruct (rename _ _ _ _); injection Hs as <-; cbn; [|apply removed_ok_nil].
        destruct (Nat.eqb_spec (length rest) (length (urls s))); [lia|].
        apply removed_ok_nil.
      * destruct (dir_empty _ _); injection Hs as <-; apply removed_ok_nil.
      * discriminate.
      * discriminate.
    + assert (Hdis : dispatched s' = dispatched s /\ at_pc s' = at_pc s).
      { unfold finish_step in Hs.
        destruct (running s !! i) as [[url f]|]; [|discriminate].
        destruct (getUrl _ _ _ _ _ _); [|discriminate].
        destruct (_ <=? _)%Z; [|discriminate].
        injection Hs as <-. split; reflexivity. }
      destruct Hdis as [-> _].
      unfold finish_step in Hs.
      destruct (running s !! i) as [[url f]|] eqn:Ei; [|discriminate].
      destruct (getUrl _ _ _ _ _ _) as [g|] eqn:Eg; [|discriminate].
      destruct (_ <=? _)%Z; [|discriminate].
      injection Hs as <-. intros a Ha Hnot Hfail. cbn in Hnot |- *.
      destruct (decide ((a_url a, a_tmp a) = (url, f))) as [Heq|Hne].
      * injection Heq as Hu Hf. rewrite Hu, Hf in Hfail. rewrite Hf.
        exact (getUrl_fails_removes _ _ _ _ _ _ _ Hfail Eg).
      * assert (Hout : (a_url a, a_tmp a) ∉ running s).
        { intros Hin. apply (elem_of_delete_middle _ i _ _ Ei) in Hin as [Hin|Hin];
            [now destruct Hne | now destruct Hnot]. }
        assert (Hf : a_tmp a <> f).
        { intros Hf.
          destruct (running_allocated e d s (url, f) Hwf Hp Hmk Hnd Hr)
            as (a' & Ha' & Hc).
          { eapply list_elem_of_lookup_2. exact Ei. }
          injection Hc as Hu' Hf'.
          assert (a = a').
          { apply (NoDup_map_inj a_tmp (alloc_list d (calls e))); auto.
            - apply elem_of_take in Ha as (j & Hj & _).
              eapply list_elem_of_lookup_2. exact Hj.
            - congruence. }
          subst a'. apply Hne. congruence. }
        destruct (getUrl_frame _ _ _ _ _ _ _ Eg) as [_ Hfr].
        rewrite (Hfr _ Hf). cbn. now apply IH.
Qed.

(** Renames leave a destination absent when it was absent and none of the
    sources to be renamed onto it exists. *)
Lemma apply_renames_absent (fault : string -> string -> option error)
    (log : list (string * string)) (d : string)
    (files : gmap string (list Byte.byte)) :
  files !! d = None ->
  (forall c, c ∈ log -> snd c = d -> files !! fst c = None) ->
  (forall c c', c ∈ log -> c' ∈ log -> fst c <> snd c') ->
  apply_renames fault log files !! d = None.
Proof.
  revert files. induction log as [|c log IH]; intros files Hd Hsrc Hsd.
  - exact Hd.
  - rewrite apply_renames_cons.
    assert (Hkeep : forall k, files !! k = None -> k <> snd c ->
                      fst (os_Rename fault (fst c) (snd c) files) !! k = None).
    { intros k Hk Hne. unfold os_Rename.
      destruct (files !! fst c) as [v|]; [|exact Hk].
      destruct (fault (fst c) (snd c)); [exact Hk|]. cbn.
      rewrite lookup_insert_ne by auto.
      apply lookup_delete_None. now right. }
    apply IH.
    + destruct (decide (d = snd c)) as [->|Hne]; [|now apply Hkeep].
      unfold os_Rename. rewrite (Hsrc c) by (auto; left). exact Hd.
    + intros c' Hc' Hdst. apply Hkeep.
      * apply Hsrc; [now right | exact Hdst].
      * apply Hsd; [now right | left].
    + intros c1 c2 H1 H2. apply Hsd; now right.
Qed.

(** Renames leave a name as it is when none of the sources to be renamed
    onto it exists. *)
Lemma apply_renames_untouched (fault : string -> string -> option error)
    (log : list (string * string)) (d : string)
    (files : gmap string (list Byte.byte)) :
  (forall c, c ∈ log -> snd c = d -> files !! fst c = None) ->
  (forall c, c ∈ log -> fst c <> d) ->
  (forall c c', c ∈ log -> c' ∈ log -> fst c <> snd c') ->
  apply_renames fault log files !! d = files !! d.
Proof.
  revert files. induction log as [|c log IH]; intros files Hsrc Hnd Hsd; [reflexivity|].
  rewrite apply_renames_cons.
  assert (Hkeep : forall k, files !! k = None -> k <> snd c ->
                    fst (os_Rename fault (fst c) (snd c) files) !! k = None).
  { intros k Hk Hne. unfold os_Rename.
    destruct (files !! fst c) as [v|]; [|exact Hk].
    destruct (fault (fst c) (snd c)); [exact Hk|]. cbn.
    rewrite lookup_insert_ne by auto.
    apply lookup_delete_None. now right. }
  rewrite IH.
  - destruct (decide (snd c = d)) as [Hd|Hd].
    + unfold os_Rename. rewrite (Hsrc c) by (auto; left). reflexivity.
    + apply os_Rename_other; [|congruence].
      intros ->. apply (Hnd c); [left | reflexivity].
  - intros c' Hc' Hdst. apply Hkeep.
    + apply Hsrc; [now right | exact Hdst].
    + apply Hsd; [now right | left].
  - intros c' Hc'. apply Hnd. now right.
  - intros c1 c2 H1 H2. apply Hsd; now right.
Qed.

Lemma temp_path_inside (d fname rnd : string) :
  strings.HasPrefix (temp_path d fname rnd) (d +:+ "/") = true.
Proof.
  unfold strings.HasPrefix, temp_path.
  rewrite <- append_assoc. apply prefix_app_self.
Qed.

(** Until the publisher renames, the files outside the working directory
    are those there were before the run. *)
Lemma outside_untouched (d : string) (s : state) (p : string) :
  env_wf e -> (1 <= pflag e)%Z -> mkdir e = inr d ->
  NoDup (List.map a_tmp (alloc_list d (calls e))) ->
  reachable e s -> renamed (w s) = [] ->
  strings.HasPrefix p (d +:+ "/") = false ->
  fs (w s) !! p = files0 e !! p.
Proof.
  intros Hwf Hp Hmk Hnd Hr Hlog Hout. induction Hr as [|l s s' Hr IH Hs].
  - unfold init. destruct (Z.ltb_spec (pflag e) 1); [lia|]. rewrite Hmk.
    cbn [w fs w_set_fs]. now apply outside_lookup.
  - destruct (run_inv_reachable e d s Hwf Hp Hmk Hnd Hr) as (_ & _ & Hd).
    destruct l as [|i]; cbn in Hs.
    + unfold main_step in Hs.
      destruct (at_pc s) as [[|[arg ct] rest]|[|url rest]|url rest| |[|url rest]| |c|]
        eqn:Epc; try discriminate.
      * destruct (chan_refused e); [discriminate|].
        injection Hs as <-. exact (IH Hlog).
      * unfold prepUrl in Hs. destruct ct as [x|rnd]; injection Hs as <-.
        { exact (IH Hlog). }
        cbn in Hlog |- *. rewrite lookup_insert_ne; [exact (IH Hlog)|].
        intros <-. rewrite Hd, temp_path_inside in Hout. discriminate.
      * injection Hs as <-. exact (IH Hlog).
      * destruct (pflag e <=? routines s)%Z; [destruct (ch s); [discriminate|]|];
          injection Hs as <-; exact (IH Hlog).
      * destruct (filemap (w s) !! url) as [fm|];
          [destruct (slice_index _ _)|]; injection Hs as <-; exact (IH Hlog).
      * destruct (0 <? routines s)%Z; [destruct (ch s); [discriminate|]|];
          injection Hs as <-; exact (IH Hlog).
      * injection Hs as <-. exact (IH Hlog).
      * destruct (tmpfiles (filemap_read (filemap (w s)) url)) as [|tmp0 tl] eqn:Et.
        { rewrite rename_None in Hs by exact Et. injection Hs as <-. exact (IH Hlog). }
        destruct (rename_Some (rename_fault e) (err s) url (w s) tmp0 tl Et)
          as (w' & Hw & _ & _ & Hren & _).
        rewrite Hw in Hs. injection Hs as <-. cbn in Hlog. rewrite Hren in Hlog.
        now destruct (renamed (w s)).
      * destruct (dir_empty _ _); injection Hs as <-; exact (IH Hlog).
    + unfold finish_step in Hs.
      destruct (running s !! i) as [[url f]|] eqn:Ei; [|discriminate].
      destruct (getUrl _ _ _ _ _ _) as [g|] eqn:Eg; [|discriminate].
      destruct (_ <=? _)%Z; [|discriminate].
      injection Hs as <-. cbn in Hlog |- *.
      destruct (getUrl_frame _ _ _ _ _ _ _ Eg) as [_ Hfr].
      rewrite Hfr; [exact (IH Hlog)|]. intros ->.
      destruct (running_allocated e d s (url, f) Hwf Hp Hmk Hnd Hr)
        as (a & Ha & Hc).
      { eapply list_elem_of_lookup_2. exact Ei. }
      injection Hc as _ ->.
      destruct (alloc_list_elem _ _ _ Ha) as [_ [rnd Ht]].
      rewrite Ht, temp_path_inside in Hout. discriminate.
Qed.

(** X19.  A download that failed and removed its temporary file leaves
    its end-file name as it was before the run.  Take a run in which
    [os.CreateTemp] gives fresh names, at the moment the publisher
    starts, and an allocation such that none of the temporary files
    allocated for its end-file name is there any more (their goroutines
    removed them after a failure).  Then the publisher goes through
    without a panic and, when it is through, the end-file name holds what
    it held before the run: nothing when no such file was there, and the
    old file otherwise.  The renames fail for lack of a source, and
    line 151 says nothing about it. *)
Theorem failed_download_leaves_no_file (s : state) (a : alloc) :
  env_wf e ->
  NoDup (List.map a_tmp (alloc_list (tmpdir s) (calls e))) ->
  reachable e s -> at_pc s = AtPublish (urls s) ->
  a ∈ alloc_list (tmpdir s) (calls e) ->
  (forall b, b ∈ alloc_list (tmpdir s) (calls e) -> a_name b = a_name a ->
             fs (w s) !! a_tmp b = None) ->
  exists w',
    publish_loop (rename_fault e) (err s) (urls s) (w s) = Some w' /\
    fs w' !! a_name a = files0 e !! a_name a /\
    stderr w' = stderr (w s).
Proof.
  intros Hwf Hnd Hr Epc Ha Hgone.
  destruct (publisher_started e s _ Hr Epc) as [Hp Hmk].
  destruct (run_inv_reachable e (tmpdir s) s Hwf Hp Hmk Hnd Hr) as (_ & Hinv & _).
  assert (Hlog : renamed (w s) = []).
  { pose proof (renamed_count e s Hr) as Hc. rewrite Epc in Hc.
    destruct (renamed (w s)); [reflexivity | cbn in Hc; lia]. }
  assert (Hname : strings.HasPrefix (a_name a) (tmpdir s +:+ "/") = false).
  { apply no_slash_outside.
    destruct (alloc_list_elem _ _ _ Ha) as [-> _]. apply derive_fname_no_slash. }
  pose proof (outside_untouched (tmpdir s) s (a_name a) Hwf Hp Hmk Hnd Hr Hlog Hname)
    as Hold.
  unfold run_inv in Hinv. rewrite Epc in Hinv.
  destruct Hinv as [_ Hstart].
  destruct (Hstart eq_refl) as (Hu & Hreg & _).
  set (A := alloc_list (tmpdir s) (calls e)) in *.
  destruct (publish_loop_exact (rename_fault e) (err s) A A (w s) Hreg)
    as (w' & Hpub & _ & Hfs).
  rewrite <- Hu in Hpub. exists w'. split; [exact Hpub|]. split.
  - rewrite Hfs, <- Hold. apply apply_renames_untouched.
    + intros c Hc Hdst. apply elem_of_map_inv in Hc as (b & Hb & <-).
      cbn in Hdst |- *. now apply Hgone.
    + intros c Hc. apply elem_of_map_inv in Hc as (b & Hb & <-). cbn.
      eapply alloc_tmp_not_name; eassumption.
    + intros c1 c2 H1 H2.
      apply elem_of_map_inv in H1 as (a1 & Ha1 & <-).
      apply elem_of_map_inv in H2 as (a2 & Ha2 & <-). cbn.
      eapply alloc_tmp_not_name; eassumption.
  - assert (Herr : err s = None).
    { apply (err_is_nil e s Hr). intros c. rewrite Epc. discriminate. }
    clear - Hpub Herr. rewrite Herr in Hpub.
    generalize dependent (w s). generalize (urls s).
    induction l as [|u l IH]; intros w0; cbn.
    + now intros [= <-].
    + unfold rename at 1.
      destruct (tmpfiles (filemap_read (filemap w0) u)); [discriminate|].
      destruct (os_Rename _ _ _ _) as [files r]. intros H.
      apply IH in H. exact H.
Qed.

(** X23.  When the publisher starts, the temporary file of a download
    that failed before a byte was read ([os.Create] or [http.Get]
    failed) is gone: its goroutine removed it (lines 55 and 64), and
    nothing has made it again. *)
Theorem failed_download_is_removed (s : state) (a : alloc) :
  env_wf e ->
  NoDup (List.map a_tmp (alloc_list (tmpdir s) (calls e))) ->
  reachable e s -> at_pc s = AtPublish (urls s) ->
  a ∈ alloc_list (tmpdir s) (calls e) ->
  fetch_fails (fetch e (a_url a) (a_tmp a)) ->
  fs (w s) !! a_tmp a = None.
Proof.
  intros Hwf Hnd Hr Epc Ha Hfail.
  destruct (publisher_started e s _ Hr Epc) as [Hp Hmk].
  destruct (run_inv_reachable e (tmpdir s) s Hwf Hp Hmk Hnd Hr) as (_ & Hinv & _).
  pose proof (removed_reachable (tmpdir s) s Hwf Hp Hmk Hnd Hr) as Hrem.
  unfold dispatched in Hrem. rewrite Epc, Nat.eqb_refl in Hrem.
  unfold run_inv in Hinv. rewrite Epc in Hinv.
  destruct Hinv as [_ Hstart].
  destruct (Hstart eq_refl) as (Hu & _ & _ & _ & Hrun).
  assert (Hlen : length (urls s) = length (alloc_list (tmpdir s) (calls e)))
    by (now rewrite Hu, length_map).
  rewrite Hlen, firstn_all in Hrem.
  apply Hrem; [exact Ha| |exact Hfail].
  rewrite Hrun. intros Hin. inversion Hin.
Qed.

End FailedDownloads.

Section FailedDownloadsWitnesses.

Lemma failed_download_leaves_no_file_witness :
  exists w',
    publish_loop (rename_fault run_old_file)
      (err (after run_old_file sched_once_drained))
      (urls (after run_old_file sched_once_drained))
      (w (after run_old_file sched_once_drained)) = Some w' /\
    fs w' !! a_name {| a_url := "http://example.com/a.txt";
                       a_tmp := "./.goget1/a.txt111"; a_name := "a.txt" |}
      = files0 run_old_file
          !! a_name {| a_url := "http://example.com/a.txt";
                       a_tmp := "./.goget1/a.txt111"; a_name := "a.txt" |} /\
    stderr w' = stderr (w (after run_old_file sched_once_drained)).
Proof.
  apply (failed_download_leaves_no_file run_old_file
           (after run_old_file sched_once_drained)).
  - split; vm_compute; discriminate.
  - refine (bool_decide_unpack _ _). vm_compute. exact I.
  - apply after_reachable.
  - vm_compute. reflexivity.
  - vm_compute. left.
  - intros b Hb _.
    assert (Hb' : b ∈ [ {| a_url := "http://example.com/a.txt";
                            a_tmp := "./.goget1/a.txt111"; a_name := "a.txt" |} ])
      by exact Hb.
    apply list_elem_of_singleton in Hb'. subst b. vm_compute. reflexivity.
Defined.

Lemma failed_download_is_removed_witness :
  fs (w (after run_old_file sched_once_drained))
    !! a_tmp {| a_url := "http://example.com/a.txt";
                a_tmp := "./.goget1/a.txt111"; a_name := "a.txt" |} = None.
Proof.
  apply (failed_download_is_removed run_old_file
           (after run_old_file sched_once_drained)).
  - split; vm_compute; discriminate.
  - refine (bool_decide_unpack _ _). vm_compute. exact I.
  - apply after_reachable.
  - vm_compute. reflexivity.
  - vm_compute. left.
  - right. split; [reflexivity | eexists; reflexivity].
Defined.

(** In [run_old_file] the old [a.txt] is there when the run has exited. *)
Example run_old_file_outcome :
  at_pc (after run_old_file (sched_once_drained ++ [Main; Main; Main])) = Exited 0 /\
  fs (w (after run_old_file (sched_once_drained ++ [Main; Main; Main]))) !! "a.txt"
    = Some [Byte.x07].
Proof. vm_compute. auto. Qed.

End FailedDownloadsWitnesses.

(** ** The exit status and the downloads *)

Section ExitStatus.

Variable e : env.

Lemma exec_app (l1 l2 : list label) (s1 s2 s3 : state) :
  exec e l1 s1 = Some s2 -> exec e l2 s2 = Some s3 ->
  exec e (l1 ++ l2) s1 = Some s3.
Proof.
  revert s1. induction l1 as [|l l1 IH]; intros s1; cbn.
  - now intros [= <-].
  - destruct (step e l s1); [apply IH | discriminate].
Qed.

(** Once the dispatcher has returned, the main goroutine is alone: every
    state of the deferred function comes from the state in which the
    publisher started, by steps of the main goroutine only. *)
Lemma publisher_phase (s : state) :
  env_wf e -> reachable e s -> dispatcher_returned (at_pc s) = true ->
  s = init e \/
  exists s0 k,
    reachable e s0 /\ at_pc s0 = AtPublish (urls s0) /\ tmpdir s0 = tmpdir s /\
    exec e (List.repeat Main k) s0 = Some s.
Proof.
  intros Hwf Hr. induction Hr as [|l s s' Hr IH Hs]; intros Hret; [now left|].
  right. destruct (dispatcher_returned (at_pc s)) eqn:Eret.
  - destruct (IH eq_refl) as [Hinit|(s0 & k & Hr0 & Hpc0 & Htd & Hex)].
    + exfalso. subst s.
      assert (H0 : at_pc (init e) = Exited 1 /\ running (init e) = []).
      { revert Eret. unfold init. destruct (pflag e <? 1)%Z; [cbn; auto|].
        destruct (mkdir e); cbn; [auto | discriminate]. }
      destruct H0 as [Hpc Hrun]. destruct l as [|i]; cbn in Hs.
      * unfold main_step in Hs. rewrite Hpc in Hs. discriminate.
      * unfold finish_step in Hs. rewrite Hrun in Hs. discriminate.
    + destruct l as [|i]; cbn in Hs.
      * exists s0, (S k). split; [exact Hr0|]. split; [exact Hpc0|]. split.
        { rewrite (tmpdir_main e s s' Hs). exact Htd. }
        change (List.repeat Main (S k)) with (Main :: List.repeat Main k).
        rewrite repeat_cons. apply (exec_app _ _ _ s _ Hex). cbn. now rewrite Hs.
      * exfalso. destruct (publisher_started e s0 _ Hr0 Hpc0) as [Hp _].
        destruct Hwf as [Hmax _].
        destruct (conc_inv_reachable e s (conj Hp Hmax) Hr) as (Hsum & _ & H0).
        assert (Hz : routines s = 0%Z).
        { destruct (at_pc s); try discriminate Eret; exact H0. }
        unfold finish_step in Hs.
        destruct (running s); [discriminate Hs | cbn in Hsum; lia].
  - destruct l as [|i]; cbn in Hs.
    + unfold main_step in Hs.
      destruct (at_pc s) as [[|[arg ct] rest]|[|url rest]|url rest| |[|url rest]| |c|]
        eqn:Epc; try discriminate.
      * destruct (chan_refused e); [discriminate|].
        injection Hs as <-. discriminate Hret.
      * unfold prepUrl in Hs. destruct ct; injection Hs as <-; discriminate Hret.
      * injection Hs as <-. discriminate Hret.
      * destruct (pflag e <=? routines s)%Z; [destruct (ch s); [discriminate|]|];
          injection Hs as <-; discriminate Hret.
      * destruct (filemap (w s) !! url) as [fm|];
          [destruct (slice_index _ _)|]; injection Hs as <-; discriminate Hret.
      * destruct (0 <? routines s)%Z eqn:E0.
        { destruct (ch s); [discriminate|]. injection Hs as <-.
          cbn in Hret. rewrite Epc in Hret. discriminate Hret. }
        exists s', 0%nat. split; [apply (reachable_step e Main s s' Hr)|].
        { cbn. unfold main_step. now rewrite Epc, E0. }
        injection Hs as <-. repeat split; reflexivity.
    + exfalso. unfold finish_step in Hs.
      destruct (running s !! i) as [[url f]|]; [|discriminate].
      destruct (getUrl _ _ _ _ _ _); [|discriminate].
      destruct (_ <=? _)%Z; [|discriminate].
      injection Hs as <-. cbn in Hret. congruence.
Qed.

(** When no [os.Rename] is refused, the deferred function empties the
    working directory and the program exits with status 0. *)
Lemma publisher_run (s : state) :
  env_wf e ->
  NoDup (List.map a_tmp (alloc_list (tmpdir s) (calls e))) ->
  (forall o d, rename_fault e o d = None) ->
  reachable e s -> at_pc s = AtPublish (urls s) ->
  exists w',
    publish_loop (rename_fault e) (err s) (urls s) (w s) = Some w' /\
    dir_empty (tmpdir s) (fs w') = true /\
    exec e (List.repeat Main (length (urls s) + 2)) s
      = Some (set_pc (Exited 0) (set_w w' s)).
Proof.
  intros Hwf Hnd Hfault Hr Epc.
  destruct (publisher_started e s _ Hr Epc) as [Hp Hmk].
  destruct (run_inv_reachable e (tmpdir s) s Hwf Hp Hmk Hnd Hr) as (_ & Hinv & _).
  unfold run_inv in Hinv. rewrite Epc in Hinv.
  destruct Hinv as [_ Hstart].
  destruct (Hstart eq_refl) as (Hu & Hreg & Hf & _ & Hrun).
  set (A := alloc_list (tmpdir s) (calls e)) in *.
  set (log := List.map (fun a => (a_tmp a, a_name a)) A).
  destruct (publish_loop_exact (rename_fault e) (err s) A A (w s) Hreg)
    as (w' & Hpub & _ & Hfs).
  rewrite <- Hu in Hpub. fold log in Hfs.
  assert (Hsd : forall c1 c2, c1 ∈ log -> c2 ∈ log -> fst c1 <> snd c2).
  { intros c1 c2 H1 H2.
    apply elem_of_map_inv in H1 as (a1 & Ha1 & <-).
    apply elem_of_map_inv in H2 as (a2 & Ha2 & <-). cbn.
    eapply alloc_tmp_not_name; eassumption. }
  assert (Hempty : dir_empty (tmpdir s) (fs w') = true).
  { unfold dir_empty. apply bool_decide_eq_true_2. intros k v Hk.
    assert (Hs : is_Some (apply_renames (rename_fault e) log (fs (w s)) !! k))
      by (rewrite <- Hfs, Hk; eauto).
    apply apply_renames_keys in Hs as [[Hs Hns]|Hs]; [| |auto|exact Hsd].
    - destruct (strings.HasPrefix k (tmpdir s +:+ "/")) eqn:Ek; [|reflexivity].
      destruct Hns. pose proof (Hf k Hs Ek) as Hin. subst log.
      rewrite List.map_map. cbn. exact Hin.
    - subst log. rewrite List.map_map in Hs. cbn in Hs.
      apply elem_of_map_inv in Hs as (b & Hb & <-).
      apply no_slash_outside.
      destruct (alloc_list_elem _ _ _ Hb) as [-> _]. apply derive_fname_no_slash. }
  exists w'. split; [exact Hpub|]. split; [exact Hempty|].
  rewrite repeat_app.
  eapply exec_app; [apply (exec_publish_loop e s (urls s) w' Epc Hpub)|].
  cbn. now rewrite Hempty.
Qed.

(** The main goroutine alone goes one way only. *)
Lemma exec_mains_exit (k m : nat) (s0 s sf : state) (c c0 : Z) :
  exec e (List.repeat Main k) s0 = Some s ->
  exec e (List.repeat Main m) s0 = Some sf ->
  at_pc s = Exited c -> at_pc sf = Exited c0 -> c = c0.
Proof.
  revert m s0. induction k as [|k IH]; intros m s0; cbn.
  - intros [= <-]. destruct m as [|m]; cbn.
    + intros [= <-]. congruence.
    + intros H Hc. unfold main_step in H. rewrite Hc in H. discriminate.
  - destruct (main_step e s0) as [s1|] eqn:E1; [|discriminate]. intros Hk.
    destruct m as [|m]; cbn.
    + intros [= <-] _ Hc0. unfold main_step in E1. rewrite Hc0 in E1. discriminate.
    + rewrite E1. intros Hm. exact (IH m s1 Hk Hm).
Qed.

(** X20.  The exit status does not tell whether a download failed.  When
    [os.CreateTemp] gives fresh names and no [os.Rename] is refused, a
    run that got through its setup never exits with status 1, in no
    interleaving and whether the downloads succeeded or failed: the
    working directory is empty when [os.Remove] is called, since every
    temporary file was either removed by its goroutine or renamed. *)
Theorem exit_status_ignores_downloads (s : state) (c : Z) :
  env_wf e ->
  NoDup (List.map a_tmp (alloc_list (tmpdir s) (calls e))) ->
  (forall o d, rename_fault e o d = None) ->
  reachable e s -> at_pc s = Exited c ->
  c = 0%Z \/ s = init e.
Proof.
  intros Hwf Hnd Hfault Hr Epc.
  destruct (publisher_phase s Hwf Hr) as [Hinit|(s0 & k & Hr0 & Hpc0 & Htd & Hex)].
  { now rewrite Epc. }
  { now right. }
  left. rewrite <- Htd in Hnd.
  destruct (publisher_run s0 Hwf Hnd Hfault Hr0 Hpc0) as (w' & _ & _ & Hrun).
  exact (exec_mains_exit _ _ _ _ _ _ _ Hex Hrun Epc eq_refl).
Qed.

End ExitStatus.

Section ExitStatusWitnesses.

Lemma exit_status_ignores_downloads_witness :
  (0 = 0)%Z \/
  after run_unreachable (sched_once_drained ++ [Main; Main; Main])
    = init run_unreachable.
Proof.
  apply (exit_status_ignores_downloads run_unreachable
           (after run_unreachable (sched_once_drained ++ [Main; Main; Main])) 0%Z).
  - split; vm_compute; discriminate.
  - refine (bool_decide_unpack _ _). vm_compute. exact I.
  - intros o d. reflexivity.
  - apply after_reachable.
  - vm_compute. reflexivity.
Defined.

End ExitStatusWitnesses.

(** ** The standard error of a run without failure *)

Section CleanRun.

Variable e : env.

Hypothesis temps_created : forall c, c ∈ calls e -> exists rnd, snd c = inr rnd.
Hypothesis downloads_succeed :
  forall url f, exists data, fetch_succeeds (fetch e url f) data.

Lemma clean_inv (s : state) :
  reachable e s ->
  at_pc s = Exited 1 \/
  (stderr (w s) = [] /\
   match at_pc s with
   | AtAlloc rest => forall c, c ∈ rest -> exists rnd, snd c = inr rnd
   | _ => True
   end).
Proof.
  intros Hr. induction Hr as [|l s s' Hr IH Hs].
  - unfold init. destruct (pflag e <? 1)%Z; [now left|].
    destruct (mkdir e); [now left|]. right. split; [reflexivity | exact temps_created].
  - destruct IH as [Hx|[Herr Hrest]].
    { left. destruct l as [|i]; cbn in Hs.
      - unfold main_step in Hs. rewrite Hx in Hs. discriminate.
      - unfold finish_step in Hs.
        destruct (running s !! i) as [[url f]|]; [|discriminate].
        destruct (getUrl _ _ _ _ _ _); [|discriminate].
        destruct (_ <=? _)%Z; [|discriminate].
        injection Hs as <-. exact Hx. }
    destruct l as [|i]; cbn in Hs.
    + assert (Hnil : forall c, at_pc s <> Exited c -> err s = None).
      { intros c Hc. apply (err_is_nil e s Hr). intros c' Hc'.
        unfold main_step in Hs. rewrite Hc' in Hs. discriminate. }
      unfold main_step in Hs.
      destruct (at_pc s) as [[|[arg ct] rest]|[|url rest]|url rest| |[|url rest]| |c|]
        eqn:Epc; try discriminate.
      * destruct (chan_refused e); [discriminate|].
        injection Hs as <-. right. split; [exact Herr | exact I].
      * destruct (Hrest (arg, ct)) as [rnd Hct]; [left|]. cbn in Hct. subst ct.
        unfold prepUrl in Hs. injection Hs as <-. right. split; [exact Herr|].
        intros c Hc. apply Hrest. now right.
      * injection Hs as <-. right. split; [exact Herr | exact I].
      * destruct (pflag e <=? routines s)%Z; [destruct (ch s); [discriminate|]|];
          injection Hs as <-; right; (split; [exact Herr | exact I]).
      * destruct (filemap (w s) !! url) as [fm|];
          [destruct (slice_index _ _)|]; injection Hs as <-; right;
          (split; [exact Herr | exact I]).
      * destruct (0 <? routines s)%Z; [destruct (ch s); [discriminate|]|];
          injection Hs as <-; right; (split; [exact Herr|]); cbn;
          [now rewrite Epc | exact I].
      * injection Hs as <-. right. split; [exact Herr | exact I].
      * rewrite (Hnil 0%Z) in Hs by discriminate. unfold rename in Hs.
        destruct (tmpfiles (filemap_read (filemap (w s)) url));
          [injection Hs as <-; right; split; [exact Herr | exact I]|].
        destruct (os_Rename _ _ _ _) as [files r].
        injection Hs as <-. right. split; [exact Herr | exact I].
      * destruct (dir_empty _ _); injection Hs as <-; [right | now left].
        split; [exact Herr | exact I].
    + unfold finish_step in Hs.
      destruct (running s !! i) as [[url f]|]; [|discriminate].
      destruct (downloads_succeed url f) as (data & Hc & Hg & Hw).
      destruct (getUrl_ok (fetch e url f) f (qflag e) url data (g_start (w s))
                  (fetch_steps (fetch e url f)) Hc Hg Hw) as (g' & Hget & _ & Hst).
      { unfold fetch_steps. rewrite Hg. reflexivity. }
      rewrite Hget in Hs.
      destruct (_ <=? _)%Z; [|discriminate].
      injection Hs as <-. right. cbn. rewrite Hst. split; [exact Herr|].
      exact Hrest.
Qed.

(** X21.  A run without failure says nothing on the standard error: when
    every [os.CreateTemp] succeeds and every download meets no failure,
    nothing is printed there by the allocation loop, by the goroutines
    or by the publisher, in any interleaving, as long as the run has not
    exited with status 1. *)
Theorem clean_run_prints_no_error (s : state) :
  reachable e s -> at_pc s <> Exited 1 -> stderr (w s) = [].
Proof.
  intros Hr Hpc. destruct (clean_inv s Hr) as [Hx|[Herr _]]; [now destruct Hpc|].
  exact Herr.
Qed.

End CleanRun.

Section CleanRunWitnesses.

Lemma clean_run_prints_no_error_witness :
  stderr (w (after run_once sched_once_published)) = [].
Proof.
  apply (clean_run_prints_no_error run_once).
  - intros c Hc. apply list_elem_of_singleton in Hc. subst c.
    eexists. reflexivity.
  - intros url f. exists [Byte.x01]. split; [reflexivity|].
    split; reflexivity.
  - apply after_reachable.
  - vm_compute. discriminate.
Defined.

End CleanRunWitnesses.

(** ** What the publisher leaves *)

Section PublishedFiles.

(** A rename that is not refused leaves no file under its source. *)
Lemma apply_renames_moved (fault : string -> string -> option error)
    (log : list (string * string)) (o d : string)
    (files : gmap string (list Byte.byte)) :
  (o, d) ∈ log -> fault o d = None ->
  (forall c c', c ∈ log -> c' ∈ log -> fst c <> snd c') ->
  apply_renames fault log files !! o = None.
Proof.
  revert files. induction log as [|c log IH]; intros files Hin Hf Hsd.
  - inversion Hin.
  - rewrite apply_renames_cons.
    assert (Hsd' : forall c1 c2, c1 ∈ log -> c2 ∈ log -> fst c1 <> snd c2).
    { intros c1 c2 H1 H2. apply Hsd; now right. }
    apply elem_of_cons in Hin as [<-|Hin]; [|now apply IH].
    cbn [fst snd]. apply apply_renames_absent; [| |exact Hsd'].
    + destruct (files !! o) as [v|] eqn:E.
      * apply os_Rename_source; [exact Hf|].
        apply (Hsd (o, d) (o, d)); left.
      * unfold os_Rename. now rewrite E.
    + intros c' Hc' Hdst. exfalso.
      apply (Hsd (o, d) c'); [left | now right | now rewrite Hdst].
Qed.

(** A file stays under its name when every later rename onto the name
    fails, for lack of a source or because it is refused. *)
Lemma apply_renames_kept (fault : string -> string -> option error)
    (log : list (string * string)) (d : string)
    (files : gmap string (list Byte.byte)) (v : list Byte.byte) :
  files !! d = Some v ->
  (forall c, c ∈ log -> snd c = d ->
     files !! fst c = None \/ is_Some (fault (fst c) d)) ->
  (forall c, c ∈ log -> fst c <> d) ->
  (forall c c', c ∈ log -> c' ∈ log -> fst c <> snd c') ->
  apply_renames fault log files !! d = Some v.
Proof.
  revert files. induction log as [|c log IH]; intros files Hd Hfail Hnd Hsd;
    [exact Hd|].
  rewrite apply_renames_cons. apply IH.
  - unfold os_Rename. destruct (files !! fst c) as [x|] eqn:E; [|exact Hd].
    destruct (fault (fst c) (snd c)) as [er|] eqn:Ef; [exact Hd|]. cbn.
    assert (Hne : snd c <> d).
    { intros Heq. destruct (Hfail c) as [H|[er H]]; [left | exact Heq | |].
      - congruence.
      - rewrite <- Heq in H. congruence. }
    rewrite lookup_insert_ne by exact Hne.
    rewrite lookup_delete_ne; [exact Hd|]. apply Hnd. left.
  - intros c' Hc' Hdst.
    destruct (Hfail c') as [H|H]; [now right | exact Hdst | | now right].
    left. unfold os_Rename. destruct (files !! fst c) as [x|]; [|exact H].
    destruct (fault (fst c) (snd c)); [exact H|]. cbn.
    rewrite lookup_insert_ne; [apply lookup_delete_None; now right|].
    intros Heq. apply (Hsd c' c); [now right | left | now rewrite Heq].
  - intros c' Hc'. apply Hnd. now right.
  - intros c1 c2 H1 H2. apply Hsd; now right.
Qed.

(** The name holds the file of the last rename onto it that found its
    source and was not refused. *)
Lemma apply_renames_last_live (fault : string -> string -> option error)
    (pre post : list (string * string)) (o d : string)
    (files : gmap string (list Byte.byte)) (v : list Byte.byte) :
  NoDup (List.map fst (pre ++ (o, d) :: post)) ->
  (forall c1 c2, c1 ∈ pre ++ (o, d) :: post -> c2 ∈ pre ++ (o, d) :: post ->
                 fst c1 <> snd c2) ->
  fault o d = None ->
  files !! o = Some v ->
  (forall t, (t, d) ∈ post -> files !! t = None \/ is_Some (fault t d)) ->
  apply_renames fault (pre ++ (o, d) :: post) files !! d = Some v.
Proof.
  intros Hnd Hsd Hf Ho Hpost.
  replace (pre ++ (o, d) :: post) with ((pre ++ [(o, d)]) ++ post) in *
    by (now rewrite <- app_assoc).
  rewrite apply_renames_app.
  assert (Hsd1 : forall c1 c2, c1 ∈ pre ++ [(o, d)] -> c2 ∈ pre ++ [(o, d)] ->
                   fst c1 <> snd c2).
  { intros c1 c2 H1 H2. apply Hsd; apply elem_of_app; now left. }
  apply apply_renames_kept.
  - apply apply_renames_last; [|exact Hsd1|exact Hf| |exact Ho].
    + rewrite map_app in Hnd. apply NoDup_app in Hnd as [Hnd _]. exact Hnd.
    + cbn. intros H. inversion H.
  - intros c Hc Hdst. destruct c as [t d']. cbn in Hdst. subst d'. cbn.
    destruct (Hpost t Hc) as [H|H]; [left | now right].
    rewrite <- H. apply apply_renames_untouched.
    + intros c' Hc' Heq. exfalso.
      apply (Hsd (t, d) c'); [apply elem_of_app; now right
                             | apply elem_of_app; now left | now rewrite Heq].
    + intros c' Hc' Heq.
      rewrite map_app in Hnd. apply NoDup_app in Hnd as (_ & Hdis & _).
      apply (Hdis t).
      * rewrite <- Heq. now apply elem_of_map.
      * change t with (fst (t, d)). now apply elem_of_map.
    + exact Hsd1.
  - intros c Hc Heq.
    apply (Hsd c (o, d)); [apply elem_of_app; now right | | exact Heq].
    apply elem_of_app. left. apply elem_of_app. right. left.
  - intros c1 c2 H1 H2. apply Hsd; apply elem_of_app; now right.
Qed.

(** The publisher, from the state in which it starts, read against the
    allocations. *)
Lemma publisher_files (e : env) (s : state) :
  env_wf e ->
  NoDup (List.map a_tmp (alloc_list (tmpdir s) (calls e))) ->
  reachable e s -> at_pc s = AtPublish (urls s) ->
  exists w',
    publish_loop (rename_fault e) (err s) (urls s) (w s) = Some w' /\
    renamed w' =
      renamed (w s)
        ++ List.map (fun a => (a_tmp a, a_name a)) (alloc_list (tmpdir s) (calls e)) /\
    fs w' =
      apply_renames (rename_fault e)
        (List.map (fun a => (a_tmp a, a_name a)) (alloc_list (tmpdir s) (calls e)))
        (fs (w s)) /\
    (forall c1 c2,
        c1 ∈ List.map (fun a => (a_tmp a, a_name a)) (alloc_list (tmpdir s) (calls e)) ->
        c2 ∈ List.map (fun a => (a_tmp a, a_name a)) (alloc_list (tmpdir s) (calls e)) ->
        fst c1 <> snd c2) /\
    (forall a data,
        a ∈ alloc_list (tmpdir s) (calls e) ->
        fetch_succeeds (fetch e (a_url a) (a_tmp a)) data ->
        fs (w s) !! a_tmp a = Some data).
Proof.
  intros Hwf Hnd Hr Epc.
  destruct (publisher_started e s _ Hr Epc) as [Hp Hmk].
  destruct (run_inv_reachable e (tmpdir s) s Hwf Hp Hmk Hnd Hr) as (_ & Hinv & _).
  unfold run_inv in Hinv. rewrite Epc in Hinv.
  destruct Hinv as [_ Hstart].
  destruct (Hstart eq_refl) as (Hu & Hreg & Hf & [_ Hfe] & Hrun).
  destruct (publish_loop_exact (rename_fault e) (err s) _ _ (w s) Hreg)
    as (w' & Hpub & Hlog & Hfs).
  rewrite <- Hu in Hpub. exists w'.
  split; [exact Hpub|]. split; [exact Hlog|]. split; [exact Hfs|]. split.
  - intros c1 c2 H1 H2.
    apply elem_of_map_inv in H1 as (a1 & Ha1 & <-).
    apply elem_of_map_inv in H2 as (a2 & Ha2 & <-). cbn.
    eapply alloc_tmp_not_name; eassumption.
  - intros a data Ha Hs. apply Hfe; [exact Ha| |exact Hs].
    rewrite Hrun. intros H. inversion H.
Qed.

(** C1, as the code has it.  The dispatch list holds a URL once per
    occurrence, and the publisher calls [rename] for every item of the
    list.  So, from the state in which the publisher starts (and with
    fresh names from [os.CreateTemp]): it does not panic; the [os.Rename]
    calls it makes for a URL are those of all the queued temporary paths
    of the URL, in the order of the queue, each onto the end-file name of
    the URL, one call per occurrence; when it is through, every queue is
    empty; and the files are what these calls leave: after a call that is
    not refused no file is left under the temporary path, be it of a
    first or of a later occurrence, and when the call found a file there,
    the end-file name holds that file unless a later call onto the same
    name found a file too and was not refused. *)
Theorem publisher_renames_every_queued_path (e : env) (s : state) :
  env_wf e ->
  NoDup (List.map a_tmp (alloc_list (tmpdir s) (calls e))) ->
  reachable e s -> at_pc s = AtPublish (urls s) ->
  exists w' log,
    publish_loop (rename_fault e) (err s) (urls s) (w s) = Some w' /\
    reachable e (set_pc (AtPublish []) (set_w w' s)) /\
    renamed w' = renamed (w s) ++ log /\
    length log = length (urls s) /\
    (forall u, renames_for u (urls s) log =
               List.map (fun t => (t, name (filemap_read (filemap (w s)) u)))
                 (tmpfiles (filemap_read (filemap (w s)) u))) /\
    (forall u, tmpfiles (filemap_read (filemap w') u) = []) /\
    fs w' = apply_renames (rename_fault e) log (fs (w s)) /\
    (forall pre t d post,
        log = pre ++ (t, d) :: post -> rename_fault e t d = None ->
        fs w' !! t = None /\
        forall v,
          fs (w s) !! t = Some v ->
          (forall t', (t', d) ∈ post ->
             fs (w s) !! t' = None \/ is_Some (rename_fault e t' d)) ->
          fs w' !! d = Some v).
Proof.
  intros Hwf Hnd Hr Epc.
  destruct (publisher_files e s Hwf Hnd Hr Epc) as (w' & Hpub & Hlog & Hfs & Hsd & _).
  destruct (reg_inv_reachable e s Hwf Hr) as [_ Hpc]. rewrite Epc in Hpc.
  destruct (publish_loop_renames_all (rename_fault e) (err s) (urls s) (w s))
    as (w1 & log & Hp & Hlog1 & Hlen & Hfor & Hempty & _).
  { intros u. apply Hpc. }
  rewrite Hpub in Hp. injection Hp as <-.
  assert (Heq : log = List.map (fun a => (a_tmp a, a_name a))
                        (alloc_list (tmpdir s) (calls e))).
  { rewrite Hlog in Hlog1. now apply app_inv_head in Hlog1. }
  rewrite <- Heq in Hfs, Hsd.
  exists w', log. split; [exact Hpub|]. split.
  { eapply exec_reachable; [exact Hr|].
    apply (exec_publish_loop e s (urls s) w' Epc Hpub). }
  split; [exact Hlog1|]. split; [exact Hlen|]. split; [exact Hfor|].
  split; [exact Hempty|]. split; [exact Hfs|].
  intros pre t d post Hdec Hfault. split.
  - rewrite Hfs. apply (apply_renames_moved _ _ t d); [|exact Hfault|exact Hsd].
    rewrite Hdec. apply elem_of_app. right. left.
  - intros v Hv Hpost. rewrite Hfs, Hdec. rewrite Hdec in Hsd.
    apply apply_renames_last_live; [|exact Hsd|exact Hfault|exact Hv|exact Hpost].
    rewrite <- Hdec, Heq, List.map_map. exact Hnd.
Qed.

(** C5, as the code has it.  Take a run in which [os.CreateTemp] gives
    fresh names, at the moment the publisher starts (the dispatcher has
    returned: every goroutine has ended).  The publisher does not panic.
    For every allocation whose download met no failure (the reads and the
    writes all succeeded), when the publisher is through the end file
    holds exactly the bytes of the body, provided its rename is not
    refused and no later item of the same end-file name takes its place:
    each of those has lost its temporary file (its goroutine removed it
    after a failure) or has its rename refused.  And when no rename is
    refused, the working directory is empty when the publisher is
    through, so that [os.Remove] removes it and the run exits with
    status 0. *)
Theorem published_body_is_exact (e : env) (s : state) :
  env_wf e ->
  NoDup (List.map a_tmp (alloc_list (tmpdir s) (calls e))) ->
  reachable e s -> at_pc s = AtPublish (urls s) ->
  exists w',
    publish_loop (rename_fault e) (err s) (urls s) (w s) = Some w' /\
    (forall pre a post data,
        alloc_list (tmpdir s) (calls e) = pre ++ a :: post ->
        fetch_succeeds (fetch e (a_url a) (a_tmp a)) data ->
        rename_fault e (a_tmp a) (a_name a) = None ->
        (forall b, b ∈ post -> a_name b = a_name a ->
           fs (w s) !! a_tmp b = None \/
           is_Some (rename_fault e (a_tmp b) (a_name b))) ->
        fs w' !! a_name a = Some data) /\
    ((forall o d, rename_fault e o d = None) ->
     dir_empty (tmpdir s) (fs w') = true /\
     reachable e (set_pc (Exited 0) (set_w w' s))).
Proof.
  intros Hwf Hnd Hr Epc.
  destruct (publisher_files e s Hwf Hnd Hr Epc) as (w' & Hpub & _ & Hfs & Hsd & Hfe).
  exists w'. split; [exact Hpub|]. split.
  - intros pre a post data HA Hs Hfault Hpost.
    assert (Ha : a ∈ alloc_list (tmpdir s) (calls e)).
    { rewrite HA. apply elem_of_app. right. left. }
    rewrite Hfs. rewrite HA in Hsd, Hnd |- *.
    rewrite map_app in Hsd |- *. cbn [List.map] in Hsd |- *.
    apply apply_renames_last_live; [|exact Hsd|exact Hfault| |].
    + rewrite map_app in Hnd |- *. cbn [List.map fst] in Hnd |- *.
      now rewrite !List.map_map.
    + apply Hfe; [exact Ha | exact Hs].
    + intros t Ht. apply elem_of_map_inv in Ht as (b & Hb & Heq).
      injection Heq as <- Hname. rewrite <- Hname. now apply Hpost.
  - intros Hfault.
    destruct (publisher_run e s Hwf Hnd Hfault Hr Epc) as (w1 & Hp1 & Hempty & Hex).
    rewrite Hpub in Hp1. injection Hp1 as <-. split; [exact Hempty|].
    eapply exec_reachable; [exact Hr | exact Hex].
Qed.

End PublishedFiles.

Section PublishedFilesWitnesses.

Lemma publisher_renames_every_queued_path_witness :
  exists w' log,
    publish_loop (rename_fault run_twice)
      (err (after run_twice sched_twice_drained))
      (urls (after run_twice sched_twice_drained))
      (w (after run_twice sched_twice_drained)) = Some w' /\
    reachable run_twice
      (set_pc (AtPublish []) (set_w w' (after run_twice sched_twice_drained))) /\
    renamed w' = renamed (w (after run_twice sched_twice_drained)) ++ log /\
    length log = length (urls (after run_twice sched_twice_drained)) /\
    (forall u,
        renames_for u (urls (after run_twice sched_twice_drained)) log =
        List.map
          (fun t => (t, name (filemap_read
                               (filemap (w (after run_twice sched_twice_drained))) u)))
          (tmpfiles (filemap_read
                       (filemap (w (after run_twice sched_twice_drained))) u))) /\
    (forall u, tmpfiles (filemap_read (filemap w') u) = []) /\
    fs w' = apply_renames (rename_fault run_twice) log
              (fs (w (after run_twice sched_twice_drained))) /\
    (forall pre t d post,
        log = pre ++ (t, d) :: post -> rename_fault run_twice t d = None ->
        fs w' !! t = None /\
        forall v,
          fs (w (after run_twice sched_twice_drained)) !! t = Some v ->
          (forall t', (t', d) ∈ post ->
             fs (w (after run_twice sched_twice_drained)) !! t' = None \/
             is_Some (rename_fault run_twice t' d)) ->
          fs w' !! d = Some v).
Proof.
  apply (publisher_renames_every_queued_path run_twice
           (after run_twice sched_twice_drained)).
  - split; vm_compute; discriminate.
  - refine (bool_decide_unpack _ _). vm_compute. exact I.
  - apply after_reachable.
  - vm_compute. reflexivity.
Defined.

(** C1, as the design document has it, fails: in [run_twice] the temporary
    file of the second occurrence is renamed as well, and when the run
    has exited it is no longer in the working directory. *)
Lemma later_occurrence_is_renamed :
  ~ (forall s, reachable run_twice s ->
     forall oldpath newpath,
       In (oldpath, newpath) (renamed (w s)) -> oldpath = "./.goget1/a.txt111") /\
  ~ (forall s, reachable run_twice s -> at_pc s = Exited 0 ->
       is_Some (fs (w s) !! "./.goget1/a.txt222")).
Proof.
  split.
  - intros H.
    specialize (H (after run_twice sched_twice_exited) (after_reachable _ _)
                  "./.goget1/a.txt222" "a.txt").
    assert (Hin : In ("./.goget1/a.txt222", "a.txt")
                    (renamed (w (after run_twice sched_twice_exited))))
      by (vm_compute; auto).
    specialize (H Hin). clear Hin. discriminate H.
  - intros H.
    specialize (H (after run_twice sched_twice_exited) (after_reachable _ _)).
    assert (H1 : at_pc (after run_twice sched_twice_exited) = Exited 0)
      by (vm_compute; reflexivity).
    specialize (H H1). clear H1. vm_compute in H. destruct H as [x H].
    discriminate H.
Qed.

Lemma published_body_is_exact_witness :
  exists w',
    publish_loop (rename_fault run_second_fails)
      (err (after run_second_fails sched_twice_drained))
      (urls (after run_second_fails sched_twice_drained))
      (w (after run_second_fails sched_twice_drained)) = Some w' /\
    (forall pre a post data,
        alloc_list (tmpdir (after run_second_fails sched_twice_drained))
          (calls run_second_fails) = pre ++ a :: post ->
        fetch_succeeds (fetch run_second_fails (a_url a) (a_tmp a)) data ->
        rename_fault run_second_fails (a_tmp a) (a_name a) = None ->
        (forall b, b ∈ post -> a_name b = a_name a ->
           fs (w (after run_second_fails sched_twice_drained)) !! a_tmp b = None \/
           is_Some (rename_fault run_second_fails (a_tmp b) (a_name b))) ->
        fs w' !! a_name a = Some data) /\
    ((forall o d, rename_fault run_second_fails o d = None) ->
     dir_empty (tmpdir (after run_second_fails sched_twice_drained)) (fs w') = true /\
     reachable run_second_fails
       (set_pc (Exited 0) (set_w w' (after run_second_fails sched_twice_drained)))).
Proof.
  apply (published_body_is_exact run_second_fails
           (after run_second_fails sched_twice_drained)).
  - split; vm_compute; discriminate.
  - refine (bool_decide_unpack _ _). vm_compute. exact I.
  - apply after_reachable.
  - vm_compute. reflexivity.
Defined.

(** In [run_second_fails] the second download removed its temporary file,
    and the body of the first is under the end-file name when the run has
    exited. *)
Example run_second_fails_outcome :
  fs (w (after run_second_fails sched_twice_drained)) !! "./.goget1/a.txt222" = None /\
  at_pc (after run_second_fails sched_twice_exited) = Exited 0 /\
  fs (w (after run_second_fails sched_twice_exited)) !! "a.txt" = Some [Byte.x01].
Proof. vm_compute. auto. Qed.

(** C5, as the design document has it, fails twice.  In [run_twice] the
    first download met no failure and received the byte 01, and when the
    run has exited the end file holds the byte 02 of the second download.
    In [run_refused] the download met no failure, the rename is refused,
    and when the run has exited there is no end file and the working
    directory is still there (the exit status is 1). *)
Lemma first_body_is_replaced :
  ~ (forall s a data,
       reachable run_twice s -> at_pc s = Exited 0 ->
       a ∈ alloc_list "./.goget1" (calls run_twice) ->
       fetch_succeeds (fetch run_twice (a_url a) (a_tmp a)) data ->
       fs (w s) !! a_name a = Some data) /\
  ~ (forall s c a data,
       reachable run_refused s -> at_pc s = Exited c ->
       a ∈ alloc_list "./.goget1" (calls run_refused) ->
       fetch_succeeds (fetch run_refused (a_url a) (a_tmp a)) data ->
       fs (w s) !! a_name a = Some data /\ c = 0%Z).
Proof.
  split.
  - intros H.
    specialize (H (after run_twice sched_twice_exited)
                  {| a_url := "http://example.com/a.txt";
                     a_tmp := "./.goget1/a.txt111";
                     a_name := "a.txt" |}
                  [Byte.x01] (after_reachable _ _)).
    assert (H1 : at_pc (after run_twice sched_twice_exited) = Exited 0)
      by (vm_compute; reflexivity).
    assert (H2 : {| a_url := "http://example.com/a.txt";
                    a_tmp := "./.goget1/a.txt111";
                    a_name := "a.txt" |} ∈ alloc_list "./.goget1" (calls run_twice))
      by (vm_compute; apply elem_of_cons; now left).
    assert (H3 : fetch_succeeds
                   (fetch run_twice "http://example.com/a.txt" "./.goget1/a.txt111")
                   [Byte.x01])
      by (split; [reflexivity | split; [reflexivity | intros k; reflexivity]]).
    specialize (H H1 H2 H3). clear H1 H2 H3.
    vm_compute in H. discriminate H.
  - intros H.
    specialize (H (after run_refused (sched_once_published ++ [Main])) 1%Z
                  {| a_url := "http://example.com/a.txt";
                     a_tmp := "./.goget1/a.txt111";
                     a_name := "a.txt" |}
                  [Byte.x01] (after_reachable _ _)).
    assert (H1 : at_pc (after run_refused (sched_once_published ++ [Main])) = Exited 1)
      by (vm_compute; reflexivity).
    assert (H2 : {| a_url := "http://example.com/a.txt";
                    a_tmp := "./.goget1/a.txt111";
                    a_name := "a.txt" |} ∈ alloc_list "./.goget1" (calls run_refused))
      by (vm_compute; apply elem_of_cons; now left).
    assert (H3 : fetch_succeeds
                   (fetch run_refused "http://example.com/a.txt" "./.goget1/a.txt111")
                   [Byte.x01])
      by (split; [reflexivity | split; [reflexivity | intros k; reflexivity]]).
    specialize (H H1 H2 H3). clear H1 H2 H3.
    destruct H as [_ H]. discriminate H.
Qed.

End PublishedFilesWitnesses.

(** ** A body that is cut short *)

Section CutShort.

(** C4 on [run_cut_short].  The goroutine has been launched and the
    dispatcher waits for its value.  The connection is lost after 3
    bytes: line 73 declares a new [readErr], so the condition of the
    loop reads [nil] for ever, and line 77 lets [io.ErrUnexpectedEOF]
    pass.  So [getUrl] does not return, however many iterations it is
    given; the deferred send of line 42 never runs and nothing is on the
    channel; and no step is left to the run: the goroutine cannot end
    and the main goroutine is blocked on [<-ch]. *)
Theorem getUrl_read_error_never_sends :
  at_pc (after run_cut_short sched_once_launched) = AtDrain /\
  running (after run_cut_short sched_once_launched)
    = [("http://example.com/a.txt", "./.goget1/a.txt111")] /\
  ch (after run_cut_short sched_once_launched) = 0%nat /\
  (forall steps,
      getUrl steps (qflag run_cut_short)
        (fetch run_cut_short "http://example.com/a.txt" "./.goget1/a.txt111")
        "http://example.com/a.txt" "./.goget1/a.txt111"
        (g_start (w (after run_cut_short sched_once_launched))) = None) /\
  (forall l, step run_cut_short l (after run_cut_short sched_once_launched) = None).
Proof.
  assert (Hrun : running (after run_cut_short sched_once_launched)
                 = [("http://example.com/a.txt", "./.goget1/a.txt111")])
    by (vm_compute; reflexivity).
  split; [vm_compute; reflexivity|]. split; [exact Hrun|].
  split; [vm_compute; reflexivity|]. split.
  - intros steps. unfold getUrl, getUrl_body.
    change (fe_create (fetch run_cut_short "http://example.com/a.txt"
                         "./.goget1/a.txt111")) with (@None error).
    change (fe_get (fetch run_cut_short "http://example.com/a.txt"
                      "./.goget1/a.txt111"))
      with (@inr error body {| b_data := [Byte.x01; Byte.x02; Byte.x03];
                               b_end := ErrUnexpectedEOF |}).
    cbv iota beta.
    rewrite copy_loop_never_ends; [reflexivity | | reflexivity | reflexivity].
    intros k. reflexivity.
  - intros [|i].
    + vm_compute. reflexivity.
    + cbn [step]. unfold finish_step. rewrite Hrun.
      destruct i as [|i]; [vm_compute; reflexivity|]. reflexivity.
Qed.

End CutShort.
